(** * Othello rules engine and alpha-beta search: a shallow embedding

    The rules engine ([getFlippablePieces], [getValidMoves],
    [getResultingBoard], the opening position of [initGame]) and the classic
    search AI ([evaluateBoard], [alphaBetaSearch], [findBestMove]) are
    transcribed from the JavaScript sources, function by function, and the
    properties of the specification are stated and proved about them. *)

From Stdlib Require Import ZArith List Bool Lia Sorted.
From stdpp Require Import base list.
From Stdlib Require String Ascii DecimalString.
Import ListNotations.
Import String.StringSyntax.
Delimit Scope string_scope with string.
Open Scope Z_scope.

(** ** JavaScript values

    Cells and players are plain JavaScript numbers in the program; a player
    argument may also be absent ([null] or [undefined]), and reading past
    the end of a row yields [undefined]. *)

Inductive value : Type :=
  | VUndefined
  | VNull
  | VNum (n : Z).

(** [a === b] on these values. *)
Definition strictEq (a b : value) : bool :=
  match a, b with
  | VUndefined, VUndefined => true
  | VNull, VNull => true
  | VNum x, VNum y => x =? y
  | _, _ => false
  end.

(** Truthiness: [undefined], [null] and [0] are falsy. *)
Definition truthy (v : value) : bool :=
  match v with
  | VNum n => negb (n =? 0)
  | _ => false
  end.

(** ** Constants (part_000, lines 2-10) *)

Definition EMPTY : value := VNum 0.
Definition BLACK : value := VNum 1.
Definition WHITE : value := VNum 2.
Definition BOARD_SIZE : Z := 8.

Definition DIRECTIONS : list (Z * Z) :=
  [ (-1, -1); (-1, 0); (-1, 1);
    (0, -1);           (0, 1);
    (1, -1);  (1, 0);  (1, 1) ].

(** ** Boards and moves *)

Abbreviation Board := (list (list value)).

Record Move : Type := mkMove { row : Z; col : Z }.

Definition Move_eqb (a b : Move) : bool :=
  (row a =? row b) && (col a =? col b).

(** [targetBoard[r][c]].  A column past the end of the row reads
    [undefined].  A missing row makes the JavaScript expression throw; every
    read the program performs on an 8x8 board is inside the board, and the
    theorems below assume [wf_board]. *)
Definition cellAt (b : Board) (r c : Z) : value :=
  if (r <? 0) || (c <? 0) then VUndefined
  else match b !! Z.to_nat r with
       | Some cells =>
           match cells !! Z.to_nat c with
           | Some v => v
           | None => VUndefined
           end
       | None => VUndefined
       end.

(** [newBoard[r][c] = v] for a position inside the board (outside of it the
    model leaves the board as it is). *)
Definition setCell (b : Board) (r c : Z) (v : value) : Board :=
  if (r <? 0) || (c <? 0) then b
  else alter (fun cells => <[Z.to_nat c := v]> cells) (Z.to_nat r) b.

(** [JSON.parse(JSON.stringify(board))]: a deep copy; numbers and [null]
    survive, [undefined] inside an array is written as [null]. *)
Definition jsonCell (v : value) : value :=
  match v with
  | VUndefined => VNull
  | _ => v
  end.

Definition jsonCopy (b : Board) : Board := map (map jsonCell) b.

(** A cell of the data model: Empty, Black or White. *)
Definition isCell (v : value) : bool :=
  strictEq v EMPTY || strictEq v BLACK || strictEq v WHITE.

(** A player of the data model: Black or White. *)
Definition isPlayer (v : value) : bool :=
  strictEq v BLACK || strictEq v WHITE.

(** The board invariant of the data model: 8 rows of 8 valid cells. *)
Definition wf_boardb (b : Board) : bool :=
  (length b =? 8)%nat &&
  forallb (fun cells => (length cells =? 8)%nat && forallb isCell cells) b.

Definition wf_board (b : Board) : Prop := wf_boardb b = true.

(** [row] and [col] are both in [0, BOARD_SIZE): the loop condition of the
    scan, and the range of a Move. *)
Definition inBoard (r c : Z) : bool :=
  (0 <=? r) && (r <? BOARD_SIZE) && (0 <=? c) && (c <? BOARD_SIZE).

(** The loop indices [0 .. BOARD_SIZE-1] of the [for] loops. *)
Definition indices : list Z := [0; 1; 2; 3; 4; 5; 6; 7].

(** ** Rules engine (part_000, lines 334-387) *)

(** [player === BLACK ? WHITE : BLACK] *)
Definition opponentOf (player : value) : value :=
  if strictEq player BLACK then WHITE else BLACK.

(** The [while] loop of [getFlippablePieces] for one direction, started at
    [(r, c)] with the cells collected so far in [currentLine].  The result is
    what the loop appends to [piecesToFlip]: the collected line when the
    scan stops on a cell of [player], nothing when it stops on any other
    cell or leaves the board.  [fuel] bounds the number of iterations;
    [None] means the bound was reached with the loop still running. *)
Fixpoint scanLine (fuel : nat) (targetBoard : Board) (player opponent : value)
    (dr dc r c : Z) (currentLine : list Move) : option (list Move) :=
  if inBoard r c then
    match fuel with
    | O => None
    | S fuel' =>
        if strictEq (cellAt targetBoard r c) opponent then
          scanLine fuel' targetBoard player opponent dr dc (r + dr) (c + dc)
                   (currentLine ++ [mkMove r c])
        else if strictEq (cellAt targetBoard r c) player then
          Some currentLine
        else
          Some []
    end
  else Some [].

(** One callback of [DIRECTIONS.forEach]: the line captured in direction
    [(dr, dc)].  Eight iterations are enough on every ray (lemma
    [scanLine_terminates]), so the [None] branch is never taken. *)
Definition capturedLine (targetBoard : Board) (player opponent : value)
    (row col : Z) (d : Z * Z) : list Move :=
  let '(dr, dc) := d in
  match scanLine (Z.to_nat BOARD_SIZE) targetBoard player opponent dr dc
                 (row + dr) (col + dc) [] with
  | Some line => line
  | None => []
  end.

Definition getFlippablePieces (targetBoard : Board) (player : value)
    (row col : Z) : list Move :=
  let opponent := opponentOf player in
  fold_left
    (fun piecesToFlip d =>
       piecesToFlip ++ capturedLine targetBoard player opponent row col d)
    DIRECTIONS [].

Definition getValidMoves (targetBoard : Board) (player : value) : list Move :=
  if negb (truthy player) then []
  else
    flat_map (fun r =>
      flat_map (fun c =>
        if strictEq (cellAt targetBoard r c) EMPTY then
          if (0 <? length (getFlippablePieces targetBoard player r c))%nat
          then [mkMove r c]
          else []
        else [])
      indices)
    indices.

Definition isValidMove (targetBoard : Board) (player : value)
    (row col : Z) : bool :=
  existsb (fun move => Move_eqb move (mkMove row col))
          (getValidMoves targetBoard player).

(** [piecesToFlip.forEach(p => newBoard[p.row][p.col] = player)] *)
Definition flipAll (newBoard : Board) (player : value)
    (piecesToFlip : list Move) : Board :=
  fold_left (fun nb p => setCell nb (row p) (col p) player)
            piecesToFlip newBoard.

(** [None] is the [null] the function returns. *)
Definition getResultingBoard (originalBoard : Board) (player : value)
    (r c : Z) : option Board :=
  let piecesToFlip := getFlippablePieces originalBoard player r c in
  if (length piecesToFlip =? 0)%nat
     && strictEq (cellAt originalBoard r c) EMPTY
  then None
  else
    let newBoard := jsonCopy originalBoard in
    let newBoard := setCell newBoard r c player in
    Some (flipAll newBoard player piecesToFlip).

(** The board set up by [initGame] (part_000, lines 92-96). *)
Definition emptyBoard : Board :=
  replicate (Z.to_nat BOARD_SIZE) (replicate (Z.to_nat BOARD_SIZE) EMPTY).

Definition initialBoard : Board :=
  setCell (setCell (setCell (setCell emptyBoard 3 3 WHITE) 4 4 WHITE)
                   3 4 BLACK) 4 3 BLACK.

(** ** Search AI (classic-ai.js) *)

Definition boardValueTable : list (list Z) :=
  [ [ 30; -12;  0; -1; -1;  0; -12;  30];
    [-12; -15; -3; -3; -3; -3; -15; -12];
    [  0;  -3;  0; -1; -1;  0;  -3;   0];
    [ -1;  -3; -1; -1; -1; -1;  -3;  -1];
    [ -1;  -3; -1; -1; -1; -1;  -3;  -1];
    [  0;  -3;  0; -1; -1;  0;  -3;   0];
    [-12; -15; -3; -3; -3; -3; -15; -12];
    [ 30; -12;  0; -1; -1;  0; -12;  30] ].

(** [boardValueTable[r][c]] for the loop indices. *)
Definition valueAt (r c : Z) : Z :=
  match boardValueTable !! Z.to_nat r with
  | Some weights => default 0 (weights !! Z.to_nat c)
  | None => 0
  end.

(** The body of the two nested [for] loops of [evaluateBoard]: the update of
    [boardPositionScore] at cell [(r, c)]. *)
Definition positionStep (targetBoard : Board) (player opponent : value)
    (r : Z) (boardPositionScore : Z) (c : Z) : Z :=
  if strictEq (cellAt targetBoard r c) player then
    boardPositionScore + valueAt r c
  else if strictEq (cellAt targetBoard r c) opponent then
    boardPositionScore - valueAt r c
  else boardPositionScore.

Definition evaluateBoard (targetBoard : Board) (player : value) : Z :=
  let opponent := opponentOf player in
  let boardPositionScore :=
    fold_left (fun acc r =>
                 fold_left (positionStep targetBoard player opponent r)
                           indices acc)
              indices 0 in
  let playerMoves := Z.of_nat (length (getValidMoves targetBoard player)) in
  let opponentMoves :=
    Z.of_nat (length (getValidMoves targetBoard opponent)) in
  let mobilityScore := playerMoves - opponentMoves in
  boardPositionScore * 1 + mobilityScore * 5.

(** Scores, [alpha] and [beta] are JavaScript numbers: the integers produced
    by [evaluateBoard], and the two infinities the search starts from. *)
Inductive number : Type :=
  | NegInfinity
  | Finite (z : Z)
  | Infinity.

(** [a < b] *)
Definition num_ltb (a b : number) : bool :=
  match a, b with
  | NegInfinity, NegInfinity => false
  | NegInfinity, _ => true
  | Finite _, NegInfinity => false
  | Finite x, Finite y => x <? y
  | Finite _, Infinity => true
  | Infinity, _ => false
  end.

(** [a <= b] *)
Definition num_leb (a b : number) : bool :=
  match a, b with
  | NegInfinity, _ => true
  | Finite _, NegInfinity => false
  | Finite x, Finite y => x <=? y
  | Finite _, Infinity => true
  | Infinity, Infinity => true
  | Infinity, _ => false
  end.

(** [Math.max(a, b)] and [Math.min(a, b)] *)
Definition num_max (a b : number) : number :=
  match a, b with
  | Infinity, _ | _, Infinity => Infinity
  | NegInfinity, x | x, NegInfinity => x
  | Finite x, Finite y => Finite (Z.max x y)
  end.

Definition num_min (a b : number) : number :=
  match a, b with
  | NegInfinity, _ | _, NegInfinity => NegInfinity
  | Infinity, x | x, Infinity => x
  | Finite x, Finite y => Finite (Z.min x y)
  end.

(** The object returned by [alphaBetaSearch]: [{ score }] at a leaf
    ([move] is then [undefined], here [None]), [{ score, move }] otherwise. *)
Record SearchResult : Type := mkResult { score : number; move : option Move }.

Section SearchNode.

(** The recursive call one ply deeper; [None] stands for a thrown
    exception. *)
Variable search :
  Board -> value -> number -> number -> bool -> value -> option SearchResult.

Variables (targetBoard : Board) (player opponent rootPlayer : value).

(** A board that may be [null]: searching [null] throws a TypeError at the
    first cell read of [getValidMoves] (the player passed down is BLACK or
    WHITE, hence truthy). *)
Definition searchChild (newBoard : option Board) (alpha beta : number)
    (isMaximizingPlayer : bool) : option SearchResult :=
  match newBoard with
  | Some nb => search nb opponent alpha beta isMaximizingPlayer rootPlayer
  | None => None
  end.

(** The [for (const move of validMoves)] loop of a maximizing node. *)
Fixpoint maximizingLoop (beta : number) (moves : list Move)
    (alpha maxEval : number) (bestMove : Move) : option SearchResult :=
  match moves with
  | [] => Some (mkResult maxEval (Some bestMove))
  | move :: rest =>
      let newBoard :=
        getResultingBoard targetBoard player (row move) (col move) in
      match searchChild newBoard alpha beta false with
      | None => None
      | Some result =>
          let better := num_ltb maxEval (score result) in
          let maxEval' := if better then score result else maxEval in
          let bestMove' := if better then move else bestMove in
          let alpha' := num_max alpha (score result) in
          if num_leb beta alpha' then Some (mkResult maxEval' (Some bestMove'))
          else maximizingLoop beta rest alpha' maxEval' bestMove'
      end
  end.

(** The loop of a minimizing node. *)
Fixpoint minimizingLoop (alpha : number) (moves : list Move)
    (beta minEval : number) (bestMove : Move) : option SearchResult :=
  match moves with
  | [] => Some (mkResult minEval (Some bestMove))
  | move :: rest =>
      let newBoard :=
        getResultingBoard targetBoard player (row move) (col move) in
      match searchChild newBoard alpha beta true with
      | None => None
      | Some result =>
          let better := num_ltb (score result) minEval in
          let minEval' := if better then score result else minEval in
          let bestMove' := if better then move else bestMove in
          let beta' := num_min beta (score result) in
          if num_leb beta' alpha then Some (mkResult minEval' (Some bestMove'))
          else minimizingLoop alpha rest beta' minEval' bestMove'
      end
  end.

(** Lines 59-87: the node of a player who has a move.  The first branch is
    unreachable from [alphaBetaSearch] ([validMoves] is not empty there);
    in JavaScript [validMoves[0]] would be [undefined] and both loops
    would be skipped. *)
Definition searchNode (validMoves : list Move) (alpha beta : number)
    (isMaximizingPlayer : bool) : option SearchResult :=
  match validMoves with
  | [] =>
      Some (mkResult (if isMaximizingPlayer then NegInfinity else Infinity)
                     None)
  | first :: _ =>
      if isMaximizingPlayer
      then maximizingLoop beta validMoves alpha NegInfinity first
      else minimizingLoop alpha validMoves beta Infinity first
  end.

End SearchNode.

(** [alphaBetaSearch], by recursion on [depth].  The pass call of line 56
    keeps [depth]; it is reached only when the opponent has a move, so the
    callee skips its own base case and pass case and runs the node of lines
    59-87 for the opponent: that node is written out in place of the call.
    [alphaBetaSearchFuel] below is the literal transcription, and
    [alphaBetaSearchFuel_exact] shows that the two agree. *)
Fixpoint alphaBetaSearch (depth : nat) (targetBoard : Board) (player : value)
    (alpha beta : number) (isMaximizingPlayer : bool) (rootPlayer : value)
    : option SearchResult :=
  let opponent := opponentOf player in
  let validMoves := getValidMoves targetBoard player in
  match depth with
  | O => Some (mkResult (Finite (evaluateBoard targetBoard rootPlayer)) None)
  | S depth' =>
      if (length validMoves =? 0)%nat
         && (length (getValidMoves targetBoard opponent) =? 0)%nat
      then Some (mkResult (Finite (evaluateBoard targetBoard rootPlayer)) None)
      else if (length validMoves =? 0)%nat then
        searchNode (alphaBetaSearch depth') targetBoard opponent
                   (opponentOf opponent) rootPlayer
                   (getValidMoves targetBoard opponent)
                   alpha beta (negb isMaximizingPlayer)
      else
        searchNode (alphaBetaSearch depth') targetBoard player opponent
                   rootPlayer validMoves alpha beta isMaximizingPlayer
  end.

(** The literal transcription of [alphaBetaSearch], pass call included,
    with a bound [fuel] on the depth of nested calls.  The outer [None]
    means that the bound was reached, the inner one is a thrown exception. *)
Section FuelLoops.

(** The recursive call on the board of a move ([None]: the board is
    [null]). *)
Variable child :
  option Board -> number -> number -> bool -> option (option SearchResult).

Variables (targetBoard : Board) (player : value).

Fixpoint maximizingLoopFuel (beta : number) (moves : list Move)
    (alpha maxEval : number) (bestMove : Move)
    : option (option SearchResult) :=
  match moves with
  | [] => Some (Some (mkResult maxEval (Some bestMove)))
  | move :: rest =>
      let newBoard :=
        getResultingBoard targetBoard player (row move) (col move) in
      match child newBoard alpha beta false with
      | None => None
      | Some None => Some None
      | Some (Some result) =>
          let better := num_ltb maxEval (score result) in
          let maxEval' := if better then score result else maxEval in
          let bestMove' := if better then move else bestMove in
          let alpha' := num_max alpha (score result) in
          if num_leb beta alpha'
          then Some (Some (mkResult maxEval' (Some bestMove')))
          else maximizingLoopFuel beta rest alpha' maxEval' bestMove'
      end
  end.

Fixpoint minimizingLoopFuel (alpha : number) (moves : list Move)
    (beta minEval : number) (bestMove : Move)
    : option (option SearchResult) :=
  match moves with
  | [] => Some (Some (mkResult minEval (Some bestMove)))
  | move :: rest =>
      let newBoard :=
        getResultingBoard targetBoard player (row move) (col move) in
      match child newBoard alpha beta true with
      | None => None
      | Some None => Some None
      | Some (Some result) =>
          let better := num_ltb (score result) minEval in
          let minEval' := if better then score result else minEval in
          let bestMove' := if better then move else bestMove in
          let beta' := num_min beta (score result) in
          if num_leb beta' alpha
          then Some (Some (mkResult minEval' (Some bestMove')))
          else minimizingLoopFuel alpha rest beta' minEval' bestMove'
      end
  end.

End FuelLoops.

Fixpoint alphaBetaSearchFuel (fuel : nat) (targetBoard : Board)
    (player : value) (depth : nat) (alpha beta : number)
    (isMaximizingPlayer : bool) (rootPlayer : value)
    : option (option SearchResult) :=
  match fuel with
  | O => None
  | S fuel' =>
      let opponent := opponentOf player in
      let validMoves := getValidMoves targetBoard player in
      if (depth =? 0)%nat
         || ((length validMoves =? 0)%nat
             && (length (getValidMoves targetBoard opponent) =? 0)%nat)
      then
        Some (Some (mkResult (Finite (evaluateBoard targetBoard rootPlayer))
                             None))
      else if (length validMoves =? 0)%nat then
        alphaBetaSearchFuel fuel' targetBoard opponent depth alpha beta
                            (negb isMaximizingPlayer) rootPlayer
      else
        let child newBoard a b flag :=
          match newBoard with
          | Some nb =>
              alphaBetaSearchFuel fuel' nb opponent (depth - 1)%nat a b flag
                                  rootPlayer
          | None => Some None
          end in
        match validMoves with
        | [] => Some None
        | first :: _ =>
            if isMaximizingPlayer
            then maximizingLoopFuel child targetBoard player beta validMoves
                                    alpha NegInfinity first
            else minimizingLoopFuel child targetBoard player alpha validMoves
                                    beta Infinity first
        end
  end.

(** [const depth = 4; // AI strength] *)
Definition searchDepth : nat := 4.

(** [findBestMove] resolves its promise with [result.move].  The outer
    [option] is the fate of the promise ([None]: the executor threw), the
    inner one is the value it resolves with ([None]: [undefined], no move). *)
Definition findBestMove (board : Board) (player : value)
    : option (option Move) :=
  match alphaBetaSearch searchDepth board player NegInfinity Infinity true
                        player with
  | Some result => Some (move result)
  | None => None
  end.

(** ** Piece counts (part_000, [updateInfo], lines 278-292) *)

(** [blackScore] / [whiteScore]: the number of cells holding [color]. *)
Definition countColor (board : Board) (color : value) : Z :=
  fold_left (fun acc r =>
               fold_left (fun acc c =>
                            if strictEq (cellAt board r c) color
                            then acc + 1 else acc)
                         indices acc)
            indices 0.

(** [totalPieces = blackScore + whiteScore] *)
Definition totalPieces (board : Board) : Z :=
  countColor board BLACK + countColor board WHITE.

(** ** Notions of the specification *)

(** The 64 cells in row-major order, and the rank of a cell in that order. *)
Definition allCells : list Move :=
  flat_map (fun r => map (mkMove r) indices) indices.

Definition moveIndex (m : Move) : Z := BOARD_SIZE * row m + col m.

(** A legal move: the target is Empty and captures at least one piece. *)
Definition legalMove (b : Board) (player : value) (m : Move) : Prop :=
  inBoard (row m) (col m) = true /\
  cellAt b (row m) (col m) = EMPTY /\
  getFlippablePieces b player (row m) (col m) <> [].

(** Two boards with the same contents. *)
Definition sameCells (b1 b2 : Board) : Prop :=
  forall r c, inBoard r c = true -> cellAt b1 r c = cellAt b2 r c.

(** The board after a move of the search tree (the moves of the tree are
    legal, so [getResultingBoard] answers with a board). *)
Definition applyMove (b : Board) (player : value) (m : Move) : Board :=
  match getResultingBoard b player (row m) (col m) with
  | Some nb => nb
  | None => b
  end.

(** The best of a list of scores for the side to move: the largest for the
    maximizing side, the smallest for the minimizing one. *)
Definition bestScore (isMaximizing : bool) (scores : list Z) : Z :=
  match scores with
  | [] => 0
  | s :: rest =>
      fold_left (if isMaximizing then Z.max else Z.min) rest s
  end.

(** Brute-force minimax, as the specification words it: the same leaf rule
    (depth exhausted or neither side can move: static evaluation from the
    root player's point of view), the same pass rule (the opponent moves at
    the same depth with the roles exchanged), and every move of a node
    explored, without any bound. *)
Fixpoint minimax (depth : nat) (b : Board) (player : value)
    (isMaximizing : bool) (rootPlayer : value) : Z :=
  match depth with
  | O => evaluateBoard b rootPlayer
  | S depth' =>
      let opponent := opponentOf player in
      match getValidMoves b player, getValidMoves b opponent with
      | [], [] => evaluateBoard b rootPlayer
      | [], replies =>
          bestScore (negb isMaximizing)
            (map (fun m => minimax depth' (applyMove b opponent m)
                                   (opponentOf opponent) isMaximizing
                                   rootPlayer)
                 replies)
      | moves, _ =>
          bestScore isMaximizing
            (map (fun m => minimax depth' (applyMove b player m) opponent
                                   (negb isMaximizing) rootPlayer)
                 moves)
      end
  end.

(** The minimax score of a root move at search depth [depth]: the value of
    the position it leads to, the opponent to move, one ply less. *)
Definition rootMoveScore (depth : nat) (b : Board) (player : value)
    (m : Move) : Z :=
  minimax (pred depth) (applyMove b player m) (opponentOf player) false player.

(** The number of cells between [(r, c)] and the edge of the board in
    direction [(dr, dc)], the cell itself included. *)
Definition stepsLeft (dr dc r c : Z) : Z :=
  if dr =? 1 then 8 - r
  else if dr =? -1 then r + 1
  else if dc =? 1 then 8 - c
  else c + 1.

(** [n] consecutive cells from [(r, c)] in direction [(dr, dc)]. *)
Fixpoint ray (n : nat) (dr dc r c : Z) : list Move :=
  match n with
  | O => []
  | S n' => mkMove r c :: ray n' dr dc (r + dr) (c + dc)
  end.

(** The sum of a list of integers. *)
Definition sumZ (l : list Z) : Z := fold_right Z.add 0 l.

(** The sum of [f r c] over the 64 positions of the board. *)
Definition boardSum (f : Z -> Z -> Z) : Z :=
  sumZ (map (fun r => sumZ (map (f r) indices)) indices).

(** The order of scores, as propositions. *)
Definition num_lt (a b : number) : Prop := num_ltb a b = true.
Definition num_le (a b : number) : Prop := num_leb a b = true.

(** What a search in the window [(alpha, beta)] tells about the exact value
    [v] of a position when it returns the score [s]: a score at or below
    [alpha] is an upper bound of [v], a score at or above [beta] is a lower
    bound, and a score strictly inside the window is exact. *)
Definition withinBounds (alpha beta s v : number) : Prop :=
  (num_le s alpha -> num_le v s) /\
  (num_le beta s -> num_le s v) /\
  (num_lt alpha s -> num_lt s beta -> num_le s v /\ num_le v s).

(** The best exact value among the children seen so far, extended by the
    values of further children. *)
Definition bestSoFar (isMaximizing : bool) (seen : number) (vals : list Z)
    : number :=
  fold_left (fun acc v => if isMaximizing then num_max acc (Finite v)
                          else num_min acc (Finite v))
            vals seen.

(** The exact value of the position a move leads to, for a valuation
    [childValue] of positions. *)
Definition moveValue (b : Board) (q : value) (childValue : Board -> Z)
    (m : Move) : Z :=
  childValue (applyMove b q m).

(** The capture rule of the game: [m] lies on a ray from the target
    [(r, c)], strictly between the target and a piece of [player], and every
    cell of the ray between the target and that piece is inside the board
    and holds a piece of the opponent. *)
Definition bracketed (b : Board) (player : value) (r c : Z) (m : Move)
    : Prop :=
  exists dr dc k n,
    In (dr, dc) DIRECTIONS /\ 1 <= k < n /\
    m = mkMove (r + k * dr) (c + k * dc) /\
    (forall i, 1 <= i < n ->
               inBoard (r + i * dr) (c + i * dc) = true /\
               cellAt b (r + i * dr) (c + i * dc) = opponentOf player) /\
    inBoard (r + n * dr) (c + n * dc) = true /\
    cellAt b (r + n * dr) (c + n * dc) = player.

(** A score that is a finite integer within the range of the static
    evaluation. *)
Definition inRange (s : number) : Prop :=
  exists z, s = Finite z /\ -664 <= z <= 664.

(** ** Positions used in the examples *)

(** White at (0,0), Black at (0,1), every other cell Empty: Black has no
    legal move, White can capture at (0,2). *)
Definition passBoard : Board :=
  setCell (setCell emptyBoard 0 0 WHITE) 0 1 BLACK.

(** Black at (0,0) and (0,2), White at (0,1). *)
Definition sandwichBoard : Board :=
  setCell (setCell (setCell emptyBoard 0 0 BLACK) 0 1 WHITE) 0 2 BLACK.

(** The opening position after Black's capture at (2,3). *)
Definition boardAfterOpening : Board :=
  setCell (setCell initialBoard 2 3 BLACK) 3 3 BLACK.

(** ** The game driver (part_000, lines 91-110 and 172-331)

    The state the driver keeps in its global variables and in the two page
    elements it reads back: the log (its number of lines numbers the next
    move) and the result line.  Drawing the page ([drawBoard],
    [updateInfo], [updateModeUI]'s styling) changes none of it and is left
    out. *)

(** A line of the game log: the line [n: player -> notation] written by
    [logMove] ([black] tells which of the two player names is printed), or
    the pass line of [switchPlayer], which names the player who passes. *)
Inductive LogEntry : Type :=
  | MoveLine (number : nat) (black : bool) (notation : String.string)
  | PassLine (black : bool).

(** What [gameResultElement] shows: nothing, the loader of [aiMove], or the
    message of [endGame] with the two scores in the order it prints them. *)
Inductive ResultLine : Type :=
  | NoMessage
  | ThinkingMessage
  | BlackWins (blackScore whiteScore : Z)
  | WhiteWins (whiteScore blackScore : Z)
  | DrawMessage (blackScore whiteScore : Z).

Record Game : Type := mkGame {
  board : Board;
  previousBoard : option Board;
  currentPlayer : value;
  gameMode : String.string;
  isAIThinking : bool;
  gameLog : list LogEntry;
  gameResult : ResultLine
}.

Definition isCurrentPlayerHuman (g : Game) : bool :=
  if isAIThinking g then false
  else if String.eqb (gameMode g) "human-vs-human" then true
  else if String.eqb (gameMode g) "human-vs-ai"
          && strictEq (currentPlayer g) BLACK then true
  else false.

(** [colStr] and [rowStr] of [logMove], for a column from which
    ['a'.charCodeAt(0) + col] is the code of an ASCII character. *)
Definition moveNotation (r c : Z) : String.string :=
  String.append
    (String.String (Ascii.ascii_of_N (Z.to_N (97 + c))) String.EmptyString)
    (DecimalString.NilZero.string_of_int (Z.to_int (r + 1))).

Definition logMove (g : Game) (r c : Z) : Game :=
  mkGame (board g) (previousBoard g) (currentPlayer g) (gameMode g)
         (isAIThinking g)
         (gameLog g ++
          [MoveLine (length (gameLog g) + 1)
                    (strictEq (currentPlayer g) BLACK) (moveNotation r c)])
         (gameResult g).

(** [endGame]; the two loops count the cells of the board as [updateInfo]
    does. *)
Definition endGame (g : Game) : Game :=
  let blackScore := countColor (board g) BLACK in
  let whiteScore := countColor (board g) WHITE in
  let message :=
    if whiteScore <? blackScore then BlackWins blackScore whiteScore
    else if blackScore <? whiteScore then WhiteWins whiteScore blackScore
    else DrawMessage blackScore whiteScore in
  mkGame (board g) (previousBoard g) (currentPlayer g) (gameMode g)
         true (gameLog g) message.

(** [aiMove] up to its first [await]: the guard, the flag and the loader. *)
Definition aiMoveStart (g : Game) : Game :=
  if isCurrentPlayerHuman g || isAIThinking g then g
  else mkGame (board g) (previousBoard g) (currentPlayer g) (gameMode g)
              true (gameLog g) ThinkingMessage.

Definition checkAndTriggerAIMove (g : Game) : Game :=
  if negb (isCurrentPlayerHuman g) then aiMoveStart g else g.

Definition switchPlayer (g : Game) : Game :=
  let opponent := opponentOf (currentPlayer g) in
  if (0 <? length (getValidMoves (board g) opponent))%nat then
    checkAndTriggerAIMove
      (mkGame (board g) (previousBoard g) opponent (gameMode g)
              (isAIThinking g) (gameLog g) (gameResult g))
  else if (0 <? length (getValidMoves (board g) (currentPlayer g)))%nat then
    checkAndTriggerAIMove
      (mkGame (board g) (previousBoard g) (currentPlayer g) (gameMode g)
              (isAIThinking g)
              (gameLog g ++ [PassLine (strictEq opponent BLACK)])
              (gameResult g))
  else endGame g.

Definition placePieceAndSwitchPlayer (g : Game) (r c : Z) : Game :=
  let saved := Some (jsonCopy (board g)) in
  match getResultingBoard (board g) (currentPlayer g) r c with
  | Some newBoard =>
      switchPlayer
        (logMove (mkGame newBoard saved (currentPlayer g) (gameMode g)
                         (isAIThinking g) (gameLog g) (gameResult g))
                 r c)
  | None =>
      mkGame (board g) saved (currentPlayer g) (gameMode g)
             (isAIThinking g) (gameLog g) (gameResult g)
  end.

Definition handleCellClick (g : Game) (r c : Z) : Game :=
  if negb (isCurrentPlayerHuman g) then g
  else if isValidMove (board g) (currentPlayer g) r c
       then placePieceAndSwitchPlayer g r c
       else g.

(** [initGame], for the mode read from the mode selector. *)
Definition initGame (mode : String.string) : Game :=
  checkAndTriggerAIMove
    (mkGame initialBoard None BLACK mode false [] NoMessage).

(** [aiMove] after its last [await], [move] being the answer of the
    selected AI ([None]: [null] or [undefined]). *)
Definition aiMoveFinish (g : Game) (answer : option Move) : Game :=
  let g' := mkGame (board g) (previousBoard g) (currentPlayer g)
                   (gameMode g) false (gameLog g) NoMessage in
  match answer with
  | Some m => placePieceAndSwitchPlayer g' (row m) (col m)
  | None => switchPlayer g'
  end.

(** A call of [aiMove] is waiting for its answer. *)
Definition aiPending (g : Game) : bool :=
  isAIThinking g &&
  match gameResult g with ThinkingMessage => true | _ => false end.

(** The events of a game in which the classic search plays the AI sides: a
    click on a cell, and the arrival of the answer of the classic AI to the
    pending call of [aiMove] (the call awaits
    [findBestMove(JSON.parse(JSON.stringify(board)), currentPlayer)]; were
    the promise rejected, [aiMove] would stop there). *)
Inductive Event : Type :=
  | Click (r c : Z)
  | ClassicReply.

Definition step (g : Game) (e : Event) : Game :=
  match e with
  | Click r c => handleCellClick g r c
  | ClassicReply =>
      if aiPending g then
        match findBestMove (jsonCopy (board g)) (currentPlayer g) with
        | Some answer => aiMoveFinish g answer
        | None => g
        end
      else g
  end.

Definition run (g : Game) (events : list Event) : Game :=
  fold_left step events g.

(** The number of move lines of the log. *)
Definition moveCount (log : list LogEntry) : Z :=
  sumZ (map (fun e => match e with MoveLine _ _ _ => 1 | PassLine _ => 0 end)
            log).

(** The game is over: [endGame] has written its message. *)
Definition isOver (g : Game) : bool :=
  match gameResult g with
  | BlackWins _ _ | WhiteWins _ _ | DrawMessage _ _ => true
  | _ => false
  end.

(** The message of [endGame] agrees with the board. *)
Definition resultMatches (g : Game) : Prop :=
  match gameResult g with
  | BlackWins bs ws =>
      bs = countColor (board g) BLACK /\ ws = countColor (board g) WHITE /\
      ws < bs
  | WhiteWins ws bs =>
      bs = countColor (board g) BLACK /\ ws = countColor (board g) WHITE /\
      bs < ws
  | DrawMessage bs ws =>
      bs = countColor (board g) BLACK /\ ws = countColor (board g) WHITE /\
      bs = ws
  | _ => True
  end.

(** What holds of every state of a game: the board is well formed, the
    pieces on it are the four of the opening plus one per logged move, and
    the state is of one of three kinds: the game is over, neither side can
    move and the message agrees with the board; or an AI call is pending
    for a side that has a legal move; or a human is to move and has a
    legal move. *)
Definition goodState (g : Game) : Prop :=
  wf_board (board g) /\
  isPlayer (currentPlayer g) = true /\
  totalPieces (board g) = 4 + moveCount (gameLog g) /\
  ((isOver g = true /\ isAIThinking g = true /\ resultMatches g /\
    getValidMoves (board g) BLACK = [] /\
    getValidMoves (board g) WHITE = []) \/
   (aiPending g = true /\
    getValidMoves (board g) (currentPlayer g) <> []) \/
   (gameResult g = NoMessage /\ isCurrentPlayerHuman g = true /\
    getValidMoves (board g) (currentPlayer g) <> [])).

(** Reading a move back from the notation of a log line. *)
Definition parseNotation (s : String.string) : option Move :=
  match s with
  | String.String a (String.String d String.EmptyString) =>
      Some (mkMove (Z.of_N (Ascii.N_of_ascii d) - 49)
                   (Z.of_N (Ascii.N_of_ascii a) - 97))
  | _ => None
  end.

(** ** The input of the neural network (nn-ai.js, lines 36-55)

    [boardToTensor] fills a [Float32Array] of 2 * 8 * 8 zeros with the
    value 1.0; the two floats are written 0 and 1 here.  The first plane
    marks the cells of [player], the second the cells of the opponent. *)

(** [const index = r * width + c] *)
Definition tensorIndex (r c : Z) : nat := Z.to_nat (r * BOARD_SIZE + c).

(** [height * width], the offset of the second plane. *)
Definition planeSize : nat := Z.to_nat (BOARD_SIZE * BOARD_SIZE).

(** The body of the two loops, at cell [(r, c)]. *)
Definition tensorStep (b : Board) (player opponent : value) (r : Z)
    (tensorData : list Z) (c : Z) : list Z :=
  let index := tensorIndex r c in
  if strictEq (cellAt b r c) player then <[index := 1]> tensorData
  else if strictEq (cellAt b r c) opponent then
    <[(planeSize + index)%nat := 1]> tensorData
  else tensorData.

Definition boardToTensor (b : Board) (player : value) : list Z :=
  let opponent := opponentOf player in
  fold_left (fun tensorData r =>
               fold_left (tensorStep b player opponent r) indices tensorData)
            indices (replicate (2 * planeSize) 0).

(** The loop body at cell [m] writes position [k] of the tensor. *)
Definition writesAt (b : Board) (player opponent : value) (k : nat)
    (m : Move) : bool :=
  if strictEq (cellAt b (row m) (col m)) player then
    (k =? tensorIndex (row m) (col m))%nat
  else if strictEq (cellAt b (row m) (col m)) opponent then
    (k =? planeSize + tensorIndex (row m) (col m))%nat
  else false.

(** * Properties *)

(** ** Values and cells *)

Lemma strictEq_eq (a b : value) : strictEq a b = true <-> a = b.
Proof.
  destruct a, b; simpl; split; intros H; try discriminate; try reflexivity.
  - apply Z.eqb_eq in H. now subst.
  - injection H as ->. apply Z.eqb_refl.
Qed.

Lemma strictEq_refl (a : value) : strictEq a a = true.
Proof. now apply strictEq_eq. Qed.

Lemma strictEq_neq (a b : value) : strictEq a b = false <-> a <> b.
Proof.
  rewrite <- strictEq_eq. destruct (strictEq a b); split; intros H;
    try discriminate; try reflexivity; auto.
  now contradict H.
Qed.

Lemma isPlayer_cases (p : value) : isPlayer p = true -> p = BLACK \/ p = WHITE.
Proof.
  unfold isPlayer. intros H. apply orb_true_iff in H.
  destruct H as [H | H]; apply strictEq_eq in H; auto.
Qed.

Lemma isPlayer_truthy (p : value) : isPlayer p = true -> truthy p = true.
Proof. intros H. destruct (isPlayer_cases p H); subst; reflexivity. Qed.

Lemma opponentOf_involutive (p : value) :
  isPlayer p = true -> opponentOf (opponentOf p) = p.
Proof. intros H. destruct (isPlayer_cases p H); subst; reflexivity. Qed.

Lemma opponentOf_isPlayer (p : value) : isPlayer (opponentOf p) = true.
Proof. unfold opponentOf. destruct (strictEq p BLACK); reflexivity. Qed.

Lemma opponentOf_neq (p : value) : isPlayer p = true -> opponentOf p <> p.
Proof. intros H. destruct (isPlayer_cases p H); subst; discriminate. Qed.

Lemma inBoard_spec (r c : Z) :
  inBoard r c = true <-> (0 <= r < 8 /\ 0 <= c < 8).
Proof. unfold inBoard, BOARD_SIZE. lia. Qed.

Lemma In_indices (i : Z) : In i indices <-> 0 <= i < 8.
Proof.
  unfold indices. simpl. split.
  - intros H. repeat (destruct H as [H | H]; [lia |]). contradiction.
  - intros H.
    assert (i = 0 \/ i = 1 \/ i = 2 \/ i = 3 \/ i = 4 \/ i = 5 \/ i = 6 \/ i = 7)
      by lia.
    intuition auto.
Qed.

Lemma In_DIRECTIONS (dr dc : Z) :
  In (dr, dc) DIRECTIONS <->
  (-1 <= dr <= 1 /\ -1 <= dc <= 1 /\ (dr <> 0 \/ dc <> 0)).
Proof.
  unfold DIRECTIONS. simpl. split.
  - intros H.
    repeat (destruct H as [H | H]; [injection H as <- <-; lia |]).
    contradiction.
  - intros (Hr & Hc & Hne).
    assert (Hdr : dr = -1 \/ dr = 0 \/ dr = 1) by lia.
    assert (Hdc : dc = -1 \/ dc = 0 \/ dc = 1) by lia.
    destruct Hdr as [-> | [-> | ->]], Hdc as [-> | [-> | ->]];
      try (exfalso; lia); intuition auto.
Qed.

(** ** The scan of one direction *)

Lemma scanLine_fuel (b : Board) (p o : value) (dr dc : Z) :
  In (dr, dc) DIRECTIONS ->
  forall (fuel : nat) (r c : Z) (line : list Move),
    (inBoard r c = true -> stepsLeft dr dc r c <= Z.of_nat fuel) ->
    scanLine fuel b p o dr dc r c line <> None.
Proof.
  intros Hd. apply In_DIRECTIONS in Hd.
  induction fuel as [| fuel IH]; intros r c line Hsteps; simpl.
  - destruct (inBoard r c) eqn:Hin; [| discriminate].
    specialize (Hsteps eq_refl). apply inBoard_spec in Hin.
    unfold stepsLeft in Hsteps.
    destruct (dr =? 1); [lia |]. destruct (dr =? -1); [lia |].
    destruct (dc =? 1); lia.
  - destruct (inBoard r c) eqn:Hin; [| discriminate].
    specialize (Hsteps eq_refl). apply inBoard_spec in Hin.
    destruct (strictEq (cellAt b r c) o).
    + apply IH. intros Hin'. apply inBoard_spec in Hin'.
      unfold stepsLeft in *.
      destruct (Z.eqb_spec dr 1); [lia |].
      destruct (Z.eqb_spec dr (-1)); [lia |].
      destruct (Z.eqb_spec dc 1); lia.
    + destruct (strictEq (cellAt b r c) p); discriminate.
Qed.

(** The iteration bound of [capturedLine] is never reached: on every ray
    the loop stops within [BOARD_SIZE] iterations. *)
Lemma scanLine_terminates (b : Board) (p o : value) (d : Z * Z)
    (r c : Z) (line : list Move) :
  In d DIRECTIONS ->
  scanLine (Z.to_nat BOARD_SIZE) b p o (fst d) (snd d) r c line <> None.
Proof.
  destruct d as [dr dc]. intros Hd. apply scanLine_fuel; [exact Hd |].
  intros Hin. apply inBoard_spec in Hin. apply In_DIRECTIONS in Hd.
  unfold stepsLeft, BOARD_SIZE. simpl fst. simpl snd.
  destruct (dr =? 1); [lia |]. destruct (dr =? -1); [lia |].
  destruct (dc =? 1); lia.
Qed.

Lemma In_ray (n : nat) (dr dc r c : Z) (m : Move) :
  In m (ray n dr dc r c) <->
  exists i, 0 <= i < Z.of_nat n /\ m = mkMove (r + i * dr) (c + i * dc).
Proof.
  revert r c. induction n as [| n IH]; intros r c; simpl.
  - split; [contradiction | intros (i & Hi & _); lia].
  - rewrite IH. split.
    + intros [<- | (i & Hi & ->)].
      * exists 0. split; [lia |]. f_equal; lia.
      * exists (i + 1). split; [lia |]. f_equal; lia.
    + intros (i & Hi & ->).
      destruct (Z.eq_dec i 0) as [-> | Hne].
      * left. f_equal; lia.
      * right. exists (i - 1). split; [lia |]. f_equal; lia.
Qed.

Lemma NoDup_ray (n : nat) (dr dc r c : Z) :
  dr <> 0 \/ dc <> 0 -> NoDup (ray n dr dc r c).
Proof.
  intros Hd. revert r c. induction n as [| n IH]; intros r c; simpl.
  - constructor.
  - apply NoDup_cons_2; [| apply IH].
    rewrite list_elem_of_In, In_ray. intros (i & Hi & Heq).
    injection Heq as Hr Hc.
    assert (Hr0 : (i + 1) * dr = 0) by lia.
    assert (Hc0 : (i + 1) * dc = 0) by lia.
    apply Z.mul_eq_0 in Hr0, Hc0. lia.
Qed.

(** What the scan of one direction returns: nothing, or the cells collected
    before plus a run of opponent cells closed by a cell of the player. *)
Lemma scanLine_ray (b : Board) (p o : value) (dr dc : Z) :
  forall (fuel : nat) (r c : Z) (line res : list Move),
    scanLine fuel b p o dr dc r c line = Some res ->
    res = [] \/
    exists n : nat,
      res = line ++ ray n dr dc r c /\
      (forall m, In m (ray n dr dc r c) ->
                 inBoard (row m) (col m) = true /\
                 cellAt b (row m) (col m) = o) /\
      inBoard (r + Z.of_nat n * dr) (c + Z.of_nat n * dc) = true /\
      cellAt b (r + Z.of_nat n * dr) (c + Z.of_nat n * dc) = p.
Proof.
  induction fuel as [| fuel IH]; intros r c line res; simpl.
  - destruct (inBoard r c); [discriminate |].
    intros [= <-]. now left.
  - destruct (inBoard r c) eqn:Hin; [| intros [= <-]; now left].
    destruct (strictEq (cellAt b r c) o) eqn:Ho.
    + intros Hscan. apply IH in Hscan.
      destruct Hscan as [-> | (n & -> & Hcells & Hend & Hp)]; [now left |].
      right. exists (S n). apply strictEq_eq in Ho.
      split; [| split; [| split]].
      * simpl. now rewrite <- app_assoc.
      * simpl. intros m [<- | Hm]; [simpl; auto | now apply Hcells].
      * replace (r + Z.of_nat (S n) * dr) with (r + dr + Z.of_nat n * dr) by lia.
        replace (c + Z.of_nat (S n) * dc) with (c + dc + Z.of_nat n * dc) by lia.
        exact Hend.
      * replace (r + Z.of_nat (S n) * dr) with (r + dr + Z.of_nat n * dr) by lia.
        replace (c + Z.of_nat (S n) * dc) with (c + dc + Z.of_nat n * dc) by lia.
        exact Hp.
    + destruct (strictEq (cellAt b r c) p) eqn:Hp; intros [= <-]; [| now left].
      right. exists O. simpl. rewrite app_nil_r, !Z.add_0_r.
      apply strictEq_eq in Hp. repeat split; auto; contradiction.
Qed.

Lemma capturedLine_ray (b : Board) (p o : value) (r c dr dc : Z) :
  exists n : nat,
    capturedLine b p o r c (dr, dc) = ray n dr dc (r + dr) (c + dc) /\
    forall m, In m (ray n dr dc (r + dr) (c + dc)) ->
              inBoard (row m) (col m) = true /\ cellAt b (row m) (col m) = o.
Proof.
  unfold capturedLine.
  destruct (scanLine _ b p o dr dc (r + dr) (c + dc) []) as [res |] eqn:Hscan.
  - apply scanLine_ray in Hscan.
    destruct Hscan as [-> | (n & -> & Hcells & _)].
    + exists O. split; [reflexivity | contradiction].
    + exists n. split; [reflexivity | exact Hcells].
  - exists O. split; [reflexivity | contradiction].
Qed.

(** The accumulation over [DIRECTIONS] is the concatenation of the eight
    captured lines. *)
Lemma fold_left_app_flat_map {A B : Type} (f : A -> list B) (l : list A)
    (init : list B) :
  fold_left (fun acc d => acc ++ f d) l init = init ++ flat_map f l.
Proof.
  revert init. induction l as [| d l IH]; intros init; simpl.
  - now rewrite app_nil_r.
  - now rewrite IH, app_assoc.
Qed.

Lemma getFlippablePieces_flat_map (b : Board) (p : value) (r c : Z) :
  getFlippablePieces b p r c =
  flat_map (capturedLine b p (opponentOf p) r c) DIRECTIONS.
Proof. unfold getFlippablePieces. now rewrite fold_left_app_flat_map. Qed.

(** Every flippable piece lies on one of the eight rays from the target, at
    distance at least one, inside the board, and belongs to the opponent. *)
Lemma getFlippablePieces_In (b : Board) (p : value) (r c : Z) (m : Move) :
  In m (getFlippablePieces b p r c) ->
  exists dr dc k,
    In (dr, dc) DIRECTIONS /\ 1 <= k /\
    m = mkMove (r + k * dr) (c + k * dc) /\
    inBoard (row m) (col m) = true /\
    cellAt b (row m) (col m) = opponentOf p.
Proof.
  rewrite getFlippablePieces_flat_map, in_flat_map.
  intros ([dr dc] & Hd & Hm).
  destruct (capturedLine_ray b p (opponentOf p) r c dr dc) as (n & Heq & Hcells).
  rewrite Heq in Hm. destruct (Hcells m Hm) as [Hin Ho].
  apply In_ray in Hm. destruct Hm as (i & Hi & ->).
  exists dr, dc, (i + 1). repeat split; auto; try lia.
  f_equal; lia.
Qed.

Lemma NoDup_flat_map {A B : Type} (f : A -> list B) (l : list A) :
  NoDup l ->
  (forall a, In a l -> NoDup (f a)) ->
  (forall a1 a2 x, In a1 l -> In a2 l -> In x (f a1) -> In x (f a2) -> a1 = a2) ->
  NoDup (flat_map f l).
Proof.
  induction l as [| a l IH]; intros Hl Hf Hdisj; simpl.
  - constructor.
  - apply NoDup_cons in Hl. destruct Hl as [Ha Hl].
    apply NoDup_app. split; [| split].
    + apply Hf. now left.
    + intros x Hx1 Hx2. apply list_elem_of_In in Hx1, Hx2.
      apply in_flat_map in Hx2. destruct Hx2 as (a2 & Ha2 & Hx2).
      assert (a = a2) by (apply (Hdisj a a2 x); simpl; auto).
      subst a2. apply Ha. now apply list_elem_of_In.
    + apply IH; auto.
      * intros a0 Ha0. apply Hf. now right.
      * intros a1 a2 x H1 H2. apply Hdisj; now right.
Qed.

Lemma NoDup_DIRECTIONS : NoDup DIRECTIONS.
Proof.
  unfold DIRECTIONS.
  repeat (apply NoDup_cons_2;
          [rewrite list_elem_of_In; simpl; intros H;
           repeat (destruct H as [H | H]; [discriminate |]); contradiction |]).
  constructor.
Qed.

(** No piece is listed twice. *)
Lemma getFlippablePieces_NoDup (b : Board) (p : value) (r c : Z) :
  NoDup (getFlippablePieces b p r c).
Proof.
  rewrite getFlippablePieces_flat_map.
  apply NoDup_flat_map.
  - apply NoDup_DIRECTIONS.
  - intros [dr dc] Hd.
    destruct (capturedLine_ray b p (opponentOf p) r c dr dc) as (n & -> & _).
    apply NoDup_ray. apply In_DIRECTIONS in Hd. lia.
  - intros [dr1 dc1] [dr2 dc2] m Hd1 Hd2 H1 H2.
    destruct (capturedLine_ray b p (opponentOf p) r c dr1 dc1) as (n1 & E1 & _).
    destruct (capturedLine_ray b p (opponentOf p) r c dr2 dc2) as (n2 & E2 & _).
    rewrite E1 in H1. rewrite E2 in H2.
    apply In_ray in H1, H2.
    destruct H1 as (i & Hi & ->). destruct H2 as (j & Hj & Heq).
    injection Heq as Hr Hc.
    apply In_DIRECTIONS in Hd1, Hd2.
    assert (Hdr1 : dr1 = -1 \/ dr1 = 0 \/ dr1 = 1) by lia.
    assert (Hdc1 : dc1 = -1 \/ dc1 = 0 \/ dc1 = 1) by lia.
    assert (Hdr2 : dr2 = -1 \/ dr2 = 0 \/ dr2 = 1) by lia.
    assert (Hdc2 : dc2 = -1 \/ dc2 = 0 \/ dc2 = 1) by lia.
    destruct Hdr1 as [-> | [-> | ->]], Hdr2 as [-> | [-> | ->]];
      try (exfalso; lia);
      destruct Hdc1 as [-> | [-> | ->]], Hdc2 as [-> | [-> | ->]];
      try (exfalso; lia); reflexivity.
Qed.

(** The target cell itself is never among the flippable pieces. *)
Lemma getFlippablePieces_not_target (b : Board) (p : value) (r c : Z) :
  ~ In (mkMove r c) (getFlippablePieces b p r c).
Proof.
  intros Hm. apply getFlippablePieces_In in Hm.
  destruct Hm as (dr & dc & k & Hd & Hk & Heq & _).
  injection Heq as Hr Hc. apply In_DIRECTIONS in Hd.
  assert (Hr0 : k * dr = 0) by lia. assert (Hc0 : k * dc = 0) by lia.
  apply Z.mul_eq_0 in Hr0, Hc0. lia.
Qed.

(** ** Reading and writing cells *)

Lemma wf_board_spec (b : Board) :
  wf_board b <->
  length b = 8%nat /\
  Forall (fun cells : list value =>
            length cells = 8%nat /\ Forall (fun v => isCell v = true) cells) b.
Proof.
  unfold wf_board, wf_boardb.
  rewrite andb_true_iff, Nat.eqb_eq, forallb_forall, Forall_forall.
  split; intros [Hlen Hrows]; (split; [exact Hlen |]); intros cells Hcells.
  - apply list_elem_of_In in Hcells. specialize (Hrows cells Hcells).
    apply andb_true_iff in Hrows. destruct Hrows as [Hl Hc].
    apply Nat.eqb_eq in Hl. split; [exact Hl |].
    apply Forall_forall. intros v Hv. apply list_elem_of_In in Hv.
    rewrite forallb_forall in Hc. now apply Hc.
  - apply list_elem_of_In in Hcells. destruct (Hrows cells Hcells) as [Hl Hc].
    apply andb_true_iff. split; [now apply Nat.eqb_eq |].
    apply forallb_forall. intros v Hv. rewrite Forall_forall in Hc.
    apply Hc. now apply list_elem_of_In.
Qed.

(** On a well-formed board every position of the board holds a cell. *)
Lemma wf_board_lookup (b : Board) (r c : Z) :
  wf_board b -> inBoard r c = true ->
  exists cells v,
    b !! Z.to_nat r = Some cells /\ length cells = 8%nat /\
    cells !! Z.to_nat c = Some v /\ isCell v = true /\ cellAt b r c = v.
Proof.
  intros Hwf Hin. apply wf_board_spec in Hwf. destruct Hwf as [Hlen Hrows].
  apply inBoard_spec in Hin.
  destruct (lookup_lt_is_Some_2 b (Z.to_nat r)) as [cells Hcells]; [lia |].
  rewrite Forall_forall in Hrows.
  destruct (Hrows cells) as [Hl Hc].
  { apply list_elem_of_lookup. eauto. }
  destruct (lookup_lt_is_Some_2 cells (Z.to_nat c)) as [v Hv]; [lia |].
  exists cells, v. repeat split; auto.
  - rewrite Forall_forall in Hc. apply Hc. apply list_elem_of_lookup. eauto.
  - unfold cellAt. rewrite Hcells, Hv.
    replace ((r <? 0) || (c <? 0)) with false; [reflexivity |].
    symmetry. apply orb_false_iff. split; apply Z.ltb_ge; lia.
Qed.

Lemma cellAt_isCell (b : Board) (r c : Z) :
  wf_board b -> inBoard r c = true -> isCell (cellAt b r c) = true.
Proof.
  intros Hwf Hin.
  destruct (wf_board_lookup b r c Hwf Hin) as (cells & v & _ & _ & _ & Hv & ->).
  exact Hv.
Qed.

(** A write leaves every other position as it was. *)
Lemma cellAt_setCell_other (b : Board) (r c r' c' : Z) (v : value) :
  r' <> r \/ c' <> c ->
  cellAt (setCell b r c v) r' c' = cellAt b r' c'.
Proof.
  intros Hne. unfold cellAt, setCell.
  destruct ((r' <? 0) || (c' <? 0)) eqn:Hneg'; [reflexivity |].
  destruct ((r <? 0) || (c <? 0)) eqn:Hneg; [reflexivity |].
  apply orb_false_iff in Hneg, Hneg'.
  destruct Hneg as [Hr Hc], Hneg' as [Hr' Hc'].
  apply Z.ltb_ge in Hr, Hc, Hr', Hc'.
  destruct (Z.eq_dec r' r) as [-> | Hrr].
  - rewrite list_lookup_alter_eq.
    destruct (b !! Z.to_nat r) as [cells |]; simpl; [| reflexivity].
    rewrite list_lookup_insert_ne; [reflexivity | lia].
  - rewrite list_lookup_alter_ne; [reflexivity | lia].
Qed.

(** A write inside a well-formed board is read back. *)
Lemma cellAt_setCell_same (b : Board) (r c : Z) (v : value) :
  wf_board b -> inBoard r c = true -> cellAt (setCell b r c v) r c = v.
Proof.
  intros Hwf Hin.
  destruct (wf_board_lookup b r c Hwf Hin) as (cells & w & Hcells & Hl & _).
  apply inBoard_spec in Hin. unfold cellAt, setCell.
  replace ((r <? 0) || (c <? 0)) with false
    by (symmetry; apply orb_false_iff; split; apply Z.ltb_ge; lia).
  rewrite list_lookup_alter_eq, Hcells. simpl.
  rewrite list_lookup_insert_eq; [reflexivity | lia].
Qed.

Lemma wf_board_setCell (b : Board) (r c : Z) (v : value) :
  wf_board b -> isCell v = true -> wf_board (setCell b r c v).
Proof.
  intros Hwf Hv. unfold setCell.
  destruct ((r <? 0) || (c <? 0)); [exact Hwf |].
  apply wf_board_spec in Hwf. destruct Hwf as [Hlen Hrows].
  apply wf_board_spec. split.
  - now rewrite length_alter.
  - apply Forall_alter; [exact Hrows |].
    intros cells _ [Hl Hc]. split.
    + now rewrite length_insert.
    + now apply Forall_insert.
Qed.

Lemma isCell_jsonCell (v : value) : isCell v = true -> jsonCell v = v.
Proof. destruct v; simpl; try reflexivity. discriminate. Qed.

(** The JSON round trip of a well-formed board is the board itself. *)
Lemma jsonCopy_wf (b : Board) : wf_board b -> jsonCopy b = b.
Proof.
  intros Hwf. apply wf_board_spec in Hwf. destruct Hwf as [_ Hrows].
  unfold jsonCopy. induction Hrows as [| cells rows [_ Hc] _ IH]; simpl.
  - reflexivity.
  - f_equal; [| exact IH].
    induction Hc as [| v vs Hv _ IHc]; simpl; [reflexivity |].
    f_equal; [now apply isCell_jsonCell | exact IHc].
Qed.

Lemma isPlayer_isCell (p : value) : isPlayer p = true -> isCell p = true.
Proof. intros H. destruct (isPlayer_cases p H); subst; reflexivity. Qed.

(** ** The scan never reads the target cell *)

Lemma scanLine_ignores_target (b : Board) (p o v : value) (r c dr dc : Z) :
  In (dr, dc) DIRECTIONS ->
  forall (fuel : nat) (k : Z) (line : list Move),
    1 <= k ->
    scanLine fuel (setCell b r c v) p o dr dc (r + k * dr) (c + k * dc) line =
    scanLine fuel b p o dr dc (r + k * dr) (c + k * dc) line.
Proof.
  intros Hd. apply In_DIRECTIONS in Hd.
  induction fuel as [| fuel IH]; intros k line Hk; simpl; [reflexivity |].
  destruct (inBoard (r + k * dr) (c + k * dc)); [| reflexivity].
  rewrite cellAt_setCell_other.
  - destruct (strictEq (cellAt b (r + k * dr) (c + k * dc)) o); [| reflexivity].
    replace (r + k * dr + dr) with (r + (k + 1) * dr) by lia.
    replace (c + k * dc + dc) with (c + (k + 1) * dc) by lia.
    apply IH. lia.
  - destruct (Z.eq_dec (k * dr) 0) as [H0 | H0]; [| lia].
    destruct (Z.eq_dec (k * dc) 0) as [H1 | H1]; [| lia].
    apply Z.mul_eq_0 in H0, H1. lia.
Qed.

Lemma flat_map_ext_In {A B : Type} (f g : A -> list B) (l : list A) :
  (forall a, In a l -> f a = g a) -> flat_map f l = flat_map g l.
Proof.
  induction l as [| a l IH]; intros H; simpl; [reflexivity |].
  rewrite (H a) by now left. f_equal. apply IH. intros a' Ha'. apply H. now right.
Qed.

(** C6 (as amended): [getFlippablePieces] has no check of the target cell
    and its scan never reads it, so the result is the same whatever the
    target cell holds; on an occupied target it returns what it returns for
    the same position with the target emptied. *)
Theorem getFlippablePieces_ignores_target (b : Board) (p v : value) (r c : Z) :
  wf_board b -> inBoard r c = true ->
  getFlippablePieces (setCell b r c v) p r c = getFlippablePieces b p r c.
Proof.
  intros _ _. rewrite !getFlippablePieces_flat_map.
  apply flat_map_ext_In. intros [dr dc] Hd. unfold capturedLine.
  replace (r + dr) with (r + 1 * dr) by lia.
  replace (c + dc) with (c + 1 * dc) by lia.
  rewrite scanLine_ignores_target; [reflexivity | exact Hd | lia].
Qed.

Lemma getFlippablePieces_ignores_target_witness :
  getFlippablePieces (setCell sandwichBoard 0 0 EMPTY) BLACK 0 0 =
  getFlippablePieces sandwichBoard BLACK 0 0.
Proof. apply getFlippablePieces_ignores_target; reflexivity. Defined.

(** C6 as stated fails: on [sandwichBoard] the cell (0,0) is Black, and the
    scan for Black from (0,0) still captures the White piece at (0,1). *)
Lemma getFlippablePieces_occupied_counterexample :
  ~ (forall (b : Board) (p : value) (r c : Z),
        wf_board b -> isPlayer p = true -> inBoard r c = true ->
        cellAt b r c <> EMPTY ->
        getFlippablePieces b p r c = []).
Proof.
  intros H.
  specialize (H sandwichBoard BLACK 0 0 eq_refl eq_refl eq_refl).
  assert (Hocc : cellAt sandwichBoard 0 0 <> EMPTY) by (vm_compute; discriminate).
  specialize (H Hocc). vm_compute in H. discriminate H.
Qed.

(** ** Legal moves *)

(** C10: with an absent player ([null], [undefined], or any other falsy
    value) [getValidMoves] returns the empty list, whatever the board. *)
Theorem getValidMoves_falsy_player (b : Board) (p : value) :
  truthy p = false -> getValidMoves b p = [].
Proof. intros Hp. unfold getValidMoves. now rewrite Hp. Qed.

Lemma getValidMoves_falsy_player_witness :
  getValidMoves initialBoard VUndefined = [].
Proof. apply getValidMoves_falsy_player. reflexivity. Defined.

Lemma getValidMoves_In (b : Board) (p : value) (m : Move) :
  truthy p = true ->
  In m (getValidMoves b p) <-> legalMove b p m.
Proof.
  intros Hp. unfold getValidMoves, legalMove. rewrite Hp. simpl negb. cbv iota.
  rewrite in_flat_map. split.
  - intros (r & Hr & Hm). apply in_flat_map in Hm.
    destruct Hm as (c & Hc & Hm).
    destruct (strictEq (cellAt b r c) EMPTY) eqn:He; [| contradiction].
    destruct (0 <? length (getFlippablePieces b p r c))%nat eqn:Hf;
      [| contradiction].
    destruct Hm as [<- | []]. simpl.
    apply In_indices in Hr, Hc. apply strictEq_eq in He.
    apply Nat.ltb_lt in Hf.
    repeat split; [apply inBoard_spec; lia | exact He |].
    intros Hnil. rewrite Hnil in Hf. simpl in Hf. lia.
  - destruct m as [r c]. cbn [row col]. intros (Hin & He & Hf).
    apply inBoard_spec in Hin.
    exists r. split; [apply In_indices; lia |].
    apply in_flat_map. exists c. split; [apply In_indices; lia |].
    rewrite He, strictEq_refl.
    destruct (getFlippablePieces b p r c); [congruence |].
    simpl. now left.
Qed.

Lemma StronglySorted_app_lt {A : Type} (key : A -> Z) (l1 l2 : list A) :
  StronglySorted (fun x y => key x < key y) l1 ->
  StronglySorted (fun x y => key x < key y) l2 ->
  (forall x y, In x l1 -> In y l2 -> key x < key y) ->
  StronglySorted (fun x y => key x < key y) (l1 ++ l2).
Proof.
  induction 1 as [| a l1 Hs IH Ha]; intros H2 Hcross; simpl; [exact H2 |].
  constructor.
  - apply IH; [exact H2 |]. intros x y Hx Hy. apply Hcross; [now right | exact Hy].
  - apply Forall_app. split; [exact Ha |].
    apply Forall_forall. intros y Hy. apply list_elem_of_In in Hy.
    apply Hcross; [now left | exact Hy].
Qed.

Lemma StronglySorted_flat_map {A : Type} (key : A -> Z) (f : Z -> list A)
    (l : list Z) :
  StronglySorted Z.lt l ->
  (forall i, In i l -> StronglySorted (fun x y => key x < key y) (f i)) ->
  (forall i j x y, In i l -> In j l -> i < j -> In x (f i) -> In y (f j) ->
                   key x < key y) ->
  StronglySorted (fun x y => key x < key y) (flat_map f l).
Proof.
  induction 1 as [| i l Hs IH Hi]; intros Hf Hcross; simpl; [constructor |].
  apply StronglySorted_app_lt.
  - apply Hf. now left.
  - apply IH.
    + intros j Hj. apply Hf. now right.
    + intros j k x y Hj Hk. apply Hcross; now right.
  - intros x y Hx Hy. apply in_flat_map in Hy. destruct Hy as (j & Hj & Hy).
    apply (Hcross i j); auto; [now left | now right |].
    rewrite Forall_forall in Hi. apply Hi. now apply list_elem_of_In.
Qed.

Lemma StronglySorted_indices : StronglySorted Z.lt indices.
Proof.
  unfold indices. repeat (constructor; [| repeat constructor; lia]). constructor.
Qed.

Lemma StronglySorted_lt_NoDup {A : Type} (key : A -> Z) (l : list A) :
  StronglySorted (fun x y => key x < key y) l -> NoDup l.
Proof.
  induction 1 as [| a l Hs IH Ha]; [constructor |].
  apply NoDup_cons_2; [| exact IH].
  intros Hin. rewrite Forall_forall in Ha. specialize (Ha a Hin). lia.
Qed.

Lemma getValidMoves_sorted (b : Board) (p : value) :
  StronglySorted (fun m1 m2 => moveIndex m1 < moveIndex m2) (getValidMoves b p).
Proof.
  unfold getValidMoves. destruct (negb (truthy p)); [constructor |].
  assert (Hcell : forall r c x,
             In x (if strictEq (cellAt b r c) EMPTY
                   then if (0 <? length (getFlippablePieces b p r c))%nat
                        then [mkMove r c] else []
                   else []) -> x = mkMove r c).
  { intros r c x Hx.
    destruct (strictEq (cellAt b r c) EMPTY); [| contradiction].
    destruct (0 <? length (getFlippablePieces b p r c))%nat; [| contradiction].
    now destruct Hx as [<- | []]. }
  apply StronglySorted_flat_map.
  - apply StronglySorted_indices.
  - intros r _. apply StronglySorted_flat_map.
    + apply StronglySorted_indices.
    + intros c _.
      destruct (strictEq (cellAt b r c) EMPTY); [| constructor].
      destruct (0 <? length (getFlippablePieces b p r c))%nat;
        repeat constructor.
    + intros c1 c2 x y _ _ Hlt Hx Hy.
      apply Hcell in Hx, Hy. subst. unfold moveIndex. simpl. lia.
  - intros r1 r2 x y _ _ Hlt Hx Hy.
    apply in_flat_map in Hx, Hy.
    destruct Hx as (c1 & Hc1 & Hx). destruct Hy as (c2 & Hc2 & Hy).
    apply Hcell in Hx, Hy. subst. apply In_indices in Hc1, Hc2.
    unfold moveIndex, BOARD_SIZE. simpl. lia.
Qed.

(** C4: the list returned by [getValidMoves] holds exactly the legal moves
    (cells in range that are Empty and capture at least one piece), each of
    them once, in strictly increasing row-major order. *)
Theorem getValidMoves_exact_row_major (b : Board) (p : value) :
  wf_board b -> isPlayer p = true ->
  (forall m, In m (getValidMoves b p) <-> legalMove b p m) /\
  NoDup (getValidMoves b p) /\
  StronglySorted (fun m1 m2 => moveIndex m1 < moveIndex m2) (getValidMoves b p).
Proof.
  intros _ Hp. split; [| split].
  - intros m. apply getValidMoves_In. now apply isPlayer_truthy.
  - apply (StronglySorted_lt_NoDup moveIndex). apply getValidMoves_sorted.
  - apply getValidMoves_sorted.
Qed.

Lemma getValidMoves_exact_row_major_witness :
  (forall m, In m (getValidMoves initialBoard BLACK) <->
             legalMove initialBoard BLACK m) /\
  NoDup (getValidMoves initialBoard BLACK) /\
  StronglySorted (fun m1 m2 => moveIndex m1 < moveIndex m2)
                 (getValidMoves initialBoard BLACK).
Proof. apply getValidMoves_exact_row_major; reflexivity. Defined.

(** ** Counting pieces *)

Lemma fold_left_add (step : Z -> Z -> Z) (delta : Z -> Z) (l : list Z) :
  (forall acc i, step acc i = acc + delta i) ->
  forall acc, fold_left step l acc = acc + sumZ (map delta l).
Proof.
  intros Hstep. induction l as [| i l IH]; intros acc; simpl.
  - lia.
  - rewrite IH, Hstep. unfold sumZ. lia.
Qed.

Lemma countColor_boardSum (b : Board) (u : value) :
  countColor b u =
  boardSum (fun r c => if strictEq (cellAt b r c) u then 1 else 0).
Proof.
  unfold countColor, boardSum.
  rewrite (fold_left_add _
             (fun r => sumZ (map (fun c => if strictEq (cellAt b r c) u
                                           then 1 else 0) indices))).
  - lia.
  - intros acc r. apply fold_left_add. intros acc' c.
    destruct (strictEq (cellAt b r c) u); lia.
Qed.

Lemma sumZ_ext (f g : Z -> Z) (l : list Z) :
  (forall i, In i l -> g i = f i) -> sumZ (map g l) = sumZ (map f l).
Proof.
  induction l as [| i l IH]; intros H; simpl; [reflexivity |].
  rewrite (H i) by now left. f_equal. apply IH. intros j Hj. apply H. now right.
Qed.

Lemma sumZ_update (f g : Z -> Z) (l : list Z) (i0 : Z) :
  NoDup l -> In i0 l ->
  (forall i, In i l -> i <> i0 -> g i = f i) ->
  sumZ (map g l) = sumZ (map f l) + g i0 - f i0.
Proof.
  induction l as [| i l IH]; intros Hnd Hin Hagree; [contradiction |].
  apply NoDup_cons in Hnd. destruct Hnd as [Hi Hnd]. simpl.
  destruct Hin as [-> | Hin].
  - rewrite (sumZ_ext f g l); [lia |].
    intros j Hj. apply Hagree; [now right |].
    intros ->. apply Hi. now apply list_elem_of_In.
  - rewrite IH; auto.
    + rewrite (Hagree i); [lia | now left |].
      intros ->. apply Hi. now apply list_elem_of_In.
    + intros j Hj. apply Hagree. now right.
Qed.

Lemma NoDup_indices : NoDup indices.
Proof. apply (StronglySorted_lt_NoDup id). apply StronglySorted_indices. Qed.

Lemma boardSum_update (f g : Z -> Z -> Z) (r0 c0 : Z) :
  inBoard r0 c0 = true ->
  (forall r c, inBoard r c = true -> r <> r0 \/ c <> c0 -> g r c = f r c) ->
  boardSum g = boardSum f + g r0 c0 - f r0 c0.
Proof.
  intros Hin Hagree. apply inBoard_spec in Hin. unfold boardSum.
  rewrite (sumZ_update (fun r => sumZ (map (f r) indices)) _ indices r0).
  - rewrite (sumZ_update (f r0) (g r0) indices c0); [lia | | |].
    + apply NoDup_indices.
    + apply In_indices. lia.
    + intros c Hc Hne. apply In_indices in Hc.
      apply Hagree; [apply inBoard_spec; lia | now right].
  - apply NoDup_indices.
  - apply In_indices. lia.
  - intros r Hr Hne. apply sumZ_ext. intros c Hc.
    apply In_indices in Hr, Hc.
    apply Hagree; [apply inBoard_spec; lia | now left].
Qed.

(** Writing [v] over a cell moves one unit of count from the old colour to
    the new one. *)
Lemma countColor_setCell (b : Board) (r c : Z) (v u : value) :
  wf_board b -> inBoard r c = true ->
  countColor (setCell b r c v) u =
  countColor b u + (if strictEq v u then 1 else 0)
                 - (if strictEq (cellAt b r c) u then 1 else 0).
Proof.
  intros Hwf Hin. rewrite !countColor_boardSum.
  rewrite (boardSum_update
             (fun r c => if strictEq (cellAt b r c) u then 1 else 0) _ r c Hin).
  - now rewrite cellAt_setCell_same.
  - intros r' c' _ Hne. now rewrite cellAt_setCell_other.
Qed.

(** ** Applying a move *)

Lemma flipAll_snoc (nb : Board) (p : value) (l : list Move) (m : Move) :
  flipAll nb p (l ++ [m]) = setCell (flipAll nb p l) (row m) (col m) p.
Proof. unfold flipAll. now rewrite fold_left_app. Qed.

Lemma wf_board_flipAll (nb : Board) (p : value) (l : list Move) :
  wf_board nb -> isCell p = true -> wf_board (flipAll nb p l).
Proof.
  intros Hwf Hp. induction l as [| m l IH] using rev_ind; [exact Hwf |].
  rewrite flipAll_snoc. now apply wf_board_setCell.
Qed.

Lemma cellAt_flipAll_other (nb : Board) (p : value) (l : list Move) (r c : Z) :
  ~ In (mkMove r c) l -> cellAt (flipAll nb p l) r c = cellAt nb r c.
Proof.
  induction l as [| m l IH] using rev_ind; intros Hnot; [reflexivity |].
  rewrite flipAll_snoc, cellAt_setCell_other.
  - apply IH. intros Hin. apply Hnot. apply in_or_app. now left.
  - destruct (Z.eq_dec r (row m)) as [Hr | Hr]; [| now left].
    destruct (Z.eq_dec c (col m)) as [Hc | Hc]; [| now right].
    exfalso. apply Hnot. apply in_or_app. right. left.
    destruct m; simpl in *; now subst.
Qed.

Lemma cellAt_flipAll_In (nb : Board) (p : value) (l : list Move) (m : Move) :
  wf_board nb -> isCell p = true ->
  (forall x, In x l -> inBoard (row x) (col x) = true) ->
  In m l -> cellAt (flipAll nb p l) (row m) (col m) = p.
Proof.
  intros Hwf Hp. induction l as [| a l IH] using rev_ind;
    intros Hrange Hin; [contradiction |].
  rewrite flipAll_snoc.
  destruct (Z.eq_dec (row m) (row a)) as [Hr | Hr];
    [destruct (Z.eq_dec (col m) (col a)) as [Hc | Hc] |].
  - rewrite Hr, Hc. apply cellAt_setCell_same.
    + now apply wf_board_flipAll.
    + apply Hrange. apply in_or_app. right. now left.
  - rewrite cellAt_setCell_other by now right.
    apply in_app_or in Hin. destruct Hin as [Hin | [-> | []]]; [| congruence].
    apply IH; [| exact Hin]. intros x Hx. apply Hrange. apply in_or_app. now left.
  - rewrite cellAt_setCell_other by now left.
    apply in_app_or in Hin. destruct Hin as [Hin | [-> | []]]; [| congruence].
    apply IH; [| exact Hin]. intros x Hx. apply Hrange. apply in_or_app. now left.
Qed.

(** Flipping distinct opponent pieces moves their number from the
    opponent's count to the player's. *)
Lemma countColor_flipAll (p o : value) (l : list Move) :
  isCell p = true -> o <> p -> NoDup l ->
  forall nb : Board,
    wf_board nb ->
    (forall m, In m l -> inBoard (row m) (col m) = true /\
                         cellAt nb (row m) (col m) = o) ->
    countColor (flipAll nb p l) p = countColor nb p + Z.of_nat (length l) /\
    countColor (flipAll nb p l) o = countColor nb o - Z.of_nat (length l).
Proof.
  intros Hp Hop. induction l as [| a l IH]; intros Hnd nb Hwf Hcells.
  - simpl. lia.
  - apply NoDup_cons in Hnd. destruct Hnd as [Ha Hnd].
    destruct (Hcells a) as [Hina Hoa]; [now left |].
    change (flipAll nb p (a :: l))
      with (flipAll (setCell nb (row a) (col a) p) p l).
    destruct (IH Hnd (setCell nb (row a) (col a) p)) as [IHp IHo].
    + now apply wf_board_setCell.
    + intros m Hm. destruct (Hcells m) as [Hinm Hom]; [now right |].
      split; [exact Hinm |].
      rewrite cellAt_setCell_other; [exact Hom |].
      destruct (Z.eq_dec (row m) (row a)) as [Hr | Hr]; [| now left].
      destruct (Z.eq_dec (col m) (col a)) as [Hc | Hc]; [| now right].
      exfalso. apply Ha. apply list_elem_of_In.
      destruct m, a; simpl in *; now subst.
    + rewrite IHp, IHo, !countColor_setCell by assumption.
      rewrite Hoa, !strictEq_refl.
      assert (Hpo : strictEq p o = false) by (apply strictEq_neq; congruence).
      assert (Hop' : strictEq o p = false) by now apply strictEq_neq.
      rewrite Hpo, Hop'. simpl length. lia.
Qed.

(** [getResultingBoard] answers [null] exactly when the target is Empty and
    nothing would be flipped. *)
Lemma getResultingBoard_None (b : Board) (p : value) (r c : Z) :
  getResultingBoard b p r c = None <->
  getFlippablePieces b p r c = [] /\ cellAt b r c = EMPTY.
Proof.
  unfold getResultingBoard.
  destruct (getFlippablePieces b p r c) as [| m l]; simpl.
  - destruct (strictEq (cellAt b r c) EMPTY) eqn:He.
    + apply strictEq_eq in He. tauto.
    + apply strictEq_neq in He. split; [discriminate | tauto].
  - split; [discriminate | intros [? _]; discriminate].
Qed.

(** The board a legal move produces. *)
Lemma getResultingBoard_legal (b : Board) (p : value) (r c : Z) :
  wf_board b -> getFlippablePieces b p r c <> [] ->
  getResultingBoard b p r c =
  Some (flipAll (setCell b r c p) p (getFlippablePieces b p r c)).
Proof.
  intros Hwf Hf. unfold getResultingBoard.
  destruct (getFlippablePieces b p r c) as [| m l]; [congruence |].
  simpl length. simpl andb. cbv iota. now rewrite jsonCopy_wf.
Qed.

Lemma flippable_cell_after_target (b : Board) (p : value) (r c : Z) (m : Move) :
  In m (getFlippablePieces b p r c) ->
  inBoard (row m) (col m) = true /\
  cellAt (setCell b r c p) (row m) (col m) = opponentOf p.
Proof.
  intros Hm. pose proof (getFlippablePieces_not_target b p r c) as Hnot.
  destruct (getFlippablePieces_In b p r c m Hm)
    as (dr & dc & k & _ & _ & _ & Hin & Ho).
  split; [exact Hin |].
  rewrite cellAt_setCell_other; [exact Ho |].
  destruct (Z.eq_dec (row m) r) as [Hr | Hr]; [| now left].
  destruct (Z.eq_dec (col m) c) as [Hc | Hc]; [| now right].
  exfalso. apply Hnot. destruct m; simpl in *; now subst.
Qed.

(** The first half of C3, which the code does satisfy: a legal move yields
    a new well-formed board with the target and every flippable cell set to
    the player. *)
Lemma getResultingBoard_places_and_flips (b : Board) (p : value) (r c : Z) :
  wf_board b -> isPlayer p = true -> inBoard r c = true ->
  cellAt b r c = EMPTY -> getFlippablePieces b p r c <> [] ->
  exists nb,
    getResultingBoard b p r c = Some nb /\ wf_board nb /\
    cellAt nb r c = p /\
    forall m, In m (getFlippablePieces b p r c) ->
              cellAt nb (row m) (col m) = p.
Proof.
  intros Hwf Hp Hin He Hf. eexists. split; [now apply getResultingBoard_legal |].
  pose proof (isPlayer_isCell p Hp) as Hcell.
  assert (Hwf' : wf_board (setCell b r c p)) by now apply wf_board_setCell.
  split; [now apply wf_board_flipAll |]. split.
  - rewrite cellAt_flipAll_other by apply getFlippablePieces_not_target.
    now apply cellAt_setCell_same.
  - intros m Hm. apply cellAt_flipAll_In; auto.
    intros x Hx. now apply (flippable_cell_after_target b p r c x).
Qed.

(** C3, the failing input: on the opening position the cell (3,3) holds a
    White piece and Black captures nothing from it, yet
    [getResultingBoard] does not answer [null]: the guard of line 378
    returns [null] only for an Empty target, so the occupied cell is
    overwritten with a Black piece. *)
Theorem getResultingBoard_occupied_target :
  wf_board initialBoard /\ inBoard 3 3 = true /\
  cellAt initialBoard 3 3 = WHITE /\
  getFlippablePieces initialBoard BLACK 3 3 = [] /\
  isValidMove initialBoard BLACK 3 3 = false /\
  getResultingBoard initialBoard BLACK 3 3 =
  Some (setCell initialBoard 3 3 BLACK).
Proof. repeat apply conj; vm_compute; reflexivity. Qed.

(** C5 (as amended): a legal move adds exactly one piece to the board; the
    mover's own count grows by one plus the number of flipped pieces, the
    opponent's count shrinks by the number of flipped pieces, and every cell
    other than the target and the flipped cells keeps its value. *)
Theorem getResultingBoard_counts_and_frame (b : Board) (p : value) (r c : Z) :
  wf_board b -> isPlayer p = true -> inBoard r c = true ->
  cellAt b r c = EMPTY -> getFlippablePieces b p r c <> [] ->
  exists nb,
    getResultingBoard b p r c = Some nb /\
    totalPieces nb = totalPieces b + 1 /\
    countColor nb p =
      countColor b p + 1 + Z.of_nat (length (getFlippablePieces b p r c)) /\
    countColor nb (opponentOf p) =
      countColor b (opponentOf p)
      - Z.of_nat (length (getFlippablePieces b p r c)) /\
    forall r' c',
      inBoard r' c' = true -> r' <> r \/ c' <> c ->
      ~ In (mkMove r' c') (getFlippablePieces b p r c) ->
      cellAt nb r' c' = cellAt b r' c'.
Proof.
  intros Hwf Hp Hin He Hf. eexists. split; [now apply getResultingBoard_legal |].
  pose proof (isPlayer_isCell p Hp) as Hcell.
  pose proof (opponentOf_neq p Hp) as Hop.
  assert (Hwf' : wf_board (setCell b r c p)) by now apply wf_board_setCell.
  destruct (countColor_flipAll p (opponentOf p) (getFlippablePieces b p r c)
              Hcell Hop (getFlippablePieces_NoDup b p r c)
              (setCell b r c p) Hwf') as [Hcp Hco].
  { intros m Hm. now apply flippable_cell_after_target. }
  rewrite !countColor_setCell in Hcp, Hco by assumption.
  rewrite He, strictEq_refl in Hcp. rewrite He in Hco.
  assert (Hpo : strictEq p (opponentOf p) = false)
    by (apply strictEq_neq; congruence).
  assert (Hep : strictEq EMPTY p = false)
    by (destruct (isPlayer_cases p Hp); subst; reflexivity).
  assert (Heo : strictEq EMPTY (opponentOf p) = false)
    by (destruct (isPlayer_cases p Hp); subst; reflexivity).
  rewrite Hep in Hcp. rewrite Hpo, Heo in Hco.
  split; [| split; [| split]].
  - unfold totalPieces.
    destruct (isPlayer_cases p Hp); subst p;
      [change (opponentOf BLACK) with WHITE in * |
       change (opponentOf WHITE) with BLACK in *]; lia.
  - lia.
  - lia.
  - intros r' c' _ Hne Hnot.
    rewrite cellAt_flipAll_other by exact Hnot.
    now apply cellAt_setCell_other.
Qed.

Lemma getResultingBoard_counts_and_frame_witness :
  exists nb,
    getResultingBoard initialBoard BLACK 2 3 = Some nb /\
    totalPieces nb = totalPieces initialBoard + 1 /\
    countColor nb BLACK =
      countColor initialBoard BLACK + 1
      + Z.of_nat (length (getFlippablePieces initialBoard BLACK 2 3)) /\
    countColor nb (opponentOf BLACK) =
      countColor initialBoard (opponentOf BLACK)
      - Z.of_nat (length (getFlippablePieces initialBoard BLACK 2 3)) /\
    forall r' c',
      inBoard r' c' = true -> r' <> 2 \/ c' <> 3 ->
      ~ In (mkMove r' c') (getFlippablePieces initialBoard BLACK 2 3) ->
      cellAt nb r' c' = cellAt initialBoard r' c'.
Proof.
  apply getResultingBoard_counts_and_frame;
    [reflexivity | reflexivity | reflexivity | reflexivity |].
  vm_compute. discriminate.
Defined.

(** C5 as stated fails: Black's opening move at (2,3) flips one piece, and
    the total number of pieces goes from 4 to 5, not to 4 + (1 + 1). *)
Lemma totalPieces_counterexample :
  ~ (forall (b : Board) (p : value) (r c : Z) (nb : Board),
        wf_board b -> isPlayer p = true -> inBoard r c = true ->
        cellAt b r c = EMPTY -> getFlippablePieces b p r c <> [] ->
        getResultingBoard b p r c = Some nb ->
        totalPieces nb =
          totalPieces b
          + (1 + Z.of_nat (length (getFlippablePieces b p r c))) /\
        forall r' c',
          inBoard r' c' = true -> r' <> r \/ c' <> c ->
          ~ In (mkMove r' c') (getFlippablePieces b p r c) ->
          cellAt nb r' c' = cellAt b r' c').
Proof.
  intros H.
  destruct (H initialBoard BLACK 2 3 boardAfterOpening) as [Hcount _];
    try reflexivity.
  - vm_compute. discriminate.
  - vm_compute in Hcount. discriminate Hcount.
Qed.

(** ** Static evaluation *)

Lemma positionStep_swap (b : Board) (p o : value) (r : Z) :
  p <> o ->
  forall (l : list Z) (acc : Z),
    fold_left (positionStep b o p r) l (- acc) =
    - fold_left (positionStep b p o r) l acc.
Proof.
  intros Hpo. induction l as [| c l IH]; intros acc; simpl; [reflexivity |].
  rewrite <- IH. f_equal. unfold positionStep.
  destruct (strictEq (cellAt b r c) p) eqn:Hp,
           (strictEq (cellAt b r c) o) eqn:Ho; try lia.
  apply strictEq_eq in Hp, Ho. congruence.
Qed.

Lemma positionScore_swap (b : Board) (p o : value) :
  p <> o ->
  forall (l : list Z) (acc : Z),
    fold_left (fun acc r => fold_left (positionStep b o p r) indices acc)
              l (- acc) =
    - fold_left (fun acc r => fold_left (positionStep b p o r) indices acc)
                l acc.
Proof.
  intros Hpo. induction l as [| r l IH]; intros acc; cbn [fold_left];
    [reflexivity |].
  rewrite <- IH. f_equal. now apply positionStep_swap.
Qed.

(** C7: the static evaluation is exactly antisymmetric: the score from a
    player's point of view is the opposite of the score from the
    opponent's. *)
Theorem evaluateBoard_antisymmetric (b : Board) (p : value) :
  wf_board b -> isPlayer p = true ->
  evaluateBoard b p = - evaluateBoard b (opponentOf p).
Proof.
  intros _ Hp. unfold evaluateBoard.
  rewrite (opponentOf_involutive p Hp).
  change 0 with (- 0) at 2.
  rewrite (positionScore_swap b p (opponentOf p)).
  - lia.
  - intros Heq. now apply (opponentOf_neq p Hp).
Qed.

Lemma evaluateBoard_antisymmetric_witness :
  evaluateBoard boardAfterOpening WHITE =
  - evaluateBoard boardAfterOpening (opponentOf WHITE).
Proof. apply evaluateBoard_antisymmetric; reflexivity. Defined.

(** ** The order of scores *)

Ltac num_intro :=
  repeat match goal with
         | |- forall x : number, _ => let x := fresh x in intros x; destruct x
         | |- forall x : Z, _ => intro
         end.

(** Case analysis on every score of the statement, then linear arithmetic. *)
Ltac num_crush :=
  unfold withinBounds, num_lt, num_le;
  num_intro; cbn [num_ltb num_leb num_max num_min]; lia.

Lemma num_le_refl : forall a : number, num_le a a.
Proof. num_crush. Qed.

Lemma num_le_trans : forall a b c : number,
  num_le a b -> num_le b c -> num_le a c.
Proof. num_crush. Qed.

Lemma num_le_antisym (a b : number) : num_le a b -> num_le b a -> a = b.
Proof.
  unfold num_le. destruct a, b; simpl; try discriminate; try reflexivity.
  intros H1 H2. f_equal. lia.
Qed.

Lemma num_lt_not_le : forall a b : number, num_lt a b -> num_le b a -> False.
Proof. num_crush. Qed.

Lemma num_le_max_l : forall a b : number, num_le a (num_max a b).
Proof. num_crush. Qed.

Lemma num_le_min_l : forall a b : number, num_le (num_min a b) a.
Proof. num_crush. Qed.

(** The test-and-assign of the loops computes a maximum (a minimum). *)
Lemma num_max_if (a b : number) :
  (if num_ltb a b then b else a) = num_max a b.
Proof.
  destruct a, b; simpl; try reflexivity.
  destruct (Z.ltb_spec z z0); f_equal; lia.
Qed.

Lemma num_min_if (a b : number) :
  (if num_ltb b a then b else a) = num_min a b.
Proof.
  destruct a, b; simpl; try reflexivity.
  destruct (Z.ltb_spec z0 z); f_equal; lia.
Qed.

Lemma num_max_assoc (a b c : number) :
  num_max (num_max a b) c = num_max a (num_max b c).
Proof. destruct a, b, c; simpl; try reflexivity. f_equal. lia. Qed.

Lemma num_min_assoc (a b c : number) :
  num_min (num_min a b) c = num_min a (num_min b c).
Proof. destruct a, b, c; simpl; try reflexivity. f_equal. lia. Qed.

Lemma bestSoFar_max_ge (vals : list Z) (seen : number) :
  num_le seen (bestSoFar true seen vals).
Proof.
  revert seen. induction vals as [| v vals IH]; intros seen; simpl.
  - apply num_le_refl.
  - eapply num_le_trans; [apply num_le_max_l | apply IH].
Qed.

Lemma bestSoFar_min_le (vals : list Z) (seen : number) :
  num_le (bestSoFar false seen vals) seen.
Proof.
  revert seen. induction vals as [| v vals IH]; intros seen; simpl.
  - apply num_le_refl.
  - eapply num_le_trans; [apply IH | apply num_le_min_l].
Qed.

Lemma bestSoFar_Finite (isMax : bool) (vals : list Z) (x : Z) :
  bestSoFar isMax (Finite x) vals =
  Finite (fold_left (if isMax then Z.max else Z.min) vals x).
Proof.
  revert x. induction vals as [| v vals IH]; intros x; [reflexivity |].
  destruct isMax; apply IH.
Qed.

(** The first child of a node turns the initial infinity into its value. *)
Lemma bestSoFar_bestScore (isMax : bool) (v : Z) (vals : list Z) :
  bestSoFar isMax (if isMax then NegInfinity else Infinity) (v :: vals) =
  Finite (bestScore isMax (v :: vals)).
Proof. destruct isMax; apply (bestSoFar_Finite _ vals v). Qed.

(** A search never returns an infinite score for a finite value. *)
Lemma withinBounds_exact : forall (s : number) (v : Z),
  withinBounds NegInfinity Infinity s (Finite v) -> s = Finite v.
Proof.
  intros s v (Hlo & Hhi & Hin). unfold num_le, num_lt in *.
  destruct s as [| z |]; simpl in *.
  - now specialize (Hlo eq_refl).
  - destruct (Hin eq_refl eq_refl). f_equal. lia.
  - now specialize (Hhi eq_refl).
Qed.

(** *** One iteration of the maximizing loop

    [alpha0] is the bound the node was entered with; the running bound is
    [num_max alpha0 maxEval]; [seen] is the best exact value among the
    children examined so far. *)

Lemma max_final : forall alpha0 beta maxEval seen : number,
  num_lt (num_max alpha0 maxEval) beta ->
  (num_le maxEval alpha0 -> num_le seen maxEval) ->
  (num_lt alpha0 maxEval -> num_le seen maxEval /\ num_le maxEval seen) ->
  withinBounds alpha0 beta maxEval seen.
Proof. num_crush. Qed.

Lemma max_cutoff : forall (alpha0 beta maxEval seen s total : number) (v : Z),
  num_lt (num_max alpha0 maxEval) beta ->
  (num_le maxEval alpha0 -> num_le seen maxEval) ->
  (num_lt alpha0 maxEval -> num_le seen maxEval /\ num_le maxEval seen) ->
  withinBounds (num_max alpha0 maxEval) beta s (Finite v) ->
  num_leb beta (num_max (num_max alpha0 maxEval) s) = true ->
  num_le (num_max seen (Finite v)) total ->
  withinBounds alpha0 beta (num_max maxEval s) total /\
  num_le beta (num_max maxEval s).
Proof. num_crush. Qed.

Lemma max_continue : forall (alpha0 beta maxEval seen s : number) (v : Z),
  num_lt (num_max alpha0 maxEval) beta ->
  (num_le maxEval alpha0 -> num_le seen maxEval) ->
  (num_lt alpha0 maxEval -> num_le seen maxEval /\ num_le maxEval seen) ->
  withinBounds (num_max alpha0 maxEval) beta s (Finite v) ->
  num_leb beta (num_max (num_max alpha0 maxEval) s) = false ->
  num_lt (num_max alpha0 (num_max maxEval s)) beta /\
  (num_le (num_max maxEval s) alpha0 ->
   num_le (num_max seen (Finite v)) (num_max maxEval s)) /\
  (num_lt alpha0 (num_max maxEval s) ->
   num_le (num_max seen (Finite v)) (num_max maxEval s) /\
   num_le (num_max maxEval s) (num_max seen (Finite v))) /\
  (num_ltb maxEval s = true -> num_lt alpha0 (num_max maxEval s) ->
   num_le s (Finite v) /\ num_le (Finite v) s /\
   num_le s (num_max maxEval s) /\ num_le (num_max maxEval s) s) /\
  (num_ltb maxEval s = false -> num_lt alpha0 (num_max maxEval s) ->
   num_lt alpha0 maxEval /\
   num_le maxEval (num_max maxEval s) /\ num_le (num_max maxEval s) maxEval).
Proof. num_crush. Qed.

(** *** One iteration of the minimizing loop *)

Lemma min_final : forall alpha beta0 minEval seen : number,
  num_lt alpha (num_min beta0 minEval) ->
  (num_le beta0 minEval -> num_le minEval seen) ->
  (num_lt minEval beta0 -> num_le seen minEval /\ num_le minEval seen) ->
  withinBounds alpha beta0 minEval seen.
Proof. num_crush. Qed.

Lemma min_cutoff : forall (alpha beta0 minEval seen s total : number) (v : Z),
  num_lt alpha (num_min beta0 minEval) ->
  (num_le beta0 minEval -> num_le minEval seen) ->
  (num_lt minEval beta0 -> num_le seen minEval /\ num_le minEval seen) ->
  withinBounds alpha (num_min beta0 minEval) s (Finite v) ->
  num_leb (num_min (num_min beta0 minEval) s) alpha = true ->
  num_le total (num_min seen (Finite v)) ->
  withinBounds alpha beta0 (num_min minEval s) total /\
  num_le (num_min minEval s) alpha.
Proof. num_crush. Qed.

Lemma min_continue : forall (alpha beta0 minEval seen s : number) (v : Z),
  num_lt alpha (num_min beta0 minEval) ->
  (num_le beta0 minEval -> num_le minEval seen) ->
  (num_lt minEval beta0 -> num_le seen minEval /\ num_le minEval seen) ->
  withinBounds alpha (num_min beta0 minEval) s (Finite v) ->
  num_leb (num_min (num_min beta0 minEval) s) alpha = false ->
  num_lt alpha (num_min beta0 (num_min minEval s)) /\
  (num_le beta0 (num_min minEval s) ->
   num_le (num_min minEval s) (num_min seen (Finite v))) /\
  (num_lt (num_min minEval s) beta0 ->
   num_le (num_min seen (Finite v)) (num_min minEval s) /\
   num_le (num_min minEval s) (num_min seen (Finite v))) /\
  (num_ltb s minEval = true -> num_lt (num_min minEval s) beta0 ->
   num_le s (Finite v) /\ num_le (Finite v) s /\
   num_le s (num_min minEval s) /\ num_le (num_min minEval s) s) /\
  (num_ltb s minEval = false -> num_lt (num_min minEval s) beta0 ->
   num_lt minEval beta0 /\
   num_le minEval (num_min minEval s) /\ num_le (num_min minEval s) minEval).
Proof. num_crush. Qed.

(** ** The loops of a search node *)

Section LoopSoundness.

Variable search :
  Board -> value -> number -> number -> bool -> value -> option SearchResult.
Variables (b : Board) (q o root : value).

(** The exact value of the position a move leads to. *)
Variable childValue : Board -> Z.

(** The moves of the node. *)
Variable allMoves : list Move.

Local Abbreviation valueOf := (moveValue b q childValue).

Lemma searchChild_applyMove (m : Move) (alpha beta : number) (flag : bool) :
  getResultingBoard b q (row m) (col m) <> None ->
  searchChild search o root (getResultingBoard b q (row m) (col m))
              alpha beta flag =
  search (applyMove b q m) o alpha beta flag root.
Proof.
  intros Hsome. unfold applyMove, searchChild.
  destruct (getResultingBoard b q (row m) (col m)); [reflexivity | congruence].
Qed.

Section Maximizing.

Hypothesis Hsearch : forall nb alpha beta,
  num_lt alpha beta ->
  exists res,
    search nb o alpha beta false root = Some res /\
    withinBounds alpha beta (score res) (Finite (childValue nb)).

Lemma maximizingLoop_sound (alpha0 beta : number) :
  forall (moves : list Move) (maxEval seen : number) (bestMove : Move),
    (forall m, In m moves ->
               In m allMoves /\
               getResultingBoard b q (row m) (col m) <> None) ->
    num_lt (num_max alpha0 maxEval) beta ->
    (num_le maxEval alpha0 -> num_le seen maxEval) ->
    (num_lt alpha0 maxEval -> num_le seen maxEval /\ num_le maxEval seen) ->
    (num_lt alpha0 maxEval ->
     In bestMove allMoves /\ maxEval = Finite (valueOf bestMove)) ->
    exists res,
      maximizingLoop search b q o root beta moves
                     (num_max alpha0 maxEval) maxEval bestMove = Some res /\
      withinBounds alpha0 beta (score res)
                   (bestSoFar true seen (map valueOf moves)) /\
      (num_lt alpha0 (score res) -> num_lt (score res) beta ->
       exists bm, move res = Some bm /\ In bm allMoves /\
                  score res = Finite (valueOf bm)).
Proof.
  induction moves as [| m rest IH];
    intros maxEval seen bestMove Hmoves Hwin Hup Hex Hbest.
  - eexists. split; [reflexivity |]. simpl. split.
    + now apply max_final.
    + intros Hlo _. exists bestMove. destruct (Hbest Hlo). auto.
  - destruct (Hmoves m) as [Hm Hsome]; [now left |].
    cbn [maximizingLoop]. rewrite searchChild_applyMove by exact Hsome.
    destruct (Hsearch (applyMove b q m) _ _ Hwin) as (res & -> & Hres).
    fold (valueOf m) in Hres.
    rewrite num_max_if.
    destruct (num_leb beta (num_max (num_max alpha0 maxEval) (score res)))
      eqn:Hcut.
    + eexists. split; [reflexivity |]. cbn [score move map].
      destruct (max_cutoff alpha0 beta maxEval seen (score res)
                  (bestSoFar true seen (valueOf m :: map valueOf rest))
                  (valueOf m) Hwin Hup Hex Hres Hcut) as [Hb Hge].
      { exact (bestSoFar_max_ge (map valueOf rest)
                 (num_max seen (Finite (valueOf m)))). }
      split; [exact Hb |].
      intros _ Hlt. exfalso. eapply num_lt_not_le; eassumption.
    + destruct (max_continue alpha0 beta maxEval seen (score res)
                  (valueOf m) Hwin Hup Hex Hres Hcut)
        as (Hwin' & Hup' & Hex' & Hbetter & Hsame).
      rewrite num_max_assoc.
      apply (IH (num_max maxEval (score res))
                (num_max seen (Finite (valueOf m)))); auto.
      * intros x Hx. apply Hmoves. now right.
      * intros Hlo.
        destruct (num_ltb maxEval (score res)) eqn:Hb.
        -- destruct (Hbetter eq_refl Hlo) as (H1 & H2 & H3 & H4).
           split; [exact Hm |].
           rewrite <- (num_le_antisym _ _ H3 H4).
           now apply num_le_antisym.
        -- destruct (Hsame eq_refl Hlo) as (H1 & H2 & H3).
           destruct (Hbest H1) as [Hin Heq]. split; [exact Hin |].
           rewrite <- (num_le_antisym _ _ H2 H3). exact Heq.
Qed.

End Maximizing.

Section Minimizing.

Hypothesis Hsearch : forall nb alpha beta,
  num_lt alpha beta ->
  exists res,
    search nb o alpha beta true root = Some res /\
    withinBounds alpha beta (score res) (Finite (childValue nb)).

Lemma minimizingLoop_sound (alpha beta0 : number) :
  forall (moves : list Move) (minEval seen : number) (bestMove : Move),
    (forall m, In m moves ->
               In m allMoves /\
               getResultingBoard b q (row m) (col m) <> None) ->
    num_lt alpha (num_min beta0 minEval) ->
    (num_le beta0 minEval -> num_le minEval seen) ->
    (num_lt minEval beta0 -> num_le seen minEval /\ num_le minEval seen) ->
    (num_lt minEval beta0 ->
     In bestMove allMoves /\ minEval = Finite (valueOf bestMove)) ->
    exists res,
      minimizingLoop search b q o root alpha moves
                     (num_min beta0 minEval) minEval bestMove = Some res /\
      withinBounds alpha beta0 (score res)
                   (bestSoFar false seen (map valueOf moves)) /\
      (num_lt alpha (score res) -> num_lt (score res) beta0 ->
       exists bm, move res = Some bm /\ In bm allMoves /\
                  score res = Finite (valueOf bm)).
Proof.
  induction moves as [| m rest IH];
    intros minEval seen bestMove Hmoves Hwin Hup Hex Hbest.
  - eexists. split; [reflexivity |]. simpl. split.
    + now apply min_final.
    + intros _ Hhi. exists bestMove. destruct (Hbest Hhi). auto.
  - destruct (Hmoves m) as [Hm Hsome]; [now left |].
    cbn [minimizingLoop]. rewrite searchChild_applyMove by exact Hsome.
    destruct (Hsearch (applyMove b q m) _ _ Hwin) as (res & -> & Hres).
    fold (valueOf m) in Hres.
    rewrite num_min_if.
    destruct (num_leb (num_min (num_min beta0 minEval) (score res)) alpha)
      eqn:Hcut.
    + eexists. split; [reflexivity |]. cbn [score move map].
      destruct (min_cutoff alpha beta0 minEval seen (score res)
                  (bestSoFar false seen (valueOf m :: map valueOf rest))
                  (valueOf m) Hwin Hup Hex Hres Hcut) as [Hb Hle].
      { exact (bestSoFar_min_le (map valueOf rest)
                 (num_min seen (Finite (valueOf m)))). }
      split; [exact Hb |].
      intros Hlt _. exfalso. eapply num_lt_not_le; eassumption.
    + destruct (min_continue alpha beta0 minEval seen (score res)
                  (valueOf m) Hwin Hup Hex Hres Hcut)
        as (Hwin' & Hup' & Hex' & Hbetter & Hsame).
      rewrite num_min_assoc.
      apply (IH (num_min minEval (score res))
                (num_min seen (Finite (valueOf m)))); auto.
      * intros x Hx. apply Hmoves. now right.
      * intros Hhi.
        destruct (num_ltb (score res) minEval) eqn:Hb.
        -- destruct (Hbetter eq_refl Hhi) as (H1 & H2 & H3 & H4).
           split; [exact Hm |].
           rewrite <- (num_le_antisym _ _ H3 H4).
           now apply num_le_antisym.
        -- destruct (Hsame eq_refl Hhi) as (H1 & H2 & H3).
           destruct (Hbest H1) as [Hin Heq]. split; [exact Hin |].
           rewrite <- (num_le_antisym _ _ H2 H3). exact Heq.
Qed.

End Minimizing.

End LoopSoundness.

(** ** A search node against brute-force minimax *)

Lemma num_max_NegInfinity_r (a : number) : num_max a NegInfinity = a.
Proof. now destruct a. Qed.

Lemma num_min_Infinity_r (a : number) : num_min a Infinity = a.
Proof. now destruct a. Qed.

Lemma num_lt_NegInfinity : forall a : number, num_lt a NegInfinity -> False.
Proof. num_crush. Qed.

Lemma num_lt_Infinity : forall a : number, num_lt Infinity a -> False.
Proof. num_crush. Qed.

Lemma withinBounds_refl : forall alpha beta s : number,
  withinBounds alpha beta s s.
Proof. num_crush. Qed.

(** Every move listed by [getValidMoves] can be applied. *)
Lemma getValidMoves_applicable (b : Board) (q : value) (m : Move) :
  In m (getValidMoves b q) ->
  getResultingBoard b q (row m) (col m) <> None.
Proof.
  intros Hm. destruct (truthy q) eqn:Hq.
  - apply getValidMoves_In in Hm; [| exact Hq].
    destruct Hm as (_ & _ & Hf). rewrite getResultingBoard_None. tauto.
  - unfold getValidMoves in Hm. rewrite Hq in Hm. contradiction.
Qed.

Lemma searchNode_sound
    (search : Board -> value -> number -> number -> bool -> value ->
              option SearchResult)
    (childValue : bool -> Board -> Z) (b : Board) (q root : value)
    (flag : bool) (moves : list Move) (alpha beta : number) :
  (forall nb a be f,
      num_lt a be ->
      exists res,
        search nb (opponentOf q) a be f root = Some res /\
        withinBounds a be (score res) (Finite (childValue f nb))) ->
  moves <> [] ->
  (forall m, In m moves -> getResultingBoard b q (row m) (col m) <> None) ->
  num_lt alpha beta ->
  exists res,
    searchNode search b q (opponentOf q) root moves alpha beta flag
    = Some res /\
    withinBounds alpha beta (score res)
      (Finite (bestScore flag
                 (map (moveValue b q (childValue (negb flag))) moves))) /\
    (num_lt alpha (score res) -> num_lt (score res) beta ->
     exists bm,
       move res = Some bm /\ In bm moves /\
       score res = Finite (moveValue b q (childValue (negb flag)) bm)).
Proof.
  intros Hsearch Hne Happ Hwin.
  destruct moves as [| first rest]; [congruence |].
  unfold searchNode. destruct flag; cbn [negb map].
  - rewrite <- (bestSoFar_bestScore true).
    pose proof (maximizingLoop_sound search b q (opponentOf q) root
                  (childValue false) (first :: rest)
                  (fun nb a be => Hsearch nb a be false)
                  alpha beta (first :: rest) NegInfinity NegInfinity first)
      as Hloop.
    rewrite num_max_NegInfinity_r in Hloop. apply Hloop.
    + intros m Hm. split; [exact Hm | now apply Happ].
    + exact Hwin.
    + intros _. apply num_le_refl.
    + intros H. now apply num_lt_NegInfinity in H.
    + intros H. now apply num_lt_NegInfinity in H.
  - rewrite <- (bestSoFar_bestScore false).
    pose proof (minimizingLoop_sound search b q (opponentOf q) root
                  (childValue true) (first :: rest)
                  (fun nb a be => Hsearch nb a be true)
                  alpha beta (first :: rest) Infinity Infinity first)
      as Hloop.
    rewrite num_min_Infinity_r in Hloop. apply Hloop.
    + intros m Hm. split; [exact Hm | now apply Happ].
    + exact Hwin.
    + intros _. apply num_le_refl.
    + intros H. now apply num_lt_Infinity in H.
    + intros H. now apply num_lt_Infinity in H.
Qed.

(** ** Alpha-beta against brute-force minimax *)

(** In any window, the search returns, and its score bounds the minimax
    value of the position the way a fail-soft alpha-beta search does. *)
Lemma alphaBetaSearch_sound :
  forall (d : nat) (b : Board) (p : value) (alpha beta : number)
         (flag : bool) (root : value),
    num_lt alpha beta ->
    exists res,
      alphaBetaSearch d b p alpha beta flag root = Some res /\
      withinBounds alpha beta (score res) (Finite (minimax d b p flag root)).
Proof.
  induction d as [| d IH]; intros b p alpha beta flag root Hwin.
  - eexists. split; [reflexivity | apply withinBounds_refl].
  - cbn [alphaBetaSearch minimax].
    destruct (getValidMoves b p) as [| m ms] eqn:Hvm.
    + destruct (getValidMoves b (opponentOf p)) as [| r rs] eqn:Hop;
        cbn [length Nat.eqb andb].
      * eexists. split; [reflexivity | apply withinBounds_refl].
      * destruct (searchNode_sound (alphaBetaSearch d)
                    (fun f nb =>
                       minimax d nb (opponentOf (opponentOf p)) f root)
                    b (opponentOf p) root (negb flag) (r :: rs) alpha beta)
          as (res & Hres & Hb & _).
        -- intros nb a be f Hlt. now apply IH.
        -- discriminate.
        -- intros x Hx. apply getValidMoves_applicable. now rewrite Hop.
        -- exact Hwin.
        -- exists res. split; [exact Hres |].
           rewrite negb_involutive in Hb. exact Hb.
    + cbn [length Nat.eqb andb].
      destruct (searchNode_sound (alphaBetaSearch d)
                  (fun f nb => minimax d nb (opponentOf p) f root)
                  b p root flag (m :: ms) alpha beta)
        as (res & Hres & Hb & _).
      * intros nb a be f Hlt. now apply IH.
      * discriminate.
      * intros x Hx. apply getValidMoves_applicable. now rewrite Hvm.
      * exact Hwin.
      * exists res. split; [exact Hres | exact Hb].
Qed.

Lemma num_lt_full_window : num_lt NegInfinity Infinity.
Proof. reflexivity. Qed.

Lemma fold_left_max_ge (l : list Z) (x : Z) :
  x <= fold_left Z.max l x /\ forall y, In y l -> y <= fold_left Z.max l x.
Proof.
  revert x. induction l as [| a l IH]; intros x; simpl.
  - split; [lia | contradiction].
  - destruct (IH (Z.max x a)) as [H1 H2]. split; [lia |].
    intros y [<- | Hy]; [lia | now apply H2].
Qed.

Lemma bestScore_max_ge (l : list Z) (y : Z) :
  In y l -> y <= bestScore true l.
Proof.
  destruct l as [| x l]; [contradiction |]. simpl.
  destruct (fold_left_max_ge l x) as [H1 H2].
  intros [<- | Hy]; [exact H1 | now apply H2].
Qed.

(** At the root, with the full window, the search of depth [S d] returns a
    listed move whose minimax score is the best among the root moves. *)
Lemma alphaBetaSearch_root (d : nat) (b : Board) (p : value) :
  getValidMoves b p <> [] ->
  exists mv,
    alphaBetaSearch (S d) b p NegInfinity Infinity true p =
    Some (mkResult (Finite (rootMoveScore (S d) b p mv)) (Some mv)) /\
    In mv (getValidMoves b p) /\
    rootMoveScore (S d) b p mv =
    bestScore true (map (rootMoveScore (S d) b p) (getValidMoves b p)).
Proof.
  intros Hne. cbn [alphaBetaSearch].
  destruct (getValidMoves b p) as [| m ms] eqn:Hvm; [congruence |].
  cbn [length Nat.eqb andb].
  destruct (searchNode_sound (alphaBetaSearch d)
              (fun f nb => minimax d nb (opponentOf p) f p)
              b p p true (m :: ms) NegInfinity Infinity)
    as (res & Hres & Hb & Hmove).
  - intros nb a be f Hlt. now apply alphaBetaSearch_sound.
  - discriminate.
  - intros x Hx. apply getValidMoves_applicable. now rewrite Hvm.
  - apply num_lt_full_window.
  - apply withinBounds_exact in Hb.
    destruct Hmove as (bm & Hbm & Hin & Hscore).
    + now rewrite Hb.
    + now rewrite Hb.
    + exists bm. rewrite Hres. destruct res as [sc mvopt]. simpl in *.
      subst mvopt. rewrite Hscore in Hb. injection Hb as Hb.
      split; [| split].
      * now rewrite Hscore.
      * exact Hin.
      * exact Hb.
Qed.

(** C2: for a player with at least one legal move and a depth between 1 and
    3, the search started with the full window selects a legal move whose
    brute-force minimax score is the maximum of the brute-force minimax
    scores of the legal root moves. *)
Theorem alphaBetaSearch_matches_minimax (b : Board) (p : value) (d : nat) :
  wf_board b -> isPlayer p = true -> getValidMoves b p <> [] ->
  (1 <= d <= 3)%nat ->
  exists res mv,
    alphaBetaSearch d b p NegInfinity Infinity true p = Some res /\
    move res = Some mv /\
    legalMove b p mv /\
    rootMoveScore d b p mv =
      bestScore true (map (rootMoveScore d b p) (getValidMoves b p)) /\
    forall m, legalMove b p m -> rootMoveScore d b p m <= rootMoveScore d b p mv.
Proof.
  intros _ Hp Hne Hd. destruct d as [| d]; [lia |].
  destruct (alphaBetaSearch_root d b p Hne) as (mv & Hres & Hin & Hbest).
  pose proof (isPlayer_truthy p Hp) as Ht.
  eexists. exists mv. split; [exact Hres |].
  split; [reflexivity |]. split; [now apply getValidMoves_In |].
  split; [exact Hbest |].
  intros m Hm. rewrite Hbest. apply bestScore_max_ge.
  apply in_map. now apply getValidMoves_In.
Qed.

Lemma alphaBetaSearch_matches_minimax_witness :
  exists res mv,
    alphaBetaSearch 3 initialBoard BLACK NegInfinity Infinity true BLACK
    = Some res /\
    move res = Some mv /\
    legalMove initialBoard BLACK mv /\
    rootMoveScore 3 initialBoard BLACK mv =
      bestScore true (map (rootMoveScore 3 initialBoard BLACK)
                          (getValidMoves initialBoard BLACK)) /\
    forall m, legalMove initialBoard BLACK m ->
              rootMoveScore 3 initialBoard BLACK m
              <= rootMoveScore 3 initialBoard BLACK mv.
Proof.
  apply alphaBetaSearch_matches_minimax;
    [reflexivity | reflexivity | vm_compute; discriminate | lia].
Defined.

(** ** The recursion on depth agrees with the literal transcription *)

Section FuelLoopsExact.

Variable child :
  option Board -> number -> number -> bool -> option (option SearchResult).
Variable search :
  Board -> value -> number -> number -> bool -> value -> option SearchResult.
Variables (b : Board) (q o root : value).

Hypothesis Hchild : forall nb a be f,
  child (Some nb) a be f = Some (search nb o a be f root).
Hypothesis Hnull : forall a be f, child None a be f = Some None.

Lemma child_searchChild (nb : option Board) (a be : number) (f : bool) :
  child nb a be f = Some (searchChild search o root nb a be f).
Proof. destruct nb; [apply Hchild | apply Hnull]. Qed.

Lemma maximizingLoopFuel_exact (beta : number) :
  forall (moves : list Move) (alpha maxEval : number) (bestMove : Move),
    maximizingLoopFuel child b q beta moves alpha maxEval bestMove =
    Some (maximizingLoop search b q o root beta moves alpha maxEval bestMove).
Proof.
  induction moves as [| m rest IH]; intros alpha maxEval bestMove;
    [reflexivity |].
  cbn [maximizingLoopFuel maximizingLoop]. rewrite child_searchChild.
  destruct (searchChild search o root _ alpha beta false) as [res |];
    [| reflexivity].
  destruct (num_leb beta (num_max alpha (score res))); [reflexivity |].
  apply IH.
Qed.

Lemma minimizingLoopFuel_exact (alpha : number) :
  forall (moves : list Move) (beta minEval : number) (bestMove : Move),
    minimizingLoopFuel child b q alpha moves beta minEval bestMove =
    Some (minimizingLoop search b q o root alpha moves beta minEval bestMove).
Proof.
  induction moves as [| m rest IH]; intros beta minEval bestMove;
    [reflexivity |].
  cbn [minimizingLoopFuel minimizingLoop]. rewrite child_searchChild.
  destruct (searchChild search o root _ alpha beta true) as [res |];
    [| reflexivity].
  destruct (num_leb (num_min beta (score res)) alpha); [reflexivity |].
  apply IH.
Qed.

End FuelLoopsExact.

(** A call that finds a move for [q] at depth [S d] runs the node of lines
    59-87, provided the calls at depth [d] agree. *)
Lemma alphaBetaSearchFuel_node (d fuel : nat) (root : value) :
  (forall nb q a be f,
      alphaBetaSearchFuel fuel nb q d a be f root =
      Some (alphaBetaSearch d nb q a be f root)) ->
  forall (b : Board) (q : value) (m : Move) (ms : list Move)
         (alpha beta : number) (flag : bool),
    getValidMoves b q = m :: ms ->
    alphaBetaSearchFuel (S fuel) b q (S d) alpha beta flag root =
    Some (searchNode (alphaBetaSearch d) b q (opponentOf q) root (m :: ms)
                     alpha beta flag).
Proof.
  intros IHd b q m ms alpha beta flag Hvm.
  cbn [alphaBetaSearchFuel]. rewrite Hvm.
  cbn [Nat.eqb length orb andb searchNode].
  rewrite Nat.sub_succ, Nat.sub_0_r.
  destruct flag.
  - apply maximizingLoopFuel_exact; [intros; apply IHd | reflexivity].
  - apply minimizingLoopFuel_exact; [intros; apply IHd | reflexivity].
Qed.

(** With more than [2 * depth] units of fuel the literal transcription ends
    within its bound and returns what the recursion on depth returns: a pass
    is always followed by a node that consumes a ply. *)
Lemma alphaBetaSearchFuel_exact :
  forall (d fuel : nat) (b : Board) (p : value) (alpha beta : number)
         (flag : bool) (root : value),
    (2 * d < fuel)%nat ->
    alphaBetaSearchFuel fuel b p d alpha beta flag root =
    Some (alphaBetaSearch d b p alpha beta flag root).
Proof.
  induction d as [| d IH]; intros fuel b p alpha beta flag root Hfuel.
  - destruct fuel as [| fuel]; [lia |]. reflexivity.
  - destruct fuel as [| fuel]; [lia |].
    destruct (getValidMoves b p) as [| m ms] eqn:Hvm.
    + destruct (getValidMoves b (opponentOf p)) as [| r rs] eqn:Hop.
      * cbn [alphaBetaSearchFuel alphaBetaSearch]. rewrite Hvm, Hop.
        reflexivity.
      * destruct fuel as [| fuel]; [lia |].
        cbn [alphaBetaSearch]. rewrite Hvm, Hop.
        cbn [Nat.eqb length orb andb].
        rewrite <- (alphaBetaSearchFuel_node d fuel root); [| | exact Hop].
        -- cbn [alphaBetaSearchFuel]. rewrite Hvm, Hop. reflexivity.
        -- intros. apply IH. lia.
    + cbn [alphaBetaSearch]. rewrite Hvm. cbn [Nat.eqb length orb andb].
      apply alphaBetaSearchFuel_node; [| exact Hvm].
      intros. apply IH. lia.
Qed.

(** ** [findBestMove] *)

(** A player with a legal move is given one of their legal moves. *)
Lemma findBestMove_with_moves (b : Board) (p : value) :
  getValidMoves b p <> [] ->
  exists mv, findBestMove b p = Some (Some mv) /\ In mv (getValidMoves b p).
Proof.
  intros Hne. unfold findBestMove, searchDepth.
  destruct (alphaBetaSearch_root 3 b p Hne) as (mv & -> & Hin & _).
  exists mv. split; [reflexivity | exact Hin].
Qed.

(** When neither side can move, no move is returned. *)
Lemma findBestMove_game_over (b : Board) (p : value) :
  getValidMoves b p = [] -> getValidMoves b (opponentOf p) = [] ->
  findBestMove b p = Some None.
Proof.
  intros Hvm Hop. unfold findBestMove, searchDepth.
  cbn [alphaBetaSearch]. now rewrite Hvm, Hop.
Qed.

(** When the player must pass, the result of the pass call of line 56 is
    returned as it is, [move] field included: the search answers with a
    move of the opponent. *)
Lemma alphaBetaSearch_on_pass (d : nat) (b : Board) (p : value) :
  getValidMoves b p = [] -> getValidMoves b (opponentOf p) <> [] ->
  exists res mv,
    alphaBetaSearch (S d) b p NegInfinity Infinity true p = Some res /\
    move res = Some mv /\
    In mv (getValidMoves b (opponentOf p)).
Proof.
  intros Hvm Hop. cbn [alphaBetaSearch]. rewrite Hvm.
  destruct (getValidMoves b (opponentOf p)) as [| r rs] eqn:Hreplies;
    [congruence |].
  cbn [length Nat.eqb andb negb].
  destruct (searchNode_sound (alphaBetaSearch d)
              (fun f nb => minimax d nb (opponentOf (opponentOf p)) f p)
              b (opponentOf p) p false (r :: rs) NegInfinity Infinity)
    as (res & Hres & Hb & Hmove).
  - intros nb a be f Hlt. now apply alphaBetaSearch_sound.
  - discriminate.
  - intros x Hx. apply getValidMoves_applicable. now rewrite Hreplies.
  - apply num_lt_full_window.
  - apply withinBounds_exact in Hb.
    destruct Hmove as (bm & Hbm & Hin & _).
    + now rewrite Hb.
    + now rewrite Hb.
    + exists res, bm. auto.
Qed.

Lemma findBestMove_on_pass (b : Board) (p : value) :
  getValidMoves b p = [] -> getValidMoves b (opponentOf p) <> [] ->
  exists mv,
    findBestMove b p = Some (Some mv) /\
    In mv (getValidMoves b (opponentOf p)) /\
    ~ In mv (getValidMoves b p).
Proof.
  intros Hvm Hop. unfold findBestMove, searchDepth.
  destruct (alphaBetaSearch_on_pass 3 b p Hvm Hop) as (res & mv & -> & -> & Hin).
  exists mv. split; [reflexivity |]. split; [exact Hin |].
  rewrite Hvm. intros [].
Qed.

(** C1, the failing input: on [passBoard] Black has no legal move and White
    has one; [findBestMove] for Black does not answer with no move, it
    returns White's move (0,2), which is not a legal move for Black. *)
Theorem findBestMove_pass_position :
  wf_board passBoard /\
  getValidMoves passBoard BLACK = [] /\
  getValidMoves passBoard WHITE = [mkMove 0 2] /\
  isValidMove passBoard BLACK 0 2 = false /\
  findBestMove passBoard BLACK = Some (Some (mkMove 0 2)).
Proof. repeat apply conj; vm_compute; reflexivity. Qed.

(** C8: on the opening position, Black to move, the four legal moves are
    (2,3), (3,2), (4,5), (5,4), they have the same minimax score at depth 4,
    and [findBestMove] returns the first of them in row-major order. *)
Theorem findBestMove_opening :
  searchDepth = 4%nat /\
  cellAt initialBoard 3 3 = WHITE /\ cellAt initialBoard 4 4 = WHITE /\
  cellAt initialBoard 3 4 = BLACK /\ cellAt initialBoard 4 3 = BLACK /\
  totalPieces initialBoard = 4 /\
  getValidMoves initialBoard BLACK =
    [mkMove 2 3; mkMove 3 2; mkMove 4 5; mkMove 5 4] /\
  map (rootMoveScore searchDepth initialBoard BLACK)
      (getValidMoves initialBoard BLACK) = [-4; -4; -4; -4] /\
  findBestMove initialBoard BLACK = Some (Some (mkMove 2 3)).
Proof. repeat apply conj; vm_compute; reflexivity. Qed.

(** ** Determinism *)

(** Two well-formed boards with the same contents are the same value. *)
Lemma sameCells_eq (b1 b2 : Board) :
  wf_board b1 -> wf_board b2 -> sameCells b1 b2 -> b1 = b2.
Proof.
  intros Hwf1 Hwf2 Hsame. apply list_eq. intros i.
  pose proof Hwf1 as Hspec1. pose proof Hwf2 as Hspec2.
  apply wf_board_spec in Hspec1, Hspec2.
  destruct Hspec1 as [Hlen1 _], Hspec2 as [Hlen2 _].
  destruct (Nat.lt_ge_cases i 8) as [Hi | Hi].
  - assert (Hin0 : inBoard (Z.of_nat i) 0 = true)
      by (apply inBoard_spec; lia).
    destruct (wf_board_lookup b1 _ _ Hwf1 Hin0) as (cells1 & _ & Hc1 & Hl1 & _).
    destruct (wf_board_lookup b2 _ _ Hwf2 Hin0) as (cells2 & _ & Hc2 & Hl2 & _).
    rewrite Nat2Z.id in Hc1, Hc2. rewrite Hc1, Hc2. f_equal.
    apply list_eq. intros j.
    destruct (Nat.lt_ge_cases j 8) as [Hj | Hj].
    + assert (Hin : inBoard (Z.of_nat i) (Z.of_nat j) = true)
        by (apply inBoard_spec; lia).
      destruct (wf_board_lookup b1 _ _ Hwf1 Hin)
        as (cells1' & v1 & Hc1' & _ & Hv1 & _ & Hcell1).
      destruct (wf_board_lookup b2 _ _ Hwf2 Hin)
        as (cells2' & v2 & Hc2' & _ & Hv2 & _ & Hcell2).
      rewrite Nat2Z.id in Hc1', Hc2', Hv1, Hv2.
      assert (E1 : cells1' = cells1) by congruence.
      assert (E2 : cells2' = cells2) by congruence.
      rewrite <- E1, <- E2, Hv1, Hv2. f_equal.
      rewrite <- Hcell1, <- Hcell2. now apply Hsame.
    + rewrite !(lookup_ge_None_2 _ j) by lia. reflexivity.
  - rewrite !(lookup_ge_None_2 _ i) by lia. reflexivity.
Qed.



(** * Further properties of the rules engine *)

Lemma opponentOf_neq_any (p : value) : opponentOf p <> p.
Proof.
  unfold opponentOf. destruct (strictEq p BLACK) eqn:H.
  - apply strictEq_eq in H. subst. discriminate.
  - apply strictEq_neq in H. congruence.
Qed.

(** A run of [n] opponent cells closed by a cell of the player is collected
    whole, provided the loop may run [n + 1] times. *)
Lemma scanLine_complete (b : Board) (p o : value) (dr dc : Z) :
  o <> p ->
  forall (n fuel : nat) (r c : Z) (line : list Move),
    (n < fuel)%nat ->
    (forall i, 0 <= i < Z.of_nat n ->
               inBoard (r + i * dr) (c + i * dc) = true /\
               cellAt b (r + i * dr) (c + i * dc) = o) ->
    inBoard (r + Z.of_nat n * dr) (c + Z.of_nat n * dc) = true ->
    cellAt b (r + Z.of_nat n * dr) (c + Z.of_nat n * dc) = p ->
    scanLine fuel b p o dr dc r c line = Some (line ++ ray n dr dc r c).
Proof.
  intros Hop. induction n as [| n IH]; intros fuel r c line Hfuel Hrun Hin Hp.
  - destruct fuel as [| fuel]; [lia |].
    simpl in Hin, Hp. rewrite !Z.add_0_r in Hin, Hp. simpl.
    rewrite Hin, Hp, strictEq_refl.
    assert (Hpo : strictEq p o = false) by (apply strictEq_neq; congruence).
    rewrite Hpo. now rewrite app_nil_r.
  - destruct fuel as [| fuel]; [lia |].
    destruct (Hrun 0) as [Hin0 Ho0]; [lia |].
    rewrite !Z.add_0_r in Hin0, Ho0. simpl Z.mul in Hin0, Ho0.
    cbn [scanLine ray]. rewrite Hin0, Ho0, strictEq_refl.
    rewrite (IH fuel (r + dr) (c + dc) (line ++ [mkMove r c])).
    + now rewrite <- app_assoc.
    + lia.
    + intros i Hi. destruct (Hrun (i + 1)) as [H1 H2]; [lia |].
      replace (r + dr + i * dr) with (r + (i + 1) * dr) by lia.
      replace (c + dc + i * dc) with (c + (i + 1) * dc) by lia. auto.
    + replace (r + dr + Z.of_nat n * dr) with (r + Z.of_nat (S n) * dr) by lia.
      replace (c + dc + Z.of_nat n * dc) with (c + Z.of_nat (S n) * dc) by lia.
      exact Hin.
    + replace (r + dr + Z.of_nat n * dr) with (r + Z.of_nat (S n) * dr) by lia.
      replace (c + dc + Z.of_nat n * dc) with (c + Z.of_nat (S n) * dc) by lia.
      exact Hp.
Qed.

(** The line captured in one direction, with the piece that closes it. *)
Lemma capturedLine_closed (b : Board) (p o : value) (r c dr dc : Z) :
  capturedLine b p o r c (dr, dc) = [] \/
  exists n : nat,
    capturedLine b p o r c (dr, dc) = ray n dr dc (r + dr) (c + dc) /\
    (forall m, In m (ray n dr dc (r + dr) (c + dc)) ->
               inBoard (row m) (col m) = true /\ cellAt b (row m) (col m) = o) /\
    inBoard (r + dr + Z.of_nat n * dr) (c + dc + Z.of_nat n * dc) = true /\
    cellAt b (r + dr + Z.of_nat n * dr) (c + dc + Z.of_nat n * dc) = p.
Proof.
  unfold capturedLine.
  destruct (scanLine _ b p o dr dc (r + dr) (c + dc) []) as [res |] eqn:Hscan;
    [| now left].
  apply scanLine_ray in Hscan.
  destruct Hscan as [-> | (n & -> & Hcells & Hend & Hp)]; [now left |].
  right. exists n. auto.
Qed.

Lemma getFlippablePieces_bracketed_iff (b : Board) (p : value) (r c : Z)
    (m : Move) :
  In m (getFlippablePieces b p r c) <-> bracketed b p r c m.
Proof.
  rewrite getFlippablePieces_flat_map, in_flat_map. split.
  - intros ([dr dc] & Hd & Hm).
    destruct (capturedLine_closed b p (opponentOf p) r c dr dc)
      as [Hnil | (n & Heq & Hcells & Hend & Hp)].
    + rewrite Hnil in Hm. contradiction.
    + rewrite Heq in Hm. pose proof Hm as Hm'.
      apply In_ray in Hm'. destruct Hm' as (i & Hi & ->).
      exists dr, dc, (i + 1), (Z.of_nat n + 1).
      split; [exact Hd |]. split; [lia |]. split; [f_equal; lia |].
      split; [| split].
      * intros j Hj.
        assert (Hj' : In (mkMove (r + dr + (j - 1) * dr) (c + dc + (j - 1) * dc))
                         (ray n dr dc (r + dr) (c + dc))).
        { apply In_ray. exists (j - 1). split; [lia | reflexivity]. }
        apply Hcells in Hj'. cbn [row col] in Hj'.
        replace (r + j * dr) with (r + dr + (j - 1) * dr) by lia.
        replace (c + j * dc) with (c + dc + (j - 1) * dc) by lia. exact Hj'.
      * replace (r + (Z.of_nat n + 1) * dr)
          with (r + dr + Z.of_nat n * dr) by lia.
        replace (c + (Z.of_nat n + 1) * dc)
          with (c + dc + Z.of_nat n * dc) by lia. exact Hend.
      * replace (r + (Z.of_nat n + 1) * dr)
          with (r + dr + Z.of_nat n * dr) by lia.
        replace (c + (Z.of_nat n + 1) * dc)
          with (c + dc + Z.of_nat n * dc) by lia. exact Hp.
  - intros (dr & dc & k & n & Hd & Hk & -> & Hrun & Hend & Hp).
    exists (dr, dc). split; [exact Hd |].
    unfold capturedLine.
    assert (Hn : n - 1 < 8).
    { destruct (Hrun 1) as [H1 _]; [lia |].
      apply inBoard_spec in H1, Hend. apply In_DIRECTIONS in Hd.
      assert (Hdr : dr = -1 \/ dr = 0 \/ dr = 1) by lia.
      assert (Hdc : dc = -1 \/ dc = 0 \/ dc = 1) by lia.
      destruct Hdr as [-> | [-> | ->]], Hdc as [-> | [-> | ->]]; lia. }
    rewrite (scanLine_complete b p (opponentOf p) dr dc
               (opponentOf_neq_any p) (Z.to_nat (n - 1))).
    + apply In_ray. exists (k - 1). split; [lia |]. f_equal; lia.
    + unfold BOARD_SIZE. lia.
    + intros i Hi. destruct (Hrun (i + 1)) as [H1 H2]; [lia |].
      replace (r + dr + i * dr) with (r + (i + 1) * dr) by lia.
      replace (c + dc + i * dc) with (c + (i + 1) * dc) by lia. auto.
    + replace (r + dr + Z.of_nat (Z.to_nat (n - 1)) * dr) with (r + n * dr)
        by lia.
      replace (c + dc + Z.of_nat (Z.to_nat (n - 1)) * dc) with (c + n * dc)
        by lia.
      exact Hend.
    + replace (r + dr + Z.of_nat (Z.to_nat (n - 1)) * dr) with (r + n * dr)
        by lia.
      replace (c + dc + Z.of_nat (Z.to_nat (n - 1)) * dc) with (c + n * dc)
        by lia.
      exact Hp.
Qed.

(** X1: [getFlippablePieces] returns exactly the pieces captured under the
    rule of the game: the opponent pieces that lie on one of the eight rays
    from the target in an unbroken run closed by a piece of the player. *)
Theorem getFlippablePieces_exactly_bracketed (b : Board) (p : value)
    (r c : Z) (m : Move) :
  wf_board b ->
  (In m (getFlippablePieces b p r c) <-> bracketed b p r c m).
Proof. intros _. apply getFlippablePieces_bracketed_iff. Qed.

Lemma getFlippablePieces_exactly_bracketed_witness :
  In (mkMove 3 3) (getFlippablePieces initialBoard BLACK 2 3) <->
  bracketed initialBoard BLACK 2 3 (mkMove 3 3).
Proof. apply getFlippablePieces_exactly_bracketed. reflexivity. Defined.

(** X2: the list of flippable pieces never repeats a cell and never
    contains the target cell, so its length is the number of pieces a move
    flips. *)
Theorem getFlippablePieces_distinct (b : Board) (p : value) (r c : Z) :
  wf_board b ->
  NoDup (getFlippablePieces b p r c) /\
  ~ In (mkMove r c) (getFlippablePieces b p r c).
Proof.
  intros _. split;
    [apply getFlippablePieces_NoDup | apply getFlippablePieces_not_target].
Qed.

Lemma getFlippablePieces_distinct_witness :
  NoDup (getFlippablePieces sandwichBoard BLACK 0 0) /\
  ~ In (mkMove 0 0) (getFlippablePieces sandwichBoard BLACK 0 0).
Proof. apply getFlippablePieces_distinct. reflexivity. Defined.

Lemma Move_eqb_eq (a b : Move) : Move_eqb a b = true <-> a = b.
Proof.
  unfold Move_eqb. destruct a as [ra ca], b as [rb cb]. cbn [row col].
  rewrite andb_true_iff, !Z.eqb_eq. split.
  - intros [-> ->]. reflexivity.
  - intros [= -> ->]. auto.
Qed.

Lemma isValidMove_legal (b : Board) (p : value) (r c : Z) :
  truthy p = true ->
  (isValidMove b p r c = true <-> legalMove b p (mkMove r c)).
Proof.
  intros Hp. unfold isValidMove. rewrite existsb_exists. split.
  - intros (m & Hin & Heq). apply Move_eqb_eq in Heq. subst m.
    now apply getValidMoves_In.
  - intros Hlegal. exists (mkMove r c). split.
    + now apply getValidMoves_In.
    + now apply Move_eqb_eq.
Qed.

(** X3: [isValidMove] answers true exactly for a target inside the board
    that is Empty and captures at least one piece; outside the board, or on
    an occupied cell, it answers false. *)
Theorem isValidMove_iff (b : Board) (p : value) (r c : Z) :
  wf_board b -> isPlayer p = true ->
  (isValidMove b p r c = true <->
   inBoard r c = true /\ cellAt b r c = EMPTY /\
   getFlippablePieces b p r c <> []).
Proof.
  intros _ Hp. rewrite isValidMove_legal by now apply isPlayer_truthy.
  reflexivity.
Qed.

Lemma isValidMove_iff_witness :
  isValidMove initialBoard WHITE 2 4 = true <->
  inBoard 2 4 = true /\ cellAt initialBoard 2 4 = EMPTY /\
  getFlippablePieces initialBoard WHITE 2 4 <> [].
Proof. apply isValidMove_iff; reflexivity. Defined.

Lemma cellAt_setCell_cases (b : Board) (r0 c0 r c : Z) (v : value) :
  cellAt (setCell b r0 c0 v) r c = v \/
  cellAt (setCell b r0 c0 v) r c = cellAt b r c.
Proof.
  destruct (Z.eq_dec r r0) as [-> | Hr];
    [| right; apply cellAt_setCell_other; now left].
  destruct (Z.eq_dec c c0) as [-> | Hc];
    [| right; apply cellAt_setCell_other; now right].
  unfold cellAt, setCell.
  destruct ((r0 <? 0) || (c0 <? 0)); [now right |].
  rewrite list_lookup_alter_eq.
  destruct (b !! Z.to_nat r0) as [cells |]; simpl; [| now right].
  rewrite list_lookup_insert. case_decide; [now left | now right].
Qed.

Lemma cellAt_flipAll_cases (nb : Board) (p : value) (l : list Move) (r c : Z) :
  cellAt (flipAll nb p l) r c = p \/
  cellAt (flipAll nb p l) r c = cellAt nb r c.
Proof.
  induction l as [| m l IH] using rev_ind; [now right |].
  rewrite flipAll_snoc.
  destruct (cellAt_setCell_cases (flipAll nb p l) (row m) (col m) r c p)
    as [H | H]; [now left |].
  rewrite H. exact IH.
Qed.

(** The board [getResultingBoard] builds when it does not answer [null]. *)
Lemma getResultingBoard_Some (b : Board) (p : value) (r c : Z) (nb : Board) :
  wf_board b -> getResultingBoard b p r c = Some nb ->
  nb = flipAll (setCell b r c p) p (getFlippablePieces b p r c).
Proof.
  intros Hwf. unfold getResultingBoard.
  destruct ((length (getFlippablePieces b p r c) =? 0)%nat
            && strictEq (cellAt b r c) EMPTY); [discriminate |].
  rewrite (jsonCopy_wf b Hwf). now intros [= <-].
Qed.

Lemma isPlayer_not_EMPTY (p : value) : isPlayer p = true -> p <> EMPTY.
Proof. intros H. destruct (isPlayer_cases p H); subst; discriminate. Qed.

(** X4: a move accepted by [isValidMove] is applied by
    [getResultingBoard]: the answer is a well-formed board with the target
    held by the player, and the target is then a valid move for neither
    side.  Conversely, on an Empty target inside the board
    [getResultingBoard] answers with a board only if [isValidMove] accepts
    the move. *)
Theorem isValidMove_getResultingBoard (b : Board) (p : value) (r c : Z) :
  wf_board b -> isPlayer p = true ->
  (isValidMove b p r c = true ->
   exists nb,
     getResultingBoard b p r c = Some nb /\ wf_board nb /\
     cellAt nb r c = p /\
     isValidMove nb p r c = false /\
     isValidMove nb (opponentOf p) r c = false) /\
  (inBoard r c = true -> cellAt b r c = EMPTY ->
   getResultingBoard b p r c <> None -> isValidMove b p r c = true).
Proof.
  intros Hwf Hp. pose proof (isPlayer_truthy p Hp) as Ht. split.
  - intros Hvalid. apply isValidMove_legal in Hvalid; [| exact Ht].
    destruct Hvalid as (Hin & He & Hf). cbn [row col] in *.
    destruct (getResultingBoard_places_and_flips b p r c Hwf Hp Hin He Hf)
      as (nb & Hnb & Hwf' & Htarget & _).
    exists nb. repeat apply conj; auto.
    + destruct (isValidMove nb p r c) eqn:Hv; [| reflexivity].
      apply isValidMove_legal in Hv; [| exact Ht].
      destruct Hv as (_ & He' & _). cbn [row col] in He'.
      rewrite Htarget in He'. now apply isPlayer_not_EMPTY in Hp.
    + destruct (isValidMove nb (opponentOf p) r c) eqn:Hv; [| reflexivity].
      apply isValidMove_legal in Hv;
        [| apply isPlayer_truthy, opponentOf_isPlayer].
      destruct Hv as (_ & He' & _). cbn [row col] in He'.
      rewrite Htarget in He'. now apply isPlayer_not_EMPTY in Hp.
  - intros Hin He Hsome. apply isValidMove_legal; [exact Ht |].
    repeat split; auto. cbn [row col]. intros Hnil. apply Hsome.
    apply getResultingBoard_None. auto.
Qed.

Lemma isValidMove_getResultingBoard_witness :
  (isValidMove initialBoard BLACK 2 3 = true ->
   exists nb,
     getResultingBoard initialBoard BLACK 2 3 = Some nb /\ wf_board nb /\
     cellAt nb 2 3 = BLACK /\
     isValidMove nb BLACK 2 3 = false /\
     isValidMove nb (opponentOf BLACK) 2 3 = false) /\
  (inBoard 2 3 = true -> cellAt initialBoard 2 3 = EMPTY ->
   getResultingBoard initialBoard BLACK 2 3 <> None ->
   isValidMove initialBoard BLACK 2 3 = true).
Proof. apply isValidMove_getResultingBoard; reflexivity. Defined.

(** X5: whenever [getResultingBoard] answers with a board (the occupied
    target it accepts included), the board is well formed, the target holds
    the player, and no cell that held a piece has become Empty. *)
Theorem getResultingBoard_keeps_pieces (b : Board) (p : value) (r c : Z)
    (nb : Board) :
  wf_board b -> isPlayer p = true -> inBoard r c = true ->
  getResultingBoard b p r c = Some nb ->
  wf_board nb /\ cellAt nb r c = p /\
  forall r' c', cellAt b r' c' <> EMPTY -> cellAt nb r' c' <> EMPTY.
Proof.
  intros Hwf Hp Hin Hnb. apply getResultingBoard_Some in Hnb; [| exact Hwf].
  subst nb. pose proof (isPlayer_isCell p Hp) as Hcell.
  pose proof (isPlayer_not_EMPTY p Hp) as Hne.
  split; [| split].
  - apply wf_board_flipAll; [now apply wf_board_setCell | exact Hcell].
  - rewrite cellAt_flipAll_other by apply getFlippablePieces_not_target.
    now apply cellAt_setCell_same.
  - intros r' c' Hocc.
    destruct (cellAt_flipAll_cases (setCell b r c p) p
                (getFlippablePieces b p r c) r' c') as [-> | ->]; [exact Hne |].
    destruct (cellAt_setCell_cases b r c r' c' p) as [-> | ->]; assumption.
Qed.

Lemma getResultingBoard_keeps_pieces_witness :
  wf_board (setCell initialBoard 3 3 BLACK) /\
  cellAt (setCell initialBoard 3 3 BLACK) 3 3 = BLACK /\
  forall r' c', cellAt initialBoard r' c' <> EMPTY ->
                cellAt (setCell initialBoard 3 3 BLACK) r' c' <> EMPTY.
Proof.
  apply (getResultingBoard_keeps_pieces initialBoard BLACK 3 3);
    reflexivity.
Defined.

(** ** Sums over the board *)

Lemma sumZ_le (f g : Z -> Z) (l : list Z) :
  (forall i, In i l -> f i <= g i) -> sumZ (map f l) <= sumZ (map g l).
Proof.
  induction l as [| i l IH]; intros H; simpl; [lia |].
  assert (f i <= g i) by (apply H; now left).
  assert (sumZ (map f l) <= sumZ (map g l))
    by (apply IH; intros j Hj; apply H; now right).
  unfold sumZ in *. lia.
Qed.

Lemma sumZ_add (f g : Z -> Z) (l : list Z) :
  sumZ (map (fun i => f i + g i) l) = sumZ (map f l) + sumZ (map g l).
Proof.
  induction l as [| i l IH]; simpl; [reflexivity |].
  unfold sumZ in *. simpl. lia.
Qed.

Lemma boardSum_ext (f g : Z -> Z -> Z) :
  (forall r c, inBoard r c = true -> g r c = f r c) ->
  boardSum g = boardSum f.
Proof.
  intros H. unfold boardSum. apply sumZ_ext. intros r Hr.
  apply sumZ_ext. intros c Hc. apply In_indices in Hr, Hc.
  apply H. apply inBoard_spec. lia.
Qed.

Lemma boardSum_le (f g : Z -> Z -> Z) :
  (forall r c, inBoard r c = true -> f r c <= g r c) ->
  boardSum f <= boardSum g.
Proof.
  intros H. unfold boardSum. apply sumZ_le. intros r Hr.
  apply sumZ_le. intros c Hc. apply In_indices in Hr, Hc.
  apply H. apply inBoard_spec. lia.
Qed.

Lemma boardSum_add (f g : Z -> Z -> Z) :
  boardSum (fun r c => f r c + g r c) = boardSum f + boardSum g.
Proof.
  unfold boardSum.
  rewrite <- (sumZ_add (fun r => sumZ (map (f r) indices))
                       (fun r => sumZ (map (g r) indices))).
  apply sumZ_ext. intros r _. apply sumZ_add.
Qed.

Lemma countColor_range (b : Board) (u : value) : 0 <= countColor b u <= 64.
Proof.
  rewrite countColor_boardSum.
  set (f := fun r c => if strictEq (cellAt b r c) u then 1 else 0).
  assert (Hlo : boardSum (fun _ _ => 0) <= boardSum f).
  { apply boardSum_le. intros r c _. unfold f.
    destruct (strictEq (cellAt b r c) u); lia. }
  assert (Hhi : boardSum f <= boardSum (fun _ _ => 1)).
  { apply boardSum_le. intros r c _. unfold f.
    destruct (strictEq (cellAt b r c) u); lia. }
  change (boardSum (fun _ _ => 0)) with 0 in Hlo.
  change (boardSum (fun _ _ => 1)) with 64 in Hhi. lia.
Qed.

Lemma countColor_partition (b : Board) :
  wf_board b ->
  countColor b EMPTY + countColor b BLACK + countColor b WHITE = 64.
Proof.
  intros Hwf. rewrite !countColor_boardSum, <- !boardSum_add.
  transitivity (boardSum (fun _ _ => 1)); [| reflexivity].
  apply boardSum_ext.
  intros r c Hin. pose proof (cellAt_isCell b r c Hwf Hin) as Hcell.
  unfold isCell in Hcell. apply orb_true_iff in Hcell.
  destruct Hcell as [Hcell | Hcell];
    [apply orb_true_iff in Hcell; destruct Hcell as [Hcell | Hcell] |];
    apply strictEq_eq in Hcell; rewrite Hcell; reflexivity.
Qed.

(** X6: on a well-formed board the three counts of [updateInfo] and
    [endGame] account for every cell: Empty, Black and White cells add up
    to 64, so the two scores add up to at most 64. *)
Theorem cell_counts_total (b : Board) :
  wf_board b ->
  countColor b EMPTY + countColor b BLACK + countColor b WHITE = 64 /\
  0 <= countColor b BLACK /\ 0 <= countColor b WHITE /\
  totalPieces b = 64 - countColor b EMPTY /\ totalPieces b <= 64.
Proof.
  intros Hwf. pose proof (countColor_partition b Hwf).
  pose proof (countColor_range b EMPTY). pose proof (countColor_range b BLACK).
  pose proof (countColor_range b WHITE). unfold totalPieces. lia.
Qed.

Lemma cell_counts_total_witness :
  countColor boardAfterOpening EMPTY + countColor boardAfterOpening BLACK
  + countColor boardAfterOpening WHITE = 64 /\
  0 <= countColor boardAfterOpening BLACK /\
  0 <= countColor boardAfterOpening WHITE /\
  totalPieces boardAfterOpening = 64 - countColor boardAfterOpening EMPTY /\
  totalPieces boardAfterOpening <= 64.
Proof. apply cell_counts_total. reflexivity. Defined.

(** Flipping pieces does not change the count of a colour that is neither
    written nor overwritten. *)
Lemma countColor_flipAll_other (p u : value) (l : list Move) :
  isCell p = true -> u <> p ->
  forall nb : Board,
    wf_board nb ->
    (forall m, In m l -> inBoard (row m) (col m) = true /\
                         cellAt nb (row m) (col m) <> u) ->
    countColor (flipAll nb p l) u = countColor nb u.
Proof.
  intros Hp Hup. induction l as [| a l IH]; intros nb Hwf Hcells;
    [reflexivity |].
  destruct (Hcells a) as [Hina Hua]; [now left |].
  change (flipAll nb p (a :: l))
    with (flipAll (setCell nb (row a) (col a) p) p l).
  rewrite IH.
  - rewrite countColor_setCell by assumption.
    assert (H1 : strictEq p u = false) by (apply strictEq_neq; congruence).
    assert (H2 : strictEq (cellAt nb (row a) (col a)) u = false)
      by now apply strictEq_neq.
    rewrite H1, H2. lia.
  - now apply wf_board_setCell.
  - intros m Hm. destruct (Hcells m) as [Hinm Hum]; [now right |].
    split; [exact Hinm |].
    destruct (cellAt_setCell_cases nb (row a) (col a) (row m) (col m) p)
      as [-> | ->]; congruence.
Qed.

Lemma legal_move_empty_count (b : Board) (p : value) (r c : Z) :
  wf_board b -> isPlayer p = true -> legalMove b p (mkMove r c) ->
  exists nb,
    getResultingBoard b p r c = Some nb /\ wf_board nb /\
    countColor nb EMPTY = countColor b EMPTY - 1.
Proof.
  intros Hwf Hp (Hin & He & Hf). cbn [row col] in *.
  pose proof (isPlayer_isCell p Hp) as Hcell.
  pose proof (isPlayer_not_EMPTY p Hp) as Hne.
  assert (Hwf' : wf_board (setCell b r c p)) by now apply wf_board_setCell.
  eexists. split; [now apply getResultingBoard_legal |].
  split; [now apply wf_board_flipAll |].
  rewrite countColor_flipAll_other; auto.
  - rewrite countColor_setCell by assumption.
    rewrite He, strictEq_refl.
    assert (H1 : strictEq p EMPTY = false) by now apply strictEq_neq.
    rewrite H1. lia.
  - intros m Hm. destruct (flippable_cell_after_target b p r c m Hm) as [H1 H2].
    split; [exact H1 |]. rewrite H2.
    apply isPlayer_not_EMPTY, opponentOf_isPlayer.
Qed.

(** X7: a legal move fills exactly one Empty cell: the number of Empty
    cells of the resulting board is one less than before. *)
Theorem getResultingBoard_fills_one_cell (b : Board) (p : value) (r c : Z) :
  wf_board b -> isPlayer p = true -> isValidMove b p r c = true ->
  exists nb,
    getResultingBoard b p r c = Some nb /\
    countColor nb EMPTY = countColor b EMPTY - 1.
Proof.
  intros Hwf Hp Hvalid.
  apply isValidMove_legal in Hvalid; [| now apply isPlayer_truthy].
  destruct (legal_move_empty_count b p r c Hwf Hp Hvalid)
    as (nb & Hnb & _ & Hcount).
  exists nb. auto.
Qed.

Lemma getResultingBoard_fills_one_cell_witness :
  exists nb,
    getResultingBoard initialBoard BLACK 2 3 = Some nb /\
    countColor nb EMPTY = countColor initialBoard EMPTY - 1.
Proof. apply getResultingBoard_fills_one_cell; reflexivity. Defined.

Lemma length_flat_map_sumZ {A : Type} (f : Z -> list A) (l : list Z) :
  Z.of_nat (length (flat_map f l)) =
  sumZ (map (fun i => Z.of_nat (length (f i))) l).
Proof.
  induction l as [| i l IH]; simpl; [reflexivity |].
  rewrite length_app, Nat2Z.inj_add, IH. reflexivity.
Qed.

Lemma getValidMoves_length_le_empty (b : Board) (p : value) :
  Z.of_nat (length (getValidMoves b p)) <= countColor b EMPTY.
Proof.
  unfold getValidMoves. destruct (negb (truthy p)).
  - apply countColor_range.
  - rewrite length_flat_map_sumZ, countColor_boardSum. unfold boardSum.
    apply sumZ_le. intros r _. rewrite length_flat_map_sumZ.
    apply sumZ_le. intros c _.
    destruct (strictEq (cellAt b r c) EMPTY); [| simpl; lia].
    destruct (0 <? length (getFlippablePieces b p r c))%nat; simpl; lia.
Qed.

(** X8: a player never has more legal moves than there are Empty cells; in
    particular nobody can move on a full board. *)
Theorem getValidMoves_at_most_empty_cells (b : Board) (p : value) :
  wf_board b ->
  Z.of_nat (length (getValidMoves b p)) <= countColor b EMPTY /\
  (countColor b EMPTY = 0 -> getValidMoves b p = []).
Proof.
  intros _. pose proof (getValidMoves_length_le_empty b p) as Hle.
  split; [exact Hle |]. intros H0.
  destruct (getValidMoves b p); [reflexivity | simpl in Hle; lia].
Qed.

Lemma getValidMoves_at_most_empty_cells_witness :
  Z.of_nat (length (getValidMoves passBoard WHITE))
  <= countColor passBoard EMPTY /\
  (countColor passBoard EMPTY = 0 -> getValidMoves passBoard WHITE = []).
Proof. apply getValidMoves_at_most_empty_cells. reflexivity. Defined.

(** ** The range of the static evaluation *)

Lemma positionScore_boardSum (b : Board) (p o : value) :
  fold_left (fun acc r => fold_left (positionStep b p o r) indices acc)
            indices 0 =
  boardSum (fun r c =>
              if strictEq (cellAt b r c) p then valueAt r c
              else if strictEq (cellAt b r c) o then - valueAt r c
              else 0).
Proof.
  unfold boardSum.
  rewrite (fold_left_add _
             (fun r => sumZ (map (fun c =>
                if strictEq (cellAt b r c) p then valueAt r c
                else if strictEq (cellAt b r c) o then - valueAt r c
                else 0) indices))).
  - lia.
  - intros acc r. apply fold_left_add. intros acc' c. unfold positionStep.
    destruct (strictEq (cellAt b r c) p); [lia |].
    destruct (strictEq (cellAt b r c) o); lia.
Qed.

Lemma evaluateBoard_range (b : Board) (p : value) :
  -664 <= evaluateBoard b p <= 664.
Proof.
  unfold evaluateBoard. rewrite positionScore_boardSum.
  pose proof (getValidMoves_length_le_empty b p) as H1.
  pose proof (getValidMoves_length_le_empty b (opponentOf p)) as H2.
  pose proof (countColor_range b EMPTY) as H3.
  set (pos := boardSum _).
  assert (Hhi : pos <= boardSum (fun r c => Z.abs (valueAt r c))).
  { apply boardSum_le. intros r c _.
    destruct (strictEq (cellAt b r c) p); [lia |].
    destruct (strictEq (cellAt b r c) (opponentOf p)); lia. }
  assert (Hlo : boardSum (fun r c => - Z.abs (valueAt r c)) <= pos).
  { apply boardSum_le. intros r c _.
    destruct (strictEq (cellAt b r c) p); [lia |].
    destruct (strictEq (cellAt b r c) (opponentOf p)); lia. }
  change (boardSum (fun r c => Z.abs (valueAt r c))) with 344 in Hhi.
  change (boardSum (fun r c => - Z.abs (valueAt r c))) with (-344) in Hlo.
  lia.
Qed.

(** X9: the static evaluation always lies between -664 and 664 (at most
    344 from the position table and 5 * 64 from mobility): every score is a
    small integer, exactly representable as a JavaScript number. *)
Theorem evaluateBoard_bounded (b : Board) (p : value) :
  wf_board b -> -664 <= evaluateBoard b p <= 664.
Proof. intros _. apply evaluateBoard_range. Qed.

Lemma evaluateBoard_bounded_witness :
  -664 <= evaluateBoard boardAfterOpening WHITE <= 664.
Proof. apply evaluateBoard_bounded. reflexivity. Defined.

(** * Further properties of the search *)

(** X10: in any window [alpha < beta] and at any depth the search returns
    without throwing, and its score is a fail-soft bound of the brute-force
    minimax value: a score at or below [alpha] is an upper bound, a score
    at or above [beta] is a lower bound, and a score strictly inside the
    window is the minimax value itself. *)
Theorem alphaBetaSearch_window (d : nat) (b : Board) (p : value)
    (alpha beta : number) (flag : bool) (root : value) :
  wf_board b -> num_lt alpha beta ->
  exists res,
    alphaBetaSearch d b p alpha beta flag root = Some res /\
    (num_le (score res) alpha ->
     num_le (Finite (minimax d b p flag root)) (score res)) /\
    (num_le beta (score res) ->
     num_le (score res) (Finite (minimax d b p flag root))) /\
    (num_lt alpha (score res) -> num_lt (score res) beta ->
     score res = Finite (minimax d b p flag root)).
Proof.
  intros _ Hwin.
  destruct (alphaBetaSearch_sound d b p alpha beta flag root Hwin)
    as (res & Hres & Hlo & Hhi & Hin).
  exists res. repeat apply conj; auto.
  intros H1 H2. destruct (Hin H1 H2). now apply num_le_antisym.
Qed.

Lemma alphaBetaSearch_window_witness :
  exists res,
    alphaBetaSearch 2 initialBoard BLACK (Finite (-3)) (Finite 5) true BLACK
    = Some res /\
    (num_le (score res) (Finite (-3)) ->
     num_le (Finite (minimax 2 initialBoard BLACK true BLACK)) (score res)) /\
    (num_le (Finite 5) (score res) ->
     num_le (score res) (Finite (minimax 2 initialBoard BLACK true BLACK))) /\
    (num_lt (Finite (-3)) (score res) -> num_lt (score res) (Finite 5) ->
     score res = Finite (minimax 2 initialBoard BLACK true BLACK)).
Proof. apply alphaBetaSearch_window; reflexivity. Defined.

(** X11: with the full window the score is the brute-force minimax value,
    at every depth, for the maximizing and for the minimizing side, passes
    included; and the result carries no move exactly at a leaf (depth 0, or
    neither side can move). *)
Theorem alphaBetaSearch_full_window (d : nat) (b : Board) (p : value)
    (flag : bool) (root : value) :
  wf_board b ->
  exists res,
    alphaBetaSearch d b p NegInfinity Infinity flag root = Some res /\
    score res = Finite (minimax d b p flag root) /\
    (move res = None <->
     d = O \/
     (getValidMoves b p = [] /\ getValidMoves b (opponentOf p) = [])).
Proof.
  intros _.
  destruct (alphaBetaSearch_sound d b p NegInfinity Infinity flag root
              num_lt_full_window) as (res & Hres & Hb).
  apply withinBounds_exact in Hb.
  exists res. split; [exact Hres |]. split; [exact Hb |].
  destruct d as [| d].
  - injection Hres as <-. simpl. tauto.
  - cbn [alphaBetaSearch] in Hres.
    destruct (getValidMoves b p) as [| m ms] eqn:Hvm.
    + destruct (getValidMoves b (opponentOf p)) as [| r rs] eqn:Hop;
        cbn [length Nat.eqb andb] in Hres.
      * injection Hres as <-. simpl. tauto.
      * destruct (searchNode_sound (alphaBetaSearch d)
                    (fun f nb =>
                       minimax d nb (opponentOf (opponentOf p)) f root)
                    b (opponentOf p) root (negb flag) (r :: rs)
                    NegInfinity Infinity)
          as (res' & Hres' & Hb' & Hmove).
        -- intros nb a be f Hlt. now apply alphaBetaSearch_sound.
        -- discriminate.
        -- intros x Hx. apply getValidMoves_applicable. now rewrite Hop.
        -- apply num_lt_full_window.
        -- rewrite Hres in Hres'. injection Hres' as <-.
           apply withinBounds_exact in Hb'.
           destruct Hmove as (bm & Hbm & _); [now rewrite Hb' | now rewrite Hb' |].
           rewrite Hbm. split; [discriminate |].
           intros [H | [_ H]]; discriminate.
    + cbn [length Nat.eqb andb] in Hres.
      destruct (searchNode_sound (alphaBetaSearch d)
                  (fun f nb => minimax d nb (opponentOf p) f root)
                  b p root flag (m :: ms) NegInfinity Infinity)
        as (res' & Hres' & Hb' & Hmove).
      * intros nb a be f Hlt. now apply alphaBetaSearch_sound.
      * discriminate.
      * intros x Hx. apply getValidMoves_applicable. now rewrite Hvm.
      * apply num_lt_full_window.
      * rewrite Hres in Hres'. injection Hres' as <-.
        apply withinBounds_exact in Hb'.
        destruct Hmove as (bm & Hbm & _); [now rewrite Hb' | now rewrite Hb' |].
        rewrite Hbm. split; [discriminate |].
        intros [H | [H _]]; discriminate.
Qed.

Lemma alphaBetaSearch_full_window_witness :
  exists res,
    alphaBetaSearch 3 passBoard BLACK NegInfinity Infinity false WHITE
    = Some res /\
    score res = Finite (minimax 3 passBoard BLACK false WHITE) /\
    (move res = None <->
     3%nat = O \/
     (getValidMoves passBoard BLACK = [] /\
      getValidMoves passBoard (opponentOf BLACK) = [])).
Proof. apply alphaBetaSearch_full_window. reflexivity. Defined.

(** ** The range of the scores of the search *)

Section LoopRange.

Variable search :
  Board -> value -> number -> number -> bool -> value -> option SearchResult.
Variables (b : Board) (q o root : value).

Hypothesis Hsearch : forall nb a be f,
  exists res, search nb o a be f root = Some res /\ inRange (score res).

Lemma inRange_better_max (maxEval s : number) :
  maxEval = NegInfinity \/ inRange maxEval -> inRange s ->
  inRange (if num_ltb maxEval s then s else maxEval).
Proof.
  intros [-> | Hm] Hs.
  - destruct Hs as (z & -> & Hz). simpl. now exists z.
  - destruct (num_ltb maxEval s); assumption.
Qed.

Lemma inRange_better_min (minEval s : number) :
  minEval = Infinity \/ inRange minEval -> inRange s ->
  inRange (if num_ltb s minEval then s else minEval).
Proof.
  intros [-> | Hm] Hs.
  - destruct Hs as (z & -> & Hz). simpl. now exists z.
  - destruct (num_ltb s minEval); assumption.
Qed.

Lemma maximizingLoop_range (beta : number) :
  forall (moves : list Move) (alpha maxEval : number) (bestMove : Move),
    (forall m, In m moves -> getResultingBoard b q (row m) (col m) <> None) ->
    maxEval = NegInfinity \/ inRange maxEval ->
    moves <> [] \/ inRange maxEval ->
    exists res,
      maximizingLoop search b q o root beta moves alpha maxEval bestMove
      = Some res /\ inRange (score res).
Proof.
  induction moves as [| m rest IH]; intros alpha maxEval bestMove Happ Hm Hne.
  - destruct Hne as [Hne | Hr]; [congruence |].
    eexists. split; [reflexivity | exact Hr].
  - cbn [maximizingLoop].
    rewrite searchChild_applyMove by (apply Happ; now left).
    destruct (Hsearch (applyMove b q m) alpha beta false) as (res & -> & Hs).
    pose proof (inRange_better_max maxEval (score res) Hm Hs) as Hr.
    destruct (num_leb beta (num_max alpha (score res))).
    + eexists. split; [reflexivity | exact Hr].
    + apply IH; auto. intros x Hx. apply Happ. now right.
Qed.

Lemma minimizingLoop_range (alpha : number) :
  forall (moves : list Move) (beta minEval : number) (bestMove : Move),
    (forall m, In m moves -> getResultingBoard b q (row m) (col m) <> None) ->
    minEval = Infinity \/ inRange minEval ->
    moves <> [] \/ inRange minEval ->
    exists res,
      minimizingLoop search b q o root alpha moves beta minEval bestMove
      = Some res /\ inRange (score res).
Proof.
  induction moves as [| m rest IH]; intros beta minEval bestMove Happ Hm Hne.
  - destruct Hne as [Hne | Hr]; [congruence |].
    eexists. split; [reflexivity | exact Hr].
  - cbn [minimizingLoop].
    rewrite searchChild_applyMove by (apply Happ; now left).
    destruct (Hsearch (applyMove b q m) alpha beta true) as (res & -> & Hs).
    pose proof (inRange_better_min minEval (score res) Hm Hs) as Hr.
    destruct (num_leb (num_min beta (score res)) alpha).
    + eexists. split; [reflexivity | exact Hr].
    + apply IH; auto. intros x Hx. apply Happ. now right.
Qed.

Lemma searchNode_range (moves : list Move) (alpha beta : number)
    (flag : bool) :
  moves <> [] ->
  (forall m, In m moves -> getResultingBoard b q (row m) (col m) <> None) ->
  exists res,
    searchNode search b q o root moves alpha beta flag = Some res /\
    inRange (score res).
Proof.
  intros Hne Happ. destruct moves as [| first rest]; [congruence |].
  unfold searchNode. destruct flag.
  - apply maximizingLoop_range; auto.
  - apply minimizingLoop_range; auto.
Qed.

End LoopRange.

Lemma alphaBetaSearch_range :
  forall (d : nat) (b : Board) (p : value) (alpha beta : number)
         (flag : bool) (root : value),
    exists res,
      alphaBetaSearch d b p alpha beta flag root = Some res /\
      inRange (score res).
Proof.
  induction d as [| d IH]; intros b p alpha beta flag root.
  - eexists. split; [reflexivity |]. eexists. split; [reflexivity |].
    apply evaluateBoard_range.
  - cbn [alphaBetaSearch].
    destruct (getValidMoves b p) as [| m ms] eqn:Hvm.
    + destruct (getValidMoves b (opponentOf p)) as [| r rs] eqn:Hop;
        cbn [length Nat.eqb andb].
      * eexists. split; [reflexivity |]. eexists. split; [reflexivity |].
        apply evaluateBoard_range.
      * apply searchNode_range.
        -- intros nb a be f. apply IH.
        -- discriminate.
        -- intros x Hx. apply getValidMoves_applicable. now rewrite Hop.
    + cbn [length Nat.eqb andb]. apply searchNode_range.
      * intros nb a be f. apply IH.
      * discriminate.
      * intros x Hx. apply getValidMoves_applicable. now rewrite Hvm.
Qed.

(** X12: whatever the window, even an empty one, the search returns
    without throwing and its score is never an infinity: it is an integer
    between -664 and 664. *)
Theorem alphaBetaSearch_score_bounded (d : nat) (b : Board) (p : value)
    (alpha beta : number) (flag : bool) (root : value) :
  wf_board b ->
  exists res z,
    alphaBetaSearch d b p alpha beta flag root = Some res /\
    score res = Finite z /\ -664 <= z <= 664.
Proof.
  intros _.
  destruct (alphaBetaSearch_range d b p alpha beta flag root)
    as (res & Hres & z & Hz & Hrange).
  exists res, z. auto.
Qed.

Lemma alphaBetaSearch_score_bounded_witness :
  exists res z,
    alphaBetaSearch 2 initialBoard BLACK Infinity NegInfinity false WHITE
    = Some res /\
    score res = Finite z /\ -664 <= z <= 664.
Proof. apply alphaBetaSearch_score_bounded. reflexivity. Defined.

(** ** Ties at a maximizing node *)

Lemma num_le_max_r : forall a b : number, num_le b (num_max a b).
Proof. num_crush. Qed.

Lemma num_le_or_lt : forall a b : number, num_le a b \/ num_lt b a.
Proof. num_crush. Qed.

Lemma num_le_lt_Finite : forall (x y : Z) (s t : number),
  num_le (Finite x) s -> num_le s t -> num_lt t (Finite y) -> x < y.
Proof. num_crush. Qed.

Lemma num_le_Finite (x y : Z) : num_le (Finite x) (Finite y) -> x <= y.
Proof. unfold num_le. simpl. lia. Qed.

Section FirstBest.

Variable search :
  Board -> value -> number -> number -> bool -> value -> option SearchResult.
Variables (b : Board) (q o root : value).
Variable childValue : Board -> Z.

Local Abbreviation valueOf := (moveValue b q childValue).

Hypothesis Hsearch : forall nb alpha beta,
  num_lt alpha beta ->
  exists res,
    search nb o alpha beta false root = Some res /\
    withinBounds alpha beta (score res) (Finite (childValue nb)).

(** [done] lists the moves already examined, in order; [bestMove] is the
    first of them that reaches [maxEval]. *)
Lemma maximizingLoop_first_best (alpha0 beta : number) :
  forall (moves done : list Move) (maxEval seen : number) (bestMove : Move),
    (forall m, In m moves -> getResultingBoard b q (row m) (col m) <> None) ->
    num_lt (num_max alpha0 maxEval) beta ->
    (num_le maxEval alpha0 -> num_le seen maxEval) ->
    (num_lt alpha0 maxEval -> num_le seen maxEval /\ num_le maxEval seen) ->
    (forall x, In x done -> num_le (Finite (valueOf x)) seen) ->
    (num_lt alpha0 maxEval ->
     exists pre post,
       done = pre ++ bestMove :: post /\
       maxEval = Finite (valueOf bestMove) /\
       forall x, In x pre -> valueOf x < valueOf bestMove) ->
    exists res,
      maximizingLoop search b q o root beta moves
                     (num_max alpha0 maxEval) maxEval bestMove = Some res /\
      (num_lt alpha0 (score res) -> num_lt (score res) beta ->
       exists bm pre post,
         done ++ moves = pre ++ bm :: post /\
         move res = Some bm /\
         score res = Finite (valueOf bm) /\
         (forall x, In x pre -> valueOf x < valueOf bm) /\
         (forall x, In x post -> valueOf x <= valueOf bm)).
Proof.
  induction moves as [| m rest IH];
    intros done maxEval seen bestMove Happ Hwin Hup Hex Hseen Hbest.
  - eexists. split; [reflexivity |]. cbn [score move].
    intros Hlo _. destruct (Hbest Hlo) as (pre & post & Hdone & Hmax & Hpre).
    exists bestMove, pre, post. rewrite app_nil_r.
    repeat apply conj; auto.
    intros x Hx. apply num_le_Finite. rewrite <- Hmax.
    destruct (Hex Hlo) as [Hle _].
    eapply num_le_trans; [| exact Hle].
    apply Hseen. rewrite Hdone. apply in_or_app. right. now right.
  - cbn [maximizingLoop].
    rewrite searchChild_applyMove by (apply Happ; now left).
    destruct (Hsearch (applyMove b q m) _ _ Hwin) as (res & -> & Hres).
    fold (valueOf m) in Hres. rewrite num_max_if.
    destruct (num_leb beta (num_max (num_max alpha0 maxEval) (score res)))
      eqn:Hcut.
    + eexists. split; [reflexivity |]. cbn [score move].
      destruct (max_cutoff alpha0 beta maxEval seen (score res)
                  (num_max seen (Finite (valueOf m))) (valueOf m)
                  Hwin Hup Hex Hres Hcut (num_le_refl _)) as [_ Hge].
      intros _ Hlt. exfalso. eapply num_lt_not_le; eassumption.
    + destruct (max_continue alpha0 beta maxEval seen (score res)
                  (valueOf m) Hwin Hup Hex Hres Hcut)
        as (Hwin' & Hup' & Hex' & Hbetter & Hsame).
      rewrite num_max_assoc.
      destruct (IH (done ++ [m]) (num_max maxEval (score res))
                   (num_max seen (Finite (valueOf m)))
                   (if num_ltb maxEval (score res) then m else bestMove))
        as (res' & Hres' & Hfinal); auto.
      * intros x Hx. apply Happ. now right.
      * intros x Hx. apply in_app_or in Hx. destruct Hx as [Hx | [<- | []]].
        -- eapply num_le_trans; [now apply Hseen | apply num_le_max_l].
        -- apply num_le_max_r.
      * intros Hlo. destruct (num_ltb maxEval (score res)) eqn:Hb.
        -- destruct (Hbetter eq_refl Hlo) as (H1 & H2 & H3 & H4).
           pose proof (num_le_antisym _ _ H1 H2) as Hs.
           exists done, []. split; [reflexivity |].
           split; [rewrite <- (num_le_antisym _ _ H3 H4); exact Hs |].
           intros x Hx.
           assert (Hsm : num_le seen maxEval).
           { destruct (num_le_or_lt maxEval alpha0) as [H | H];
               [now apply Hup | now destruct (Hex H)]. }
           apply (num_le_lt_Finite _ _ seen maxEval); auto.
           rewrite <- Hs. exact Hb.
        -- destruct (Hsame eq_refl Hlo) as (H1 & H2 & H3).
           destruct (Hbest H1) as (pre & post & Hdone & Hmax & Hpre).
           exists pre, (post ++ [m]). split; [| split].
           ++ rewrite Hdone, <- app_assoc. reflexivity.
           ++ rewrite <- (num_le_antisym _ _ H2 H3). exact Hmax.
           ++ exact Hpre.
      * exists res'. split; [exact Hres' |].
        intros H1 H2. destruct (Hfinal H1 H2) as (bm & pre & post & Heq & Hrest).
        exists bm, pre, post. split; [| exact Hrest].
        rewrite <- Heq, <- app_assoc. reflexivity.
Qed.

End FirstBest.

Lemma StronglySorted_split_lt {A : Type} (key : A -> Z) (pre post : list A)
    (x : A) :
  StronglySorted (fun a a' => key a < key a') (pre ++ x :: post) ->
  forall y, In y post -> key x < key y.
Proof.
  induction pre as [| a pre IH]; simpl; intros Hs y Hy.
  - apply StronglySorted_inv in Hs. destruct Hs as [_ Hall].
    rewrite Forall_forall in Hall. apply Hall. now apply list_elem_of_In.
  - apply StronglySorted_inv in Hs. destruct Hs as [Hs _]. now apply IH.
Qed.

Lemma alphaBetaSearch_first_best (d : nat) (b : Board) (p : value) :
  truthy p = true -> getValidMoves b p <> [] ->
  exists res mv,
    alphaBetaSearch (S d) b p NegInfinity Infinity true p = Some res /\
    move res = Some mv /\
    legalMove b p mv /\
    (forall m, legalMove b p m ->
               rootMoveScore (S d) b p m <= rootMoveScore (S d) b p mv) /\
    (forall m, legalMove b p m -> moveIndex m < moveIndex mv ->
               rootMoveScore (S d) b p m < rootMoveScore (S d) b p mv).
Proof.
  intros Ht Hne.
  destruct (alphaBetaSearch_range (S d) b p NegInfinity Infinity true p)
    as (res & Hres & z & Hz & _).
  exists res. rewrite Hres. cbn [alphaBetaSearch] in Hres.
  pose proof (getValidMoves_sorted b p) as Hsorted.
  destruct (getValidMoves b p) as [| first rest] eqn:Hvm; [congruence |].
  cbn [length Nat.eqb andb searchNode] in Hres.
  destruct (maximizingLoop_first_best (alphaBetaSearch d) b p (opponentOf p) p
              (fun nb => minimax d nb (opponentOf p) false p)
              (fun nb a be Hlt =>
                 alphaBetaSearch_sound d nb (opponentOf p) a be false p Hlt)
              NegInfinity Infinity (first :: rest) [] NegInfinity NegInfinity
              first)
    as (res' & Hres' & Hfinal).
  - intros x Hx. apply getValidMoves_applicable. now rewrite Hvm.
  - reflexivity.
  - intros _. apply num_le_refl.
  - intros H. now apply num_lt_NegInfinity in H.
  - intros x [].
  - intros H. now apply num_lt_NegInfinity in H.
  - cbn [num_max] in Hres'. rewrite Hres in Hres'. injection Hres' as <-.
    destruct Hfinal as (bm & pre & post & Heq & Hmove & _ & Hpre & Hpost);
      [now rewrite Hz | now rewrite Hz |].
    cbn [app] in Heq. exists bm.
    assert (Hin : forall m, legalMove b p m -> In m (pre ++ bm :: post)).
    { intros m Hm. rewrite <- Heq, <- Hvm. now apply getValidMoves_In. }
    split; [reflexivity |]. split; [exact Hmove |]. split; [| split].
    + apply (getValidMoves_In b p bm Ht). rewrite Hvm, Heq.
      apply in_or_app. right. now left.
    + intros m Hm. apply Hin in Hm. apply in_app_or in Hm.
      destruct Hm as [Hm | [<- | Hm]].
      * apply Z.lt_le_incl. now apply Hpre.
      * apply Z.le_refl.
      * now apply Hpost.
    + intros m Hm Hidx. apply Hin in Hm. apply in_app_or in Hm.
      destruct Hm as [Hm | [<- | Hm]].
      * now apply Hpre.
      * lia.
      * rewrite Heq in Hsorted.
        pose proof (StronglySorted_split_lt moveIndex pre post bm Hsorted m Hm).
        lia.
Qed.

(** X13: for a player who has a legal move, [findBestMove] (depth 4, full
    window) returns a legal move of that player whose brute-force minimax
    score is the best of all legal moves, and among the moves of that best
    score it returns the first in row-major order: every legal move that
    comes earlier on the board has a strictly smaller score. *)
Theorem findBestMove_first_best_move (b : Board) (p : value) :
  wf_board b -> isPlayer p = true -> getValidMoves b p <> [] ->
  exists mv,
    findBestMove b p = Some (Some mv) /\
    legalMove b p mv /\
    (forall m, legalMove b p m ->
               rootMoveScore searchDepth b p m
               <= rootMoveScore searchDepth b p mv) /\
    (forall m, legalMove b p m -> moveIndex m < moveIndex mv ->
               rootMoveScore searchDepth b p m
               < rootMoveScore searchDepth b p mv).
Proof.
  intros _ Hp Hne. unfold findBestMove, searchDepth.
  destruct (alphaBetaSearch_first_best 3 b p (isPlayer_truthy p Hp) Hne)
    as (res & mv & -> & -> & Hrest).
  exists mv. split; [reflexivity | exact Hrest].
Qed.

Lemma findBestMove_first_best_move_witness :
  exists mv,
    findBestMove boardAfterOpening WHITE = Some (Some mv) /\
    legalMove boardAfterOpening WHITE mv /\
    (forall m, legalMove boardAfterOpening WHITE m ->
               rootMoveScore searchDepth boardAfterOpening WHITE m
               <= rootMoveScore searchDepth boardAfterOpening WHITE mv) /\
    (forall m, legalMove boardAfterOpening WHITE m ->
               moveIndex m < moveIndex mv ->
               rootMoveScore searchDepth boardAfterOpening WHITE m
               < rootMoveScore searchDepth boardAfterOpening WHITE mv).
Proof.
  apply findBestMove_first_best_move;
    [reflexivity | reflexivity | vm_compute; discriminate].
Defined.

(** X14: the recursion of [alphaBetaSearch] is bounded although the pass
    call does not decrease [depth]: a pass is always followed by a node
    that consumes a ply, so calls are never nested deeper than
    [2 * depth + 1], and within that bound the literal recursion returns
    what the recursion on depth returns. *)
Theorem alphaBetaSearch_pass_recursion_bounded (d fuel : nat) (b : Board)
    (p : value) (alpha beta : number) (flag : bool) (root : value) :
  wf_board b -> (2 * d < fuel)%nat ->
  alphaBetaSearchFuel fuel b p d alpha beta flag root <> None /\
  alphaBetaSearchFuel fuel b p d alpha beta flag root =
  Some (alphaBetaSearch d b p alpha beta flag root).
Proof.
  intros _ Hfuel. rewrite alphaBetaSearchFuel_exact by exact Hfuel.
  split; [discriminate | reflexivity].
Qed.

Lemma alphaBetaSearch_pass_recursion_bounded_witness :
  alphaBetaSearchFuel 9 passBoard BLACK 4 NegInfinity Infinity true BLACK
  <> None /\
  alphaBetaSearchFuel 9 passBoard BLACK 4 NegInfinity Infinity true BLACK =
  Some (alphaBetaSearch 4 passBoard BLACK NegInfinity Infinity true BLACK).
Proof.
  apply alphaBetaSearch_pass_recursion_bounded; [reflexivity | lia].
Defined.

(** * The game driver *)

Lemma length_pos_true {A : Type} (l : list A) :
  (0 <? length l)%nat = true -> l <> [].
Proof. destruct l; [discriminate | discriminate]. Qed.

Lemma length_pos_false {A : Type} (l : list A) :
  (0 <? length l)%nat = false -> l = [].
Proof. destruct l; [reflexivity | discriminate]. Qed.

Lemma moveCount_app (l1 l2 : list LogEntry) :
  moveCount (l1 ++ l2) = moveCount l1 + moveCount l2.
Proof.
  unfold moveCount, sumZ. induction l1 as [| e l1 IH]; simpl; [reflexivity |].
  rewrite IH. lia.
Qed.

Lemma moveCount_snoc_move (l : list LogEntry) (n : nat) (bl : bool)
    (s : String.string) :
  moveCount (l ++ [MoveLine n bl s]) = moveCount l + 1.
Proof. rewrite moveCount_app. reflexivity. Qed.

Lemma moveCount_snoc_pass (l : list LogEntry) (bl : bool) :
  moveCount (l ++ [PassLine bl]) = moveCount l.
Proof. rewrite moveCount_app. unfold moveCount at 2. simpl. lia. Qed.

Lemma human_not_thinking (g : Game) :
  isCurrentPlayerHuman g = true -> isAIThinking g = false.
Proof.
  unfold isCurrentPlayerHuman. destruct (isAIThinking g); [discriminate | auto].
Qed.

Lemma legal_move_totalPieces (b : Board) (p : value) (r c : Z) :
  wf_board b -> isPlayer p = true -> legalMove b p (mkMove r c) ->
  exists nb,
    getResultingBoard b p r c = Some nb /\ wf_board nb /\
    totalPieces nb = totalPieces b + 1.
Proof.
  intros Hwf Hp Hlegal.
  destruct (legal_move_empty_count b p r c Hwf Hp Hlegal)
    as (nb & Hnb & Hwf' & Hcount).
  exists nb. split; [exact Hnb |]. split; [exact Hwf' |].
  pose proof (countColor_partition b Hwf).
  pose proof (countColor_partition nb Hwf').
  unfold totalPieces. lia.
Qed.

Lemma no_moves_both (b : Board) (p : value) :
  isPlayer p = true ->
  getValidMoves b p = [] -> getValidMoves b (opponentOf p) = [] ->
  getValidMoves b BLACK = [] /\ getValidMoves b WHITE = [].
Proof.
  intros Hp H1 H2. destruct (isPlayer_cases p Hp); subst p; auto.
Qed.

(** After the check that starts the AI, a side that can move is either a
    human to move or has its AI call pending. *)
Lemma checkAndTriggerAIMove_good (g : Game) :
  wf_board (board g) -> isPlayer (currentPlayer g) = true ->
  totalPieces (board g) = 4 + moveCount (gameLog g) ->
  isAIThinking g = false -> gameResult g = NoMessage ->
  getValidMoves (board g) (currentPlayer g) <> [] ->
  goodState (checkAndTriggerAIMove g) /\
  board (checkAndTriggerAIMove g) = board g /\
  gameLog (checkAndTriggerAIMove g) = gameLog g.
Proof.
  intros Hwf Hp Htotal Hth Hres Hmoves.
  unfold checkAndTriggerAIMove, aiMoveStart.
  destruct (isCurrentPlayerHuman g) eqn:Hh; cbn [negb orb].
  - split; [| auto]. unfold goodState. split; [exact Hwf |].
    split; [exact Hp |]. split; [exact Htotal |]. right. right. auto.
  - rewrite Hth. split; [| auto]. unfold goodState, aiPending.
    cbn [board currentPlayer gameLog isAIThinking gameResult andb].
    split; [exact Hwf |]. split; [exact Hp |]. split; [exact Htotal |].
    right. left. auto.
Qed.

Lemma switchPlayer_good (g : Game) :
  wf_board (board g) -> isPlayer (currentPlayer g) = true ->
  totalPieces (board g) = 4 + moveCount (gameLog g) ->
  isAIThinking g = false -> gameResult g = NoMessage ->
  goodState (switchPlayer g) /\ board (switchPlayer g) = board g /\
  moveCount (gameLog (switchPlayer g)) = moveCount (gameLog g).
Proof.
  intros Hwf Hp Htotal Hth Hres. unfold switchPlayer.
  destruct (0 <? length (getValidMoves (board g)
                           (opponentOf (currentPlayer g))))%nat eqn:Hopp.
  - apply length_pos_true in Hopp.
    destruct (checkAndTriggerAIMove_good
                (mkGame (board g) (previousBoard g)
                        (opponentOf (currentPlayer g)) (gameMode g)
                        (isAIThinking g) (gameLog g) (gameResult g)))
      as (Hgood & Hb & Hl); cbn [board currentPlayer gameLog isAIThinking
                                   gameResult]; auto.
    + apply opponentOf_isPlayer.
    + rewrite Hl. auto.
  - apply length_pos_false in Hopp.
    destruct (0 <? length (getValidMoves (board g) (currentPlayer g)))%nat
      eqn:Hcur.
    + apply length_pos_true in Hcur.
      destruct (checkAndTriggerAIMove_good
                  (mkGame (board g) (previousBoard g) (currentPlayer g)
                          (gameMode g) (isAIThinking g)
                          (gameLog g ++
                           [PassLine (strictEq (opponentOf (currentPlayer g))
                                               BLACK)])
                          (gameResult g)))
        as (Hgood & Hb & Hl); cbn [board currentPlayer gameLog isAIThinking
                                     gameResult]; auto.
      * now rewrite moveCount_snoc_pass.
      * rewrite Hl. cbn [gameLog]. rewrite moveCount_snoc_pass.
        split; [exact Hgood |]. split; [exact Hb | reflexivity].
    + apply length_pos_false in Hcur.
      destruct (no_moves_both (board g) (currentPlayer g) Hp Hcur Hopp)
        as [Hb Hw].
      split; [| split; reflexivity].
      unfold goodState, endGame, isOver, resultMatches.
      cbn [board currentPlayer gameLog isAIThinking gameResult].
      split; [exact Hwf |]. split; [exact Hp |]. split; [exact Htotal |].
      left.
      destruct (Z.ltb_spec (countColor (board g) WHITE)
                           (countColor (board g) BLACK));
        [repeat apply conj; auto |].
      destruct (Z.ltb_spec (countColor (board g) BLACK)
                           (countColor (board g) WHITE));
        repeat apply conj; auto; lia.
Qed.

Lemma placePieceAndSwitchPlayer_good (g : Game) (r c : Z) :
  wf_board (board g) -> isPlayer (currentPlayer g) = true ->
  totalPieces (board g) = 4 + moveCount (gameLog g) ->
  isAIThinking g = false -> gameResult g = NoMessage ->
  legalMove (board g) (currentPlayer g) (mkMove r c) ->
  goodState (placePieceAndSwitchPlayer g r c) /\
  getResultingBoard (board g) (currentPlayer g) r c
  = Some (board (placePieceAndSwitchPlayer g r c)) /\
  totalPieces (board (placePieceAndSwitchPlayer g r c))
  = totalPieces (board g) + 1 /\
  moveCount (gameLog (placePieceAndSwitchPlayer g r c))
  = moveCount (gameLog g) + 1.
Proof.
  intros Hwf Hp Htotal Hth Hres Hlegal.
  destruct (legal_move_totalPieces (board g) (currentPlayer g) r c
              Hwf Hp Hlegal) as (nb & Hnb & Hwf' & Hcount).
  unfold placePieceAndSwitchPlayer. rewrite Hnb.
  pose proof (switchPlayer_good
                (logMove (mkGame nb (Some (jsonCopy (board g)))
                                 (currentPlayer g) (gameMode g)
                                 (isAIThinking g) (gameLog g) (gameResult g))
                         r c)) as Hswitch.
  cbn [logMove board currentPlayer gameLog isAIThinking gameResult]
    in Hswitch.
  rewrite moveCount_snoc_move in Hswitch.
  destruct Hswitch as (Hgood & Hb & Hl); auto; [lia |].
  cbn [logMove board currentPlayer gameLog isAIThinking gameResult].
  rewrite Hb, Hl. split; [exact Hgood |]. split; [reflexivity |].
  split; [exact Hcount | reflexivity].
Qed.

Lemma goodState_human (g : Game) :
  goodState g -> isCurrentPlayerHuman g = true ->
  isAIThinking g = false /\ gameResult g = NoMessage /\
  getValidMoves (board g) (currentPlayer g) <> [].
Proof.
  intros (_ & _ & _ & Hkind) Hh. pose proof (human_not_thinking g Hh) as Hth.
  destruct Hkind as [(_ & H & _) | [(H & _) | (H1 & _ & H2)]].
  - congruence.
  - unfold aiPending in H. rewrite Hth in H. discriminate.
  - auto.
Qed.

Lemma goodState_pending (g : Game) :
  goodState g -> aiPending g = true ->
  getValidMoves (board g) (currentPlayer g) <> [].
Proof.
  intros (_ & _ & _ & Hkind) Hpend. unfold aiPending, isOver in *.
  destruct Hkind as [(H & _) | [(_ & H) | (H & _)]].
  - destruct (gameResult g); try discriminate;
      rewrite andb_false_r in Hpend; discriminate.
  - exact H.
  - rewrite H, andb_false_r in Hpend. discriminate.
Qed.

Lemma goodState_over (g : Game) :
  goodState g -> isOver g = true ->
  isAIThinking g = true /\ aiPending g = false /\ resultMatches g /\
  getValidMoves (board g) BLACK = [] /\ getValidMoves (board g) WHITE = [].
Proof.
  intros (_ & _ & _ & Hkind) Hover. unfold aiPending, isOver in *.
  destruct Hkind as [(_ & H1 & H2 & H3 & H4) | [(H & _) | (H & _)]].
  - repeat apply conj; auto.
    destruct (gameResult g); try discriminate; apply andb_false_r.
  - destruct (gameResult g); try discriminate;
      rewrite andb_false_r in H; discriminate.
  - rewrite H in Hover. discriminate.
Qed.

Lemma handleCellClick_step (g : Game) (r c : Z) :
  goodState g ->
  goodState (handleCellClick g r c) /\
  (handleCellClick g r c = g \/
   (isCurrentPlayerHuman g = true /\
    isValidMove (board g) (currentPlayer g) r c = true /\
    getResultingBoard (board g) (currentPlayer g) r c
    = Some (board (handleCellClick g r c)) /\
    totalPieces (board (handleCellClick g r c)) = totalPieces (board g) + 1 /\
    moveCount (gameLog (handleCellClick g r c))
    = moveCount (gameLog g) + 1)).
Proof.
  intros Hgood. unfold handleCellClick.
  destruct (isCurrentPlayerHuman g) eqn:Hh; cbn [negb]; [| auto].
  destruct (isValidMove (board g) (currentPlayer g) r c) eqn:Hvalid; [| auto].
  destruct (goodState_human g Hgood Hh) as (Hth & Hres & _).
  destruct Hgood as (Hwf & Hp & Htotal & _).
  pose proof Hvalid as Hlegal.
  apply isValidMove_legal in Hlegal; [| now apply isPlayer_truthy].
  destruct (placePieceAndSwitchPlayer_good g r c Hwf Hp Htotal Hth Hres Hlegal)
    as (H1 & H2 & H3 & H4).
  split; [exact H1 |]. right. auto.
Qed.

Lemma classicReply_step (g : Game) :
  goodState g ->
  goodState (step g ClassicReply) /\
  ((aiPending g = false /\ step g ClassicReply = g) \/
   (aiPending g = true /\
    exists mv,
      findBestMove (board g) (currentPlayer g) = Some (Some mv) /\
      legalMove (board g) (currentPlayer g) mv /\
      getResultingBoard (board g) (currentPlayer g) (row mv) (col mv)
      = Some (board (step g ClassicReply)) /\
      totalPieces (board (step g ClassicReply))
      = totalPieces (board g) + 1)).
Proof.
  intros Hgood. cbn [step].
  destruct (aiPending g) eqn:Hpend; [| auto].
  pose proof (goodState_pending g Hgood Hpend) as Hmoves.
  destruct Hgood as (Hwf & Hp & Htotal & _).
  rewrite (jsonCopy_wf (board g) Hwf).
  destruct (findBestMove_with_moves (board g) (currentPlayer g) Hmoves)
    as (mv & Hfind & Hin).
  rewrite Hfind. cbn [aiMoveFinish].
  apply getValidMoves_In in Hin; [| now apply isPlayer_truthy].
  assert (Hlegal : legalMove (board g) (currentPlayer g)
                             (mkMove (row mv) (col mv)))
    by now destruct mv.
  pose proof (placePieceAndSwitchPlayer_good
                (mkGame (board g) (previousBoard g) (currentPlayer g)
                        (gameMode g) false (gameLog g) NoMessage)
                (row mv) (col mv)) as Hplace.
  cbn [board currentPlayer gameLog isAIThinking gameResult] in Hplace.
  destruct (Hplace Hwf Hp Htotal eq_refl eq_refl Hlegal) as (H1 & H2 & H3 & _).
  split; [exact H1 |]. right. split; [reflexivity |].
  exists mv. auto.
Qed.

Lemma step_good (g : Game) (e : Event) : goodState g -> goodState (step g e).
Proof.
  intros Hgood. destruct e as [r c |].
  - apply (handleCellClick_step g r c Hgood).
  - apply (classicReply_step g Hgood).
Qed.

Lemma initGame_good (mode : String.string) : goodState (initGame mode).
Proof.
  apply (checkAndTriggerAIMove_good
           (mkGame initialBoard None BLACK mode false [] NoMessage));
    cbn [board currentPlayer gameLog isAIThinking gameResult];
    try reflexivity.
  vm_compute. discriminate.
Qed.

Lemma run_good (events : list Event) :
  forall g, goodState g -> goodState (run g events).
Proof.
  induction events as [| e events IH]; intros g Hgood; [exact Hgood |].
  apply IH. now apply step_good.
Qed.

Lemma goodState_moveCount (g : Game) :
  goodState g -> 0 <= moveCount (gameLog g) <= 60.
Proof.
  intros (Hwf & _ & Htotal & _).
  pose proof (countColor_partition (board g) Hwf).
  pose proof (countColor_range (board g) EMPTY).
  assert (0 <= moveCount (gameLog g)).
  { unfold moveCount. generalize (gameLog g). intros l.
    induction l as [| [n bl s | bl] l IH]; unfold sumZ in *; simpl; lia. }
  unfold totalPieces in Htotal. lia.
Qed.

(** X15: [switchPlayer], called as the driver calls it (no AI call
    running, no message shown), never changes the board and always leaves
    the game in one of two situations: the game is over, neither side has a
    legal move and the message gives the two counts and names the side with
    strictly more pieces (a draw for equal counts); or the side to move has
    a legal move, and that side is the former opponent unless the opponent
    has no move. *)
Theorem switchPlayer_hands_over (g : Game) :
  wf_board (board g) -> isPlayer (currentPlayer g) = true ->
  isAIThinking g = false -> gameResult g = NoMessage ->
  board (switchPlayer g) = board g /\
  ((isOver (switchPlayer g) = true /\ resultMatches (switchPlayer g) /\
    getValidMoves (board g) BLACK = [] /\
    getValidMoves (board g) WHITE = []) \/
   (isOver (switchPlayer g) = false /\
    getValidMoves (board g) (currentPlayer (switchPlayer g)) <> [] /\
    (currentPlayer (switchPlayer g) = opponentOf (currentPlayer g) \/
     (currentPlayer (switchPlayer g) = currentPlayer g /\
      getValidMoves (board g) (opponentOf (currentPlayer g)) = [])))).
Proof.
  intros Hwf Hp Hth Hres. unfold switchPlayer, checkAndTriggerAIMove, aiMoveStart.
  destruct (0 <? length (getValidMoves (board g)
                           (opponentOf (currentPlayer g))))%nat eqn:Hopp.
  - apply length_pos_true in Hopp.
    split; [now destruct (isCurrentPlayerHuman _), (isAIThinking _) |].
    right. unfold isOver.
    destruct (isCurrentPlayerHuman _); cbn [negb orb];
      [| cbn [isAIThinking]; rewrite Hth];
      cbn [gameResult currentPlayer]; rewrite ?Hres; auto.
  - apply length_pos_false in Hopp.
    destruct (0 <? length (getValidMoves (board g) (currentPlayer g)))%nat
      eqn:Hcur.
    + apply length_pos_true in Hcur.
      split; [now destruct (isCurrentPlayerHuman _), (isAIThinking _) |].
      right. unfold isOver.
      destruct (isCurrentPlayerHuman _); cbn [negb orb];
        [| cbn [isAIThinking]; rewrite Hth];
        cbn [gameResult currentPlayer]; rewrite ?Hres; auto.
    + apply length_pos_false in Hcur.
      destruct (no_moves_both (board g) (currentPlayer g) Hp Hcur Hopp)
        as [Hb Hw].
      split; [reflexivity |]. left.
      unfold endGame, isOver, resultMatches. cbn [board gameResult].
      destruct (Z.ltb_spec (countColor (board g) WHITE)
                           (countColor (board g) BLACK));
        [repeat apply conj; auto |].
      destruct (Z.ltb_spec (countColor (board g) BLACK)
                           (countColor (board g) WHITE));
        repeat apply conj; auto; lia.
Qed.

Lemma switchPlayer_hands_over_witness :
  let g := mkGame passBoard None WHITE "human-vs-human"%string false []
                  NoMessage in
  board (switchPlayer g) = board g /\
  ((isOver (switchPlayer g) = true /\ resultMatches (switchPlayer g) /\
    getValidMoves (board g) BLACK = [] /\
    getValidMoves (board g) WHITE = []) \/
   (isOver (switchPlayer g) = false /\
    getValidMoves (board g) (currentPlayer (switchPlayer g)) <> [] /\
    (currentPlayer (switchPlayer g) = opponentOf (currentPlayer g) \/
     (currentPlayer (switchPlayer g) = currentPlayer g /\
      getValidMoves (board g) (opponentOf (currentPlayer g)) = [])))).
Proof. apply switchPlayer_hands_over; reflexivity. Defined.

(** X16: a click changes the game only by a legal move of a human whose
    turn it is: either the state is left exactly as it was, or the clicked
    cell is a valid move of the current player, the new board is the one
    [getResultingBoard] computes for it, one piece and one move line have
    been added; in both cases the state invariant is kept. *)
Theorem handleCellClick_legal_or_nothing (g : Game) (r c : Z) :
  goodState g ->
  goodState (handleCellClick g r c) /\
  (handleCellClick g r c = g \/
   (isCurrentPlayerHuman g = true /\
    isValidMove (board g) (currentPlayer g) r c = true /\
    getResultingBoard (board g) (currentPlayer g) r c
    = Some (board (handleCellClick g r c)) /\
    totalPieces (board (handleCellClick g r c)) = totalPieces (board g) + 1 /\
    moveCount (gameLog (handleCellClick g r c))
    = moveCount (gameLog g) + 1)).
Proof. apply handleCellClick_step. Qed.

Lemma handleCellClick_legal_or_nothing_witness :
  let g := mkGame initialBoard None BLACK "human-vs-ai"%string false []
                  NoMessage in
  goodState (handleCellClick g 2 3) /\
  (handleCellClick g 2 3 = g \/
   (isCurrentPlayerHuman g = true /\
    isValidMove (board g) (currentPlayer g) 2 3 = true /\
    getResultingBoard (board g) (currentPlayer g) 2 3
    = Some (board (handleCellClick g 2 3)) /\
    totalPieces (board (handleCellClick g 2 3)) = totalPieces (board g) + 1 /\
    moveCount (gameLog (handleCellClick g 2 3))
    = moveCount (gameLog g) + 1)).
Proof.
  apply handleCellClick_legal_or_nothing.
  unfold goodState. cbn [board currentPlayer gameLog gameResult].
  split; [reflexivity |]. split; [reflexivity |]. split; [reflexivity |].
  right. right. split; [reflexivity |]. split; [reflexivity |].
  vm_compute. discriminate.
Defined.

(** X17: every state of a game, whatever the mode string, reached from
    [initGame] by clicks and by answers of the classic AI, satisfies the
    state invariant: the board is well formed; the pieces on it are the
    four of the opening plus one per logged move, so at most 60 moves are
    ever logged; and either the game is over with neither side able to move
    and a message that agrees with the board, or the side to move has a
    legal move and is a human or has its AI call pending. *)
Theorem game_invariant (mode : String.string) (events : list Event) :
  goodState (run (initGame mode) events) /\
  0 <= moveCount (gameLog (run (initGame mode) events)) <= 60.
Proof.
  assert (Hgood : goodState (run (initGame mode) events))
    by (apply run_good, initGame_good).
  split; [exact Hgood | now apply goodState_moveCount].
Qed.

(** X18: a game is never stuck: in every state reached from [initGame],
    either the game is over or some event adds a piece to the board; when
    an AI call is pending that event is the answer of the classic AI, which
    is therefore always a move the driver accepts. *)
Theorem game_never_stuck (mode : String.string) (events : list Event) :
  let g := run (initGame mode) events in
  isOver g = true \/
  (aiPending g = true /\
   totalPieces (board (step g ClassicReply)) = totalPieces (board g) + 1) \/
  (isCurrentPlayerHuman g = true /\
   exists r c,
     totalPieces (board (step g (Click r c))) = totalPieces (board g) + 1).
Proof.
  intros g.
  assert (Hgood : goodState g) by (apply run_good, initGame_good).
  pose proof Hgood as (Hwf & Hp & Htotal & Hkind).
  destruct Hkind as [(H & _) | [(Hpend & _) | (Hres & Hh & Hmoves)]].
  - now left.
  - right. left. split; [exact Hpend |].
    destruct (classicReply_step g Hgood) as (_ & [(H & _) | (_ & mv & Hmv)]).
    + congruence.
    + now destruct Hmv as (_ & _ & _ & H).
  - right. right. split; [exact Hh |].
    destruct (getValidMoves (board g) (currentPlayer g)) as [| mv rest] eqn:Hvm;
      [congruence |].
    assert (Hlegal : legalMove (board g) (currentPlayer g) mv).
    { apply getValidMoves_In; [now apply isPlayer_truthy |].
      rewrite Hvm. now left. }
    exists (row mv), (col mv). cbn [step]. unfold handleCellClick.
    rewrite Hh. cbn [negb].
    assert (Hlegal' : legalMove (board g) (currentPlayer g)
                                (mkMove (row mv) (col mv)))
      by now destruct mv.
    pose proof Hlegal' as Hvalid.
    apply isValidMove_legal in Hvalid; [| now apply isPlayer_truthy].
    rewrite Hvalid.
    apply (placePieceAndSwitchPlayer_good g (row mv) (col mv)); auto.
    now apply human_not_thinking.
Qed.

(** X19: once [endGame] has written its message the game is final: no
    click and no AI answer changes the state any more. *)
Theorem game_over_is_final (mode : String.string) (events : list Event)
    (e : Event) :
  isOver (run (initGame mode) events) = true ->
  step (run (initGame mode) events) e = run (initGame mode) events.
Proof.
  intros Hover.
  assert (Hgood : goodState (run (initGame mode) events))
    by (apply run_good, initGame_good).
  destruct (goodState_over _ Hgood Hover) as (Hth & Hpend & _).
  destruct e as [r c |]; cbn [step].
  - unfold handleCellClick, isCurrentPlayerHuman. now rewrite Hth.
  - now rewrite Hpend.
Qed.

Lemma game_over_is_final_witness :
  step (run (initGame "human-vs-human"%string)
            [Click 4 5; Click 5 3; Click 4 2; Click 3 5; Click 2 4;
             Click 5 5; Click 4 6; Click 5 4; Click 6 4])
       (Click 0 0) =
  run (initGame "human-vs-human"%string)
      [Click 4 5; Click 5 3; Click 4 2; Click 3 5; Click 2 4;
       Click 5 5; Click 4 6; Click 5 4; Click 6 4].
Proof. apply game_over_is_final. vm_compute. reflexivity. Defined.

(** ** The notation of a move *)

Lemma inBoard_cases (r c : Z) :
  inBoard r c = true -> In r indices /\ In c indices.
Proof. intros H. apply inBoard_spec in H. split; apply In_indices; lia. Qed.

Lemma parseNotation_moveNotation (r c : Z) :
  inBoard r c = true -> parseNotation (moveNotation r c) = Some (mkMove r c).
Proof.
  intros Hin. destruct (inBoard_cases r c Hin) as [Hr Hc].
  unfold indices in Hr, Hc. simpl in Hr, Hc.
  repeat (destruct Hr as [<- | Hr]; [| try contradiction]);
  repeat (destruct Hc as [<- | Hc]; [| try contradiction]);
  reflexivity.
Qed.

(** X20: the notation [logMove] writes for a move inside the board (a
    column letter followed by a row digit, two characters) determines the
    move: it can be read back, and two different moves never get the same
    notation. *)
Theorem moveNotation_identifies_move (r1 c1 r2 c2 : Z) :
  inBoard r1 c1 = true -> inBoard r2 c2 = true ->
  String.length (moveNotation r1 c1) = 2%nat /\
  parseNotation (moveNotation r1 c1) = Some (mkMove r1 c1) /\
  (moveNotation r1 c1 = moveNotation r2 c2 -> r1 = r2 /\ c1 = c2).
Proof.
  intros H1 H2. pose proof (parseNotation_moveNotation r1 c1 H1) as P1.
  pose proof (parseNotation_moveNotation r2 c2 H2) as P2.
  split; [| split; [exact P1 |]].
  - unfold parseNotation in P1.
    destruct (moveNotation r1 c1) as [| a [| d [| x s]]]; try discriminate.
    reflexivity.
  - intros Heq. rewrite Heq, P2 in P1. injection P1 as -> ->. auto.
Qed.

Lemma moveNotation_identifies_move_witness :
  String.length (moveNotation 2 3) = 2%nat /\
  parseNotation (moveNotation 2 3) = Some (mkMove 2 3) /\
  (moveNotation 2 3 = moveNotation 3 2 -> 2 = 3 /\ 3 = 2).
Proof. apply moveNotation_identifies_move; reflexivity. Defined.


(** * The input of the neural network *)

Lemma In_allCells (m : Move) :
  In m allCells <-> inBoard (row m) (col m) = true.
Proof.
  unfold allCells. rewrite in_flat_map. split.
  - intros (r & Hr & Hm). apply in_map_iff in Hm.
    destruct Hm as (c & <- & Hc). apply In_indices in Hr, Hc.
    apply inBoard_spec. simpl. lia.
  - intros Hin. destruct (inBoard_cases _ _ Hin) as [Hr Hc].
    exists (row m). split; [exact Hr |]. apply in_map_iff.
    exists (col m). split; [now destruct m | exact Hc].
Qed.

Lemma fold_left_flat_map {A B C : Type} (f : A -> B -> A) (g : C -> list B)
    (l : list C) :
  forall a, fold_left f (flat_map g l) a
            = fold_left (fun a x => fold_left f (g x) a) l a.
Proof.
  induction l as [| x l IH]; intros a; [reflexivity |].
  cbn [flat_map fold_left]. now rewrite fold_left_app, IH.
Qed.

Lemma fold_left_mapped {A B C : Type} (f : A -> B -> A) (h : C -> B)
    (l : list C) :
  forall a, fold_left f (map h l) a = fold_left (fun a x => f a (h x)) l a.
Proof.
  induction l as [| x l IH]; intros a; [reflexivity |].
  cbn [map fold_left]. apply IH.
Qed.

Lemma fold_left_pointwise {A B : Type} (f g : A -> B -> A) (l : list B) :
  (forall a x, f a x = g a x) ->
  forall a, fold_left f l a = fold_left g l a.
Proof.
  intros Hfg. induction l as [| x l IH]; intros a; [reflexivity |].
  cbn [fold_left]. now rewrite Hfg, IH.
Qed.

Lemma boardToTensor_allCells (b : Board) (p : value) :
  boardToTensor b p =
  fold_left (fun t m => tensorStep b p (opponentOf p) (row m) t (col m))
            allCells (replicate (2 * planeSize) 0).
Proof.
  unfold boardToTensor, allCells. generalize (replicate (2 * planeSize) 0).
  generalize indices at 1 3. intros l t.
  rewrite fold_left_flat_map. apply fold_left_pointwise.
  intros a r. now rewrite fold_left_mapped.
Qed.

Lemma tensorIndex_lt (r c : Z) :
  inBoard r c = true -> (tensorIndex r c < planeSize)%nat.
Proof.
  intros H. apply inBoard_spec in H. unfold tensorIndex, planeSize, BOARD_SIZE.
  lia.
Qed.

Lemma tensorIndex_inj (r1 c1 r2 c2 : Z) :
  inBoard r1 c1 = true -> inBoard r2 c2 = true ->
  tensorIndex r1 c1 = tensorIndex r2 c2 -> r1 = r2 /\ c1 = c2.
Proof.
  intros H1 H2. apply inBoard_spec in H1, H2.
  unfold tensorIndex, BOARD_SIZE. lia.
Qed.

Lemma tensorStep_length (b : Board) (p o : value) (r c : Z) (t : list Z) :
  length (tensorStep b p o r t c) = length t.
Proof.
  unfold tensorStep.
  destruct (strictEq (cellAt b r c) p); [apply length_insert |].
  destruct (strictEq (cellAt b r c) o); [apply length_insert | reflexivity].
Qed.

Lemma tensorStep_lookup (b : Board) (p o : value) (m : Move) (t : list Z)
    (k : nat) :
  inBoard (row m) (col m) = true -> length t = (2 * planeSize)%nat ->
  tensorStep b p o (row m) t (col m) !! k =
  if writesAt b p o k m then Some 1 else t !! k.
Proof.
  intros Hin Hlen. pose proof (tensorIndex_lt _ _ Hin) as Hlt.
  unfold tensorStep, writesAt.
  destruct (strictEq (cellAt b (row m) (col m)) p).
  - rewrite list_lookup_insert.
    destruct (Nat.eqb_spec k (tensorIndex (row m) (col m))) as [-> | Hne];
      case_decide; try reflexivity; lia.
  - destruct (strictEq (cellAt b (row m) (col m)) o); [| reflexivity].
    rewrite list_lookup_insert.
    destruct (Nat.eqb_spec k (planeSize + tensorIndex (row m) (col m)))
      as [-> | Hne];
      case_decide; try reflexivity; lia.
Qed.

Lemma fold_tensorStep (b : Board) (p o : value) (k : nat) :
  forall (l : list Move) (t : list Z),
    (forall m, In m l -> inBoard (row m) (col m) = true) ->
    length t = (2 * planeSize)%nat ->
    length (fold_left (fun t m => tensorStep b p o (row m) t (col m)) l t)
    = (2 * planeSize)%nat /\
    fold_left (fun t m => tensorStep b p o (row m) t (col m)) l t !! k =
    if existsb (writesAt b p o k) l then Some 1 else t !! k.
Proof.
  induction l as [| m l IH]; intros t Hin Hlen; [auto |].
  cbn [fold_left existsb].
  destruct (IH (tensorStep b p o (row m) t (col m))) as [IHlen IHk].
  - intros x Hx. apply Hin. now right.
  - now rewrite tensorStep_length.
  - split; [exact IHlen |]. rewrite IHk, tensorStep_lookup; auto.
    + destruct (writesAt b p o k m), (existsb (writesAt b p o k) l);
        reflexivity.
    + apply Hin. now left.
Qed.

Lemma existsb_writes_first (b : Board) (p o : value) (r c : Z) :
  inBoard r c = true ->
  existsb (writesAt b p o (tensorIndex r c)) allCells
  = strictEq (cellAt b r c) p.
Proof.
  intros Hin. apply eq_iff_eq_true. rewrite existsb_exists. split.
  - intros (m & Hm & Hw). apply In_allCells in Hm. unfold writesAt in Hw.
    pose proof (tensorIndex_lt _ _ Hin). pose proof (tensorIndex_lt _ _ Hm).
    destruct (strictEq (cellAt b (row m) (col m)) p) eqn:Hp.
    + apply Nat.eqb_eq in Hw.
      destruct (tensorIndex_inj _ _ _ _ Hin Hm Hw) as [-> ->]. exact Hp.
    + destruct (strictEq (cellAt b (row m) (col m)) o); [| discriminate].
      apply Nat.eqb_eq in Hw. lia.
  - intros Hp. exists (mkMove r c). split; [now apply In_allCells |].
    unfold writesAt. cbn [row col]. rewrite Hp. apply Nat.eqb_refl.
Qed.

Lemma existsb_writes_second (b : Board) (p o : value) (r c : Z) :
  inBoard r c = true -> o <> p ->
  existsb (writesAt b p o (planeSize + tensorIndex r c)) allCells
  = strictEq (cellAt b r c) o.
Proof.
  intros Hin Hop. apply eq_iff_eq_true. rewrite existsb_exists. split.
  - intros (m & Hm & Hw). apply In_allCells in Hm. unfold writesAt in Hw.
    pose proof (tensorIndex_lt _ _ Hin). pose proof (tensorIndex_lt _ _ Hm).
    destruct (strictEq (cellAt b (row m) (col m)) p) eqn:Hp.
    + apply Nat.eqb_eq in Hw. lia.
    + destruct (strictEq (cellAt b (row m) (col m)) o) eqn:Ho;
        [| discriminate].
      apply Nat.eqb_eq in Hw.
      assert (Hidx : tensorIndex r c = tensorIndex (row m) (col m)) by lia.
      destruct (tensorIndex_inj _ _ _ _ Hin Hm Hidx) as [-> ->]. exact Ho.
  - intros Ho. exists (mkMove r c). split; [now apply In_allCells |].
    unfold writesAt. cbn [row col].
    assert (Hp : strictEq (cellAt b r c) p = false).
    { apply strictEq_neq. apply strictEq_eq in Ho. congruence. }
    rewrite Hp, Ho. apply Nat.eqb_refl.
Qed.

Lemma boardToTensor_lookup (b : Board) (p : value) (r c : Z) :
  inBoard r c = true ->
  length (boardToTensor b p) = (2 * planeSize)%nat /\
  boardToTensor b p !! tensorIndex r c =
    Some (if strictEq (cellAt b r c) p then 1 else 0) /\
  boardToTensor b p !! (planeSize + tensorIndex r c)%nat =
    Some (if strictEq (cellAt b r c) (opponentOf p) then 1 else 0).
Proof.
  intros Hin. pose proof (tensorIndex_lt _ _ Hin) as Hlt.
  rewrite boardToTensor_allCells.
  assert (Hcells : forall m, In m allCells -> inBoard (row m) (col m) = true)
    by (intros m; apply In_allCells).
  assert (Hlen : length (replicate (2 * planeSize) 0) = (2 * planeSize)%nat)
    by apply length_replicate.
  destruct (fold_tensorStep b p (opponentOf p) (tensorIndex r c) allCells
              _ Hcells Hlen) as [H0 H1].
  destruct (fold_tensorStep b p (opponentOf p) (planeSize + tensorIndex r c)
              allCells _ Hcells Hlen) as [_ H2].
  split; [exact H0 |]. split.
  - rewrite H1, existsb_writes_first by exact Hin.
    destruct (strictEq (cellAt b r c) p); [reflexivity |].
    apply lookup_replicate_2. lia.
  - rewrite H2, existsb_writes_second
      by (auto using opponentOf_neq_any).
    destruct (strictEq (cellAt b r c) (opponentOf p)); [reflexivity |].
    apply lookup_replicate_2. lia.
Qed.

(** X21: on a well-formed board [boardToTensor] returns 128 numbers; at
    the row-major index of a cell the first plane holds 1 exactly when the
    cell belongs to the player and 0 otherwise, and the second plane, 64
    positions further, holds 1 exactly when the cell belongs to the
    opponent and 0 otherwise. *)
Theorem boardToTensor_planes (b : Board) (p : value) (r c : Z) :
  wf_board b -> inBoard r c = true ->
  length (boardToTensor b p) = 128%nat /\
  boardToTensor b p !! Z.to_nat (8 * r + c) =
    Some (if strictEq (cellAt b r c) p then 1 else 0) /\
  boardToTensor b p !! (64 + Z.to_nat (8 * r + c))%nat =
    Some (if strictEq (cellAt b r c) (opponentOf p) then 1 else 0).
Proof.
  intros _ Hin. destruct (boardToTensor_lookup b p r c Hin) as (H0 & H1 & H2).
  unfold tensorIndex, BOARD_SIZE in H1, H2.
  replace (r * 8 + c) with (8 * r + c) in H1, H2 by lia.
  repeat apply conj; assumption.
Qed.

Lemma boardToTensor_planes_witness :
  length (boardToTensor initialBoard WHITE) = 128%nat /\
  boardToTensor initialBoard WHITE !! Z.to_nat (8 * 3 + 4) =
    Some (if strictEq (cellAt initialBoard 3 4) WHITE then 1 else 0) /\
  boardToTensor initialBoard WHITE !! (64 + Z.to_nat (8 * 3 + 4))%nat =
    Some (if strictEq (cellAt initialBoard 3 4) (opponentOf WHITE)
          then 1 else 0).
Proof. apply boardToTensor_planes; reflexivity. Defined.

(** X22: the encoding loses nothing: two well-formed boards that give the
    same tensor for the same player are the same board. *)
Theorem boardToTensor_injective (b1 b2 : Board) (p : value) :
  wf_board b1 -> wf_board b2 -> isPlayer p = true ->
  boardToTensor b1 p = boardToTensor b2 p -> b1 = b2.
Proof.
  intros Hwf1 Hwf2 Hp Heq. apply sameCells_eq; auto.
  intros r c Hin.
  destruct (boardToTensor_lookup b1 p r c Hin) as (_ & A1 & B1).
  destruct (boardToTensor_lookup b2 p r c Hin) as (_ & A2 & B2).
  rewrite Heq in A1, B1. rewrite A2 in A1. rewrite B2 in B1.
  pose proof (cellAt_isCell b1 r c Hwf1 Hin) as C1.
  pose proof (cellAt_isCell b2 r c Hwf2 Hin) as C2.
  assert (HA : strictEq (cellAt b2 r c) p = strictEq (cellAt b1 r c) p)
    by (destruct (strictEq (cellAt b2 r c) p),
                 (strictEq (cellAt b1 r c) p); congruence).
  assert (HB : strictEq (cellAt b2 r c) (opponentOf p)
               = strictEq (cellAt b1 r c) (opponentOf p))
    by (destruct (strictEq (cellAt b2 r c) (opponentOf p)),
                 (strictEq (cellAt b1 r c) (opponentOf p)); congruence).
  clear A1 A2 B1 B2 Heq.
  unfold isCell in C1, C2.
  destruct (isPlayer_cases p Hp); subst p;
    [change (opponentOf BLACK) with WHITE in HB
    | change (opponentOf WHITE) with BLACK in HB];
    destruct (strictEq (cellAt b1 r c) EMPTY) eqn:E1,
             (strictEq (cellAt b1 r c) BLACK) eqn:K1,
             (strictEq (cellAt b1 r c) WHITE) eqn:W1; try discriminate;
    destruct (strictEq (cellAt b2 r c) EMPTY) eqn:E2,
             (strictEq (cellAt b2 r c) BLACK) eqn:K2,
             (strictEq (cellAt b2 r c) WHITE) eqn:W2; try discriminate;
    repeat match goal with
           | H : strictEq _ _ = true |- _ => apply strictEq_eq in H
           end; congruence.
Qed.

Lemma boardToTensor_injective_witness :
  boardAfterOpening = applyMove initialBoard BLACK (mkMove 2 3).
Proof.
  apply (boardToTensor_injective _ _ WHITE); reflexivity.
Defined.

Lemma tensorIndex_cell (k : nat) :
  (k < planeSize)%nat ->
  exists r c, inBoard r c = true /\ tensorIndex r c = k.
Proof.
  intros Hk. exists (Z.of_nat k / 8), (Z.of_nat k mod 8).
  assert (Hk' : (k < 64)%nat) by exact Hk.
  pose proof (Z.div_mod (Z.of_nat k) 8 ltac:(lia)) as Hdm.
  pose proof (Z.mod_pos_bound (Z.of_nat k) 8 ltac:(lia)) as Hm.
  split.
  - apply inBoard_spec. split; [| lia]. split.
    + apply Z.div_pos; lia.
    + apply Z.div_lt_upper_bound; lia.
  - unfold tensorIndex, BOARD_SIZE. lia.
Qed.

(** X23: seen from the other side the two planes change places: on a
    well-formed board and for a player colour, the tensor built for the
    opponent is the tensor built for the player with its second half of 64
    entries put before its first half. *)
Theorem boardToTensor_opponent_swaps_planes (b : Board) (p : value) :
  wf_board b -> isPlayer p = true ->
  boardToTensor b (opponentOf p) =
  drop 64 (boardToTensor b p) ++ take 64 (boardToTensor b p).
Proof.
  intros _ Hp. apply list_eq. intros k.
  destruct (boardToTensor_lookup b p 0 0 eq_refl) as (Hlen & _ & _).
  destruct (boardToTensor_lookup b (opponentOf p) 0 0 eq_refl)
    as (Hlen' & _ & _).
  change (2 * planeSize)%nat with 128%nat in Hlen, Hlen'.
  assert (Hdrop : length (drop 64 (boardToTensor b p)) = 64%nat)
    by (rewrite length_drop; lia).
  destruct (Nat.lt_ge_cases k 64) as [Hk | Hk].
  - destruct (tensorIndex_cell k Hk) as (r & c & Hin & <-).
    destruct (boardToTensor_lookup b p r c Hin) as (_ & _ & H2).
    destruct (boardToTensor_lookup b (opponentOf p) r c Hin) as (_ & H1 & _).
    rewrite H1, lookup_app_l by lia. rewrite lookup_drop.
    change planeSize with 64%nat in H2. now rewrite H2.
  - destruct (Nat.lt_ge_cases k 128) as [Hk2 | Hk2].
    + assert (Hk' : (k - 64 < planeSize)%nat)
        by (change planeSize with 64%nat; lia).
      destruct (tensorIndex_cell _ Hk') as (r & c & Hin & Hidx).
      destruct (boardToTensor_lookup b p r c Hin) as (_ & H1 & _).
      destruct (boardToTensor_lookup b (opponentOf p) r c Hin)
        as (_ & _ & H2).
      rewrite opponentOf_involutive in H2 by exact Hp.
      rewrite Hidx in H1, H2. change planeSize with 64%nat in H2.
      replace (64 + (k - 64))%nat with k in H2 by lia.
      rewrite H2, lookup_app_r by lia. rewrite Hdrop.
      rewrite lookup_take_lt by lia. now rewrite H1.
    + rewrite !lookup_ge_None_2; [reflexivity | |].
      * rewrite length_app, Hdrop, length_take. lia.
      * lia.
Qed.

Lemma boardToTensor_opponent_swaps_planes_witness :
  boardToTensor initialBoard (opponentOf BLACK) =
  drop 64 (boardToTensor initialBoard BLACK)
  ++ take 64 (boardToTensor initialBoard BLACK).
Proof. apply boardToTensor_opponent_swaps_planes; reflexivity. Defined.
